(** * lal-checkers: the Basic IR tools and the checkers built on them

    A shallow embedding of [lalcheck/irs/basic/tools.py] (CFGBuilder, Models,
    ExprEvaluator, ExprSolver), of the parts of the libadalang frontend
    [lalcheck/irs/basic/frontends/lal.py] that build conditionals, and of the
    finding-extraction code of the checkers, followed by the properties
    established about them. *)

From stdpp Require Import gmap strings list fin_maps pretty.

Set Default Proof Using "Type".
Set Warnings "-register-all".

(** ** Python results

    A call either returns a value or raises.  Only the exception classes the
    embedded code can raise are listed. *)

Inductive exn :=
| KeyError
| AttributeError
| TypeError
| NotImplementedError
| ValueError
| LookupError (msg : string).

Inductive result (A : Type) :=
| Ok (a : A)
| Raise (e : exn).
Arguments Ok {A} a.
Arguments Raise {A} e.

Definition bind {A B} (r : result A) (k : A → result B) : result B :=
  match r with
  | Ok a => k a
  | Raise e => Raise e
  end.

Notation "x ←' r ; k" := (bind r (λ x, k))
  (at level 20, r at level 100, k at level 200, right associativity,
   format "x  ←'  r ;  '/' k").

(** ** The Basic IR ([lalcheck.irs.basic.tree], as the tools use it)

    Type hints are libadalang declaration nodes; the tools only store and
    compare them, so a hint is represented by the identity of that node.  An
    [Identifier] object is created once per declared variable (the frontend
    keeps them in [var_decls], keyed by declaration and text), so its identity
    is the pair of its name and of its declaration. *)

Definition Hint := nat.

Inductive LitVal :=
| LInt (z : Z)
| LStr (s : string).

Inductive Expr :=
| Identifier (name : string) (decl : nat) (type_hint : option Hint)
| Lit (val : LitVal) (type_hint : option Hint)
| UnExpr (un_op : string) (expr : Expr) (type_hint : option Hint)
| BinExpr (lhs : Expr) (bin_op : string) (rhs : Expr) (type_hint : option Hint).

Inductive Purpose :=
| DerefCheck (expr : Expr)
| SyntheticVariable
| FieldAssignment (field_index : nat) (field_type_hint : Hint)
| ExistCheck (accessed_expr : Expr) (field_name discr_name : string).

Inductive Stmt :=
| AssignStmt (id : Expr) (expr : Expr)
| ReadStmt (id : Expr)
| UseStmt (id : Expr)
| AssumeStmt (expr : Expr) (purpose : option Purpose)
| SplitStmt (fst_stmts snd_stmts : list Stmt)
| LoopStmt (stmts : list Stmt).

Record Program := { stmts : list Stmt }.

(** [node.data.type_hint] *)
Definition type_hint (node : Expr) : option Hint :=
  match node with
  | Identifier _ _ h | Lit _ h | UnExpr _ _ h | BinExpr _ _ _ h => h
  end.

#[global] Instance LitVal_eq_dec : EqDecision LitVal.
Proof. solve_decision. Defined.
#[global] Instance Expr_eq_dec : EqDecision Expr.
Proof. solve_decision. Defined.
#[global] Instance Purpose_eq_dec : EqDecision Purpose.
Proof. solve_decision. Defined.

(** The key under which an identifier is stored in an environment. *)
Abbreviation Env V := (gmap (string * nat) V) (only parsing).

(** ** Models as the evaluator and the solver read them

    A model maps a node to a [Bunch]; which attributes the bunch has depends
    on the node kind ([Models.visit_*]).  Reading an absent attribute raises
    [AttributeError], calling a definition with the wrong number of arguments
    raises [TypeError].  A domain is an object: [dom_addr] is its identity,
    the other fields are the operations the tools call on it. *)

Record Domain (V : Type) := {
  dom_addr : nat;
  meet : V → V → V;
  is_empty : V → bool;
}.
Arguments dom_addr {V} _.
Arguments meet {V} _ _ _.
Arguments is_empty {V} _ _.

Inductive Definition_ (V : Type) :=
| UnDef (f : V → V)
| BinDef (f : V → V → V).
Arguments UnDef {V} f.
Arguments BinDef {V} f.

Inductive Inverse (V : Type) :=
| UnInv (f : V → V → option V)
| BinInv (f : V → V → V → option (V * V)).
Arguments UnInv {V} f.
Arguments BinInv {V} f.

Record Bunch (V : Type) := {
  domain : option (Domain V);
  definition : option (Definition_ V);
  inverse : option (Inverse V);
  builder : option (LitVal → V);
}.
Arguments domain {V} _.
Arguments definition {V} _.
Arguments inverse {V} _.
Arguments builder {V} _.

Definition getitem {K A} (m : K → option A) (k : K) : result A :=
  match m k with
  | Some a => Ok a
  | None => Raise KeyError
  end.

Definition getattr {A} (field : option A) : result A :=
  match field with
  | Some a => Ok a
  | None => Raise AttributeError
  end.

Module ExprEvaluator.
Section evaluator.
Context {V : Type} (model : Expr → option (Bunch V)).

Definition call1 (d : Definition_ V) (x : V) : result V :=
  match d with
  | UnDef f => Ok (f x)
  | BinDef _ => Raise TypeError
  end.

Definition call2 (d : Definition_ V) (x y : V) : result V :=
  match d with
  | BinDef f => Ok (f x y)
  | UnDef _ => Raise TypeError
  end.

Fixpoint eval (e : Expr) (env : Env V) : result V :=
  match e with
  | Identifier name decl _ => getitem (env !!.) (name, decl)
  | BinExpr lhs _ rhs _ =>
      l ←' eval lhs env;
      r ←' eval rhs env;
      b ←' getitem model e;
      d ←' getattr (definition b);
      call2 d l r
  | UnExpr _ expr _ =>
      x ←' eval expr env;
      b ←' getitem model e;
      d ←' getattr (definition b);
      call1 d x
  | Lit val _ =>
      b ←' getitem model e;
      f ←' getattr (builder b);
      Ok (f val)
  end.

End evaluator.
End ExprEvaluator.

Module ExprSolver.
Section solver.
Context {V : Type} (model : Expr → option (Bunch V)).

(** [boolean_ops.true], the abstract value a predicate is solved for. *)
Context (boolean_true : V).

Definition inv1 (i : Inverse V) (expected x : V) : result (option V) :=
  match i with
  | UnInv f => Ok (f expected x)
  | BinInv _ => Raise TypeError
  end.

Definition inv2 (i : Inverse V) (expected x y : V) : result (option (V * V)) :=
  match i with
  | BinInv f => Ok (f expected x y)
  | UnInv _ => Raise TypeError
  end.

(** A visit mutates the dictionary it was handed and returns a boolean; the
    dictionary is threaded through, and is kept as it stands when the visit
    raises. *)
Definition raise_in {R : Type} (e : exn) (env : Env V) : result R * Env V :=
  (Raise e, env).

Definition visit_ident (name : string) (decl : nat) (e : Expr)
    (env : Env V) (expected : V) : result bool * Env V :=
  match (b ←' getitem model e; getattr (domain b)) with
  | Raise x => raise_in x env
  | Ok dom =>
      match getitem (env !!.) (name, decl) with
      | Raise x => raise_in x env
      | Ok cur => (Ok true, <[(name, decl) := meet dom cur expected]> env)
      end
  end.

Definition visit_lit (e : Expr) (env : Env V) (expected : V)
    : result bool * Env V :=
  match (b ←' getitem model e; getattr (domain b)) with
  | Raise x => raise_in x env
  | Ok lit_dom =>
      match ExprEvaluator.eval model e env with
      | Raise x => raise_in x env
      | Ok lit_val =>
          (Ok (negb (is_empty lit_dom (meet lit_dom expected lit_val))), env)
      end
  end.

Fixpoint visit (e : Expr) (env : Env V) (expected : V)
    : result bool * Env V :=
  match e with
  | Identifier name decl _ => visit_ident name decl e env expected
  | Lit _ _ => visit_lit e env expected
  | UnExpr _ expr _ =>
      match (expr_val ←' ExprEvaluator.eval model expr env;
             b ←' getitem model e;
             i ←' getattr (inverse b);
             inv1 i expected expr_val) with
      | Raise x => raise_in x env
      | Ok None => (Ok false, env)
      | Ok (Some expected_expr) => visit expr env expected_expr
      end
  | BinExpr lhs _ rhs _ =>
      match (lhs_val ←' ExprEvaluator.eval model lhs env;
             rhs_val ←' ExprEvaluator.eval model rhs env;
             b ←' getitem model e;
             i ←' getattr (inverse b);
             inv2 i expected lhs_val rhs_val) with
      | Raise x => raise_in x env
      | Ok None => (Ok false, env)
      | Ok (Some (expected_lhs, expected_rhs)) =>
          match visit lhs env expected_lhs with
          | (Ok true, env1) => visit rhs env1 expected_rhs
          | other => other
          end
      end
  end.

(** Dictionaries are heap objects: [solve] receives a reference to the
    caller's environment, and returns a reference to a dictionary.  The store
    maps addresses to dictionaries. *)
Abbreviation Store := (gmap nat (gmap (string * nat) V)) (only parsing).

Definition alloc (d : Env V) (σ : Store) : nat * Store :=
  let l := fresh (dom σ) in (l, <[l := d]> σ).

(** [dict.copy()]: a new dictionary with the same bindings. *)
Definition copy (l : nat) (σ : Store) : result nat * Store :=
  match σ !! l with
  | None => (Raise AttributeError, σ)
  | Some d => let '(l', σ') := alloc d σ in (Ok l', σ')
  end.

(** Runs a visit on the dictionary stored at [l]. *)
Definition visit_at (e : Expr) (l : nat) (expected : V) (σ : Store)
    : result bool * Store :=
  match σ !! l with
  | None => (Raise AttributeError, σ)
  | Some d => let '(r, d') := visit e d expected in (r, <[l := d']> σ)
  end.

Definition solve (e : Expr) (env : nat) (σ : Store) : result nat * Store :=
  match copy env σ with
  | (Raise x, σ1) => (Raise x, σ1)
  | (Ok new_env, σ1) =>
      match visit_at e new_env boolean_true σ1 with
      | (Raise x, σ2) => (Raise x, σ2)
      | (Ok false, σ2) => let '(l, σ3) := alloc ∅ σ2 in (Ok l, σ3)
      | (Ok true, σ2) => (Ok new_env, σ2)
      end
  end.

(** The dictionary [solve] returns, read back from the store. *)
Definition solve_env (e : Expr) (env : Env V) : result (Env V) :=
  let '(l, σ) := alloc env ∅ in
  match solve e l σ with
  | (Ok r, σ') => getitem (σ' !!.) r
  | (Raise x, _) => Raise x
  end.

End solver.
End ExprSolver.

(** ** A concrete boolean domain

    Abstract booleans as sets of booleans, with intersection as [meet]; used
    to run the definitions on concrete inputs. *)
Module Sample.

Definition bools : Domain (gset bool) :=
  {| dom_addr := 0; meet := λ a b, a ∩ b;
     is_empty := λ a, bool_decide (a = ∅) |}.

Definition x : Expr := Identifier "x" 0 (Some 1).
Definition lit_true : Expr := Lit (LStr "True") (Some 1).
Definition not_x : Expr := UnExpr "!" x (Some 1).
Definition x_eq_true : Expr := BinExpr x "==" lit_true (Some 1).

Definition build (v : LitVal) : gset bool :=
  match v with
  | LStr "True" => {[ true ]}
  | LStr "False" => {[ false ]}
  | _ => ∅
  end.

Definition neg (a : gset bool) : gset bool := set_map negb a.

Definition inv_neg (expected a : gset bool) : option (gset bool) :=
  let r := a ∩ neg expected in
  if bool_decide (r = ∅) then None else Some r.

Definition eq_def (a b : gset bool) : gset bool :=
  (if bool_decide (a ∩ b = ∅) then ∅ else {[ true ]})
  ∪ (if bool_decide (a = b ∧ size a = 1) then ∅ else {[ false ]}).

Definition inv_eq (expected a b : gset bool)
    : option (gset bool * gset bool) :=
  if bool_decide (true ∈ expected) then
    (if bool_decide (a ∩ b = ∅) then None else Some (a ∩ b, a ∩ b))
  else Some (a, b).

Definition model (e : Expr) : option (Bunch (gset bool)) :=
  match e with
  | Identifier _ _ _ =>
      Some {| domain := Some bools; definition := None;
              inverse := None; builder := None |}
  | Lit _ _ =>
      Some {| domain := Some bools; definition := None;
              inverse := None; builder := Some build |}
  | UnExpr _ _ _ =>
      Some {| domain := Some bools; definition := Some (UnDef neg);
              inverse := Some (UnInv inv_neg); builder := None |}
  | BinExpr _ _ _ _ =>
      Some {| domain := Some bools; definition := Some (BinDef eq_def);
              inverse := Some (BinInv inv_eq); builder := None |}
  end.

Definition env_x (v : gset bool) : gmap (string * nat) (gset bool) :=
  {[ ("x", 0) := v ]}.

End Sample.

(** ** The checkers: extraction of findings

    An abstract boolean is a set of markers; [FALSE] is the marker the
    checkers look for ([False] in [null_dereference.py] and
    [invalid_discriminant.py], [lits.FALSE] in [check_variants.py]).  The
    helpers [collect_assumes_with_purpose] and [eval_expr_at] of
    [lalcheck.checkers.support.utils], and the analysis object with its
    [cfg.ancestors] and [eval_at], are not part of the sources: they are
    taken as parameters. *)
Module Checkers.
Section checkers.
Context {L : Type} `{Countable L} (FALSE : L).
Context {Analysis N T : Type}.

(** The payload of an [ExistCheck] purpose. *)
Record ExistCheckP := {
  accessed_expr : Expr;
  field_name : string;
  discr_name : string;
}.

Context (collect_deref_checks : Analysis → list (N * Expr * Expr)).
Context (collect_exist_checks : Analysis → list (N * Expr * ExistCheckP)).
Context (eval_expr_at : Analysis → N → Expr → list (T * gset L)).

(** What is said of a value set that holds [FALSE] when a finding is marked
    [precise] or not. *)
Definition classifies (value : gset L) (precise : bool) : Prop :=
  FALSE ∈ value
  ∧ (precise = true ↔ value = {[ FALSE ]})
  ∧ (precise = true ↔ size value = 1)
  ∧ (precise = false ↔ 1 < size value).

Record Results (D : Type) := {
  analysis_results : Analysis;
  diagnostics : list D;
}.
Arguments analysis_results {D} _.
Arguments diagnostics {D} _.

(** [null_dereference.find_null_derefs]; the third component of a check is
    the [expr] attribute of its [DerefCheck] purpose. *)
Definition find_null_derefs (analysis : Analysis)
    : Results (T * Expr * bool) :=
  let deref_checks := collect_deref_checks analysis in
  let derefed_values :=
    '(node, check_expr, purpose_expr) ← deref_checks;
    '(trace, value) ← eval_expr_at analysis node check_expr;
    [(trace, purpose_expr, value)] in
  let null_derefs :=
    (λ '(trace, purpose_expr, value),
       (trace, purpose_expr, bool_decide (size (value : gset L) = 1)))
    <$> filter (λ '(_, _, value), FALSE ∈ (value : gset L)) derefed_values in
  {| analysis_results := analysis; diagnostics := null_derefs |}.

(** [invalid_discriminant.find_invalid_accesses]. *)
Definition find_invalid_accesses (analysis : Analysis)
    : Results (T * ExistCheckP * bool) :=
  let exist_checks := collect_exist_checks analysis in
  let exist_check_values :=
    '(node, check_expr, purpose) ← exist_checks;
    '(trace, value) ← eval_expr_at analysis node check_expr;
    [(trace, purpose, value)] in
  let infeasibles :=
    (λ '(trace, purpose, value),
       (trace, purpose, bool_decide (size (value : gset L) = 1)))
    <$> filter (λ '(_, _, value), FALSE ∈ (value : gset L))
          exist_check_values in
  {| analysis_results := analysis; diagnostics := infeasibles |}.

(** [checkers/check_variants.py]: the older, self-contained checker.  It
    walks the nodes of the graph itself. *)
Context `{Countable N}.
Context (cfg_nodes : Analysis → list N).
Context (node_data : N → option (option Stmt)).
Context (ancestors : Analysis → N → list N).
Context (eval_at : Analysis → N → Expr → list (list N * gset L)).

Definition is_exist_check (p : option Purpose) : option ExistCheckP :=
  match p with
  | Some (ExistCheck a f d) =>
      Some {| accessed_expr := a; field_name := f; discr_name := d |}
  | _ => None
  end.

Definition check_variants (analysis : Analysis)
    : Results (gset N * ExistCheckP * bool) :=
  let nodes_with_ast :=
    node ← cfg_nodes analysis;
    match node_data node with
    | Some ast_node => [(node, ast_node)]
    | None => []
    end in
  let exist_checks :=
    '(node, ast_node) ← nodes_with_ast;
    match ast_node with
    | Some (AssumeStmt expr purpose) =>
        match is_exist_check purpose with
        | Some p => [(node, expr, p)]
        | None => []
        end
    | _ => []
    end in
  let exist_check_values :=
    '(node, expr, purpose) ← exist_checks;
    anc ← ancestors analysis node;
    '(trace, value) ← eval_at analysis anc expr;
    [((list_to_set trace : gset N) ∪ {[ node ]}, purpose, value)] in
  let infeasibles :=
    (λ '(trace, purpose, value),
       (trace, purpose, bool_decide (size (value : gset L) = 1)))
    <$> filter (λ '(_, _, value), FALSE ∈ (value : gset L))
          exist_check_values in
  {| analysis_results := analysis; diagnostics := infeasibles |}.

End checkers.
Arguments analysis_results {Analysis D} _.
Arguments diagnostics {Analysis D} _.
End Checkers.

(** ** Models ([tools.py], class [Models]) *)
Module Models.

(** Python dictionaries keyed by nodes.  The node classes are not part of
    the sources: nodes are compared as values here, so two occurrences of
    the same expression share an entry, where objects compared by identity
    would have one each.  Python 2 walks the keys of a dictionary and the
    elements of a set in hash order; here they are walked in insertion
    order, which fixes which of several providers, or of several failing
    nodes, comes first. *)
Section dict.
Context {K A : Type} `{EqDecision K}.

Fixpoint dict_get (d : list (K * A)) (k : K) : option A :=
  match d with
  | [] => None
  | (k', a) :: d' => if decide (k' = k) then Some a else dict_get d' k
  end.

Fixpoint dict_set (d : list (K * A)) (k : K) (a : A) : list (K * A) :=
  match d with
  | [] => [(k, a)]
  | (k', a') :: d' =>
      if decide (k' = k) then (k, a) :: d' else (k', a') :: dict_set d' k a
  end.

End dict.

(** Modelled from the spec: [visitors.findall] is not part of the sources;
    the spec has the model cover "every node in the given programs that
    carries a type hint".  The nodes are listed statement by statement, a
    node before its operands. *)
Fixpoint expr_nodes (e : Expr) : list Expr :=
  e :: match e with
       | UnExpr _ x _ => expr_nodes x
       | BinExpr l _ r _ => expr_nodes l ++ expr_nodes r
       | _ => []
       end.

Fixpoint stmt_nodes (s : Stmt) : list Expr :=
  match s with
  | AssignStmt id e => expr_nodes id ++ expr_nodes e
  | ReadStmt id | UseStmt id => expr_nodes id
  | AssumeStmt e _ => expr_nodes e
  | SplitStmt a b => flat_map stmt_nodes a ++ flat_map stmt_nodes b
  | LoopStmt b => flat_map stmt_nodes b
  end.

Definition _has_type_hint (node : Expr) : bool :=
  bool_decide (is_Some (type_hint node)).

Definition findall (prog : Program) (pred : Expr → bool) : list Expr :=
  List.filter pred (flat_map stmt_nodes (stmts prog)).

Section models.
Context {V Ty : Type} `{Countable Ty}.

(** A provider of definitions is an object ([prov_id] is its identity) that
    maps an operator name and a signature to a definition, or to nothing. *)
Record Provider (D : Type) := {
  prov_id : nat;
  provide : string → list (Domain V) → option D;
}.
Arguments prov_id {D} _.
Arguments provide {D} _ _ _.

(** An interpretation: the tuple [(domain, defs, inv_defs, builder)]. *)
Record Interp := {
  i_domain : Domain V;
  i_defs : Provider (Definition_ V);
  i_inv_defs : Provider (Inverse V);
  i_builder : LitVal → V;
}.

(** The typer and the type interpreter build objects, so two calls with the
    same argument need not return the same object: their result depends on
    the number of calls made before. *)
Context (typer_from_hint : nat → Hint → result Ty).
Context (interpreter_from_type : nat → Ty → result Interp).

(** How a signature (a tuple of domains) is printed. *)
Context (show_signature : list (Domain V) → string).

(** The two [memoize] caches, and the number of calls made so far. *)
Record State := {
  hint_cache : gmap Hint Ty;
  interp_cache : gmap Ty Interp;
  calls : nat;
}.

Definition _hint_to_type (hint : Hint) (s : State) : result Ty * State :=
  match hint_cache s !! hint with
  | Some tpe => (Ok tpe, s)
  | None =>
      match typer_from_hint (calls s) hint with
      | Raise e =>
          (Raise e, {| hint_cache := hint_cache s;
                       interp_cache := interp_cache s;
                       calls := S (calls s) |})
      | Ok tpe =>
          (Ok tpe, {| hint_cache := <[hint := tpe]> (hint_cache s);
                      interp_cache := interp_cache s;
                      calls := S (calls s) |})
      end
  end.

Definition _type_to_interp (tpe : Ty) (s : State) : result Interp * State :=
  match interp_cache s !! tpe with
  | Some interp => (Ok interp, s)
  | None =>
      match interpreter_from_type (calls s) tpe with
      | Raise e =>
          (Raise e, {| hint_cache := hint_cache s;
                       interp_cache := interp_cache s;
                       calls := S (calls s) |})
      | Ok interp =>
          (Ok interp, {| hint_cache := hint_cache s;
                         interp_cache := <[tpe := interp]> (interp_cache s);
                         calls := S (calls s) |})
      end
  end.

Definition _typeable_to_interp (node : Expr) (s : State)
    : result Interp * State :=
  match getattr (type_hint node) with
  | Raise e => (Raise e, s)
  | Ok hint =>
      match _hint_to_type hint s with
      | (Raise e, s') => (Raise e, s')
      | (Ok tpe, s') => _type_to_interp tpe s'
      end
  end.

(** The local dictionaries and sets of [of]. *)
Record Tables := {
  node_domains : list (Expr * Domain V);
  def_providers : list (Provider (Definition_ V));
  inv_def_providers : list (Provider (Inverse V));
  builders : gmap nat (LitVal → V);
}.

Definition no_provider (name : string) (signature : list (Domain V)) : exn :=
  LookupError ("No provider for '" +:+ name +:+ "' "
               +:+ show_signature signature).

Fixpoint _aggregate_provider {D} (providers : list (Provider D))
    (name : string) (signature : list (Domain V)) : result D :=
  match providers with
  | [] => Raise (no_provider name signature)
  | provider :: rest =>
      match provide provider name signature with
      | Some definition => Ok definition
      | None => _aggregate_provider rest name signature
      end
  end.

Definition visit_unexpr (unexpr : Expr) (sym : string) (operand : Expr)
    (t : Tables) : result (Bunch V) :=
  dom ←' getitem (dict_get (node_domains t)) unexpr;
  expr_dom ←' getitem (dict_get (node_domains t)) operand;
  let tpe := [expr_dom; dom] in
  d ←' _aggregate_provider (def_providers t) sym tpe;
  i ←' _aggregate_provider (inv_def_providers t) sym tpe;
  Ok {| domain := Some dom; definition := Some d;
        inverse := Some i; builder := None |}.

Definition visit_binexpr (binexpr : Expr) (lhs : Expr) (sym : string)
    (rhs : Expr) (t : Tables) : result (Bunch V) :=
  dom ←' getitem (dict_get (node_domains t)) binexpr;
  lhs_dom ←' getitem (dict_get (node_domains t)) lhs;
  rhs_dom ←' getitem (dict_get (node_domains t)) rhs;
  let tpe := [lhs_dom; rhs_dom; dom] in
  d ←' _aggregate_provider (def_providers t) sym tpe;
  i ←' _aggregate_provider (inv_def_providers t) sym tpe;
  Ok {| domain := Some dom; definition := Some d;
        inverse := Some i; builder := None |}.

Definition visit_ident (ident : Expr) (t : Tables) : result (Bunch V) :=
  dom ←' getitem (dict_get (node_domains t)) ident;
  Ok {| domain := Some dom; definition := None;
        inverse := None; builder := None |}.

Definition visit_lit (lit : Expr) (t : Tables) : result (Bunch V) :=
  dom ←' getitem (dict_get (node_domains t)) lit;
  b ←' getitem (builders t !!.) (dom_addr dom);
  Ok {| domain := Some dom; definition := None;
        inverse := None; builder := Some b |}.

Definition visit (node : Expr) (t : Tables) : result (Bunch V) :=
  match node with
  | UnExpr sym operand _ => visit_unexpr node sym operand t
  | BinExpr lhs sym rhs _ => visit_binexpr node lhs sym rhs t
  | Identifier _ _ _ => visit_ident node t
  | Lit _ _ => visit_lit node t
  end.

(** [set.add]: a provider already in the set is not added again. *)
Definition set_add {D} (p : Provider D) (ps : list (Provider D))
    : list (Provider D) :=
  if bool_decide (prov_id p ∈ prov_id <$> ps) then ps else ps ++ [p].

Definition empty_tables : Tables :=
  {| node_domains := []; def_providers := [];
     inv_def_providers := []; builders := ∅ |}.

(** The body of the first loop of [of], for one node. *)
Definition register (node : Expr) (t : Tables) (s : State)
    : result Tables * State :=
  match _typeable_to_interp node s with
  | (Raise e, s') => (Raise e, s')
  | (Ok interp, s') =>
      (Ok {| node_domains := dict_set (node_domains t) node (i_domain interp);
             def_providers := set_add (i_defs interp) (def_providers t);
             inv_def_providers :=
               set_add (i_inv_defs interp) (inv_def_providers t);
             builders := <[dom_addr (i_domain interp) := i_builder interp]>
                           (builders t) |}, s')
  end.

Fixpoint register_all (typeable : list Expr) (t : Tables) (s : State)
    : result Tables * State :=
  match typeable with
  | [] => (Ok t, s)
  | node :: rest =>
      match register node t s with
      | (Raise e, s') => (Raise e, s')
      | (Ok t', s') => register_all rest t' s'
      end
  end.

Fixpoint register_programs (programs : list Program) (t : Tables) (s : State)
    : result Tables * State :=
  match programs with
  | [] => (Ok t, s)
  | prog :: rest =>
      match register_all (findall prog _has_type_hint) t s with
      | (Raise e, s') => (Raise e, s')
      | (Ok t', s') => register_programs rest t' s'
      end
  end.

(** The second loop of [of]; [of] itself is named [of_] here. *)
Fixpoint build_model (nodes : list Expr) (t : Tables)
    (model : list (Expr * Bunch V)) : result (list (Expr * Bunch V)) :=
  match nodes with
  | [] => Ok model
  | node :: rest =>
      match visit node t with
      | Raise e => Raise e
      | Ok b => build_model rest t (dict_set model node b)
      end
  end.

Definition of_ (programs : list Program) (s : State)
    : result (list (Expr * Bunch V)) * State :=
  match register_programs programs empty_tables s with
  | (Raise e, s') => (Raise e, s')
  | (Ok t, s') => (build_model (node_domains t).*1 t [], s')
  end.


(** A later state of the caches: what was cached stays cached. *)
Definition later (s s' : State) : Prop :=
  hint_cache s ⊆ hint_cache s'
  ∧ interp_cache s ⊆ interp_cache s'.

(** A node is [resolved] to a domain in a state when its hint is cached, the
    type of the hint is cached, and the domain is that of the cached
    interpretation. *)
Definition resolved (s : State) (node : Expr) (d : Domain V) : Prop :=
  ∃ hint tpe interp,
    type_hint node = Some hint
    ∧ hint_cache s !! hint = Some tpe
    ∧ interp_cache s !! tpe = Some interp
    ∧ i_domain interp = d.

(** The invariant of the first loop of [of]. *)
Definition tables_resolved (s : State) (t : Tables) : Prop :=
  ∀ node d, dict_get (node_domains t) node = Some d →
            resolved s node d.

(** What an operator node's entry holds when its visit returns. *)
Definition provided (t : Tables) (sym : string)
    (b : Bunch V) : Prop :=
  ∃ signature d i p q,
    definition b = Some d ∧ inverse b = Some i
    ∧ p ∈ def_providers t
    ∧ provide p sym signature = Some d
    ∧ q ∈ inv_def_providers t
    ∧ provide q sym signature = Some i.

(** When a definition or an inverse is asked for and no provider has it. *)
Definition unprovided (t : Tables) (sym : string)
    (signature : list (Domain V)) : Prop :=
  (∀ p, p ∈ def_providers t →
        provide p sym signature = None)
  ∨ (∀ q, q ∈ inv_def_providers t →
          provide q sym signature = None).

End models.
Arguments Provider : clear implicits.
Arguments prov_id {V D} _.
Arguments provide {V D} _ _ _.
Arguments Interp : clear implicits.
Arguments Tables : clear implicits.
End Models.

(** ** The control-flow graph builder ([tools.py], class [CFGBuilder]) *)
Module CFGBuilder.

(** [Digraph.Node] with the data the builder attaches, [Digraph.Edge] and
    [Digraph]. *)
Record Node := {
  name : string;
  is_widening_point : bool;
  node : option Stmt;
}.

Record Edge := { frm : Node; to : Node }.

Record Digraph := { nodes : list Node; edges : list Edge }.

(** Modelled from the spec: [lalcheck.utils.KeyCounter] is not part of the
    sources; the spec only asks for "a freshly generated name".  It is
    modelled as one counter per key, starting at 0: [get_incr] returns the
    counter of the key and increments it. *)
Definition get_incr (key : string) (kc : gmap string nat)
    : nat * gmap string nat :=
  let v := default 0 (kc !! key) in (v, <[key := S v]> kc).

(** The attributes of the builder object. *)
Record Builder := {
  self_nodes : list Node;
  self_edges : list Edge;
  key_counter : gmap string nat;
}.

Definition fresh (name : string) (b : Builder) : string * Builder :=
  let '(n, kc) := get_incr name (key_counter b) in
  (name +:+ pretty n,
   {| self_nodes := self_nodes b; self_edges := self_edges b;
      key_counter := kc |}).

Definition build_node (name : string) (is_widening_point : bool)
    (orig_node : option Stmt) (b : Builder) : Node * Builder :=
  let '(fresh_name, b') := fresh name b in
  ({| name := fresh_name; is_widening_point := is_widening_point;
      node := orig_node |}, b').

Definition register_and_link (froms : list Node) (new_node : Node)
    (b : Builder) : Builder :=
  {| self_nodes := self_nodes b ++ [new_node];
     self_edges := self_edges b
                   ++ ((λ f, {| frm := f; to := new_node |}) <$> froms);
     key_counter := key_counter b |}.

(** [visit_assign], [visit_read], [visit_use] and [visit_assume] differ only
    in the name they ask for. *)
Definition visit_atom (name : string) (stmt : Stmt) (start : Node)
    (b : Builder) : Node * Builder :=
  let '(n, b1) := build_node name false (Some stmt) b in
  (n, register_and_link [start] n b1).

Fixpoint visit (stmt : Stmt) (start : Node) (b : Builder) {struct stmt}
    : Node * Builder :=
  let visit_stmts :=
    fix visit_stmts (stmts : list Stmt) (cur : Node) (b : Builder)
        {struct stmts} : Node * Builder :=
      match stmts with
      | [] => (cur, b)
      | stmt :: rest =>
          let '(cur', b') := visit stmt cur b in visit_stmts rest cur' b'
      end in
  match stmt with
  | SplitStmt fst_stmts snd_stmts =>
      let '(end_fst, b1) := visit_stmts fst_stmts start b in
      let '(end_snd, b2) := visit_stmts snd_stmts start b1 in
      let '(join, b3) := build_node "split_join" false None b2 in
      (join, register_and_link [end_fst; end_snd] join b3)
  | LoopStmt stmts =>
      let '(loop_start, b1) := build_node "loop_start" true None b in
      let '(end_, b2) := visit_stmts stmts loop_start b1 in
      let '(join, b3) := build_node "loop_join" false None b2 in
      (join,
       register_and_link [loop_start] join
         (register_and_link [start; end_] loop_start b3))
  | AssignStmt _ _ => visit_atom "assign" stmt start b
  | ReadStmt _ => visit_atom "read" stmt start b
  | UseStmt _ => visit_atom "use" stmt start b
  | AssumeStmt _ _ => visit_atom "assume" stmt start b
  end.

Fixpoint visit_stmts (stmts : list Stmt) (cur : Node) (b : Builder)
    : Node * Builder :=
  match stmts with
  | [] => (cur, b)
  | stmt :: rest =>
      let '(cur', b') := visit stmt cur b in visit_stmts rest cur' b'
  end.

(** [visit_program] resets [nodes] and [edges]; the key counter is the one
    the builder object already has. *)
Definition start_node (kc : gmap string nat) : Node * Builder :=
  build_node "start" false None
    {| self_nodes := []; self_edges := []; key_counter := kc |}.

Definition visit_program (prgm : Program) (kc : gmap string nat) : Digraph :=
  let '(start, b) := start_node kc in
  let '(_, b') := visit_stmts (stmts prgm) start b in
  {| nodes := self_nodes b' ++ [start]; edges := self_edges b' |}.

(** The calls the builder makes: [calls stmts cur b stmt start b0] when the
    walk of [stmts] from node [cur] in state [b] calls [stmt.visit(self,
    start)] in state [b0]. *)
Inductive calls : list Stmt → Node → Builder → Stmt → Node → Builder → Prop :=
| calls_here stmt rest cur b :
    calls (stmt :: rest) cur b stmt cur b
| calls_next stmt rest cur b s c0 b0 :
    calls rest (visit stmt cur b).1 (visit stmt cur b).2 s c0 b0 →
    calls (stmt :: rest) cur b s c0 b0
| calls_split_fst f g rest cur b s c0 b0 :
    calls f cur b s c0 b0 →
    calls (SplitStmt f g :: rest) cur b s c0 b0
| calls_split_snd f g rest cur b s c0 b0 :
    calls g cur (visit_stmts f cur b).2 s c0 b0 →
    calls (SplitStmt f g :: rest) cur b s c0 b0
| calls_loop body rest cur b s c0 b0 :
    calls body (build_node "loop_start" true None b).1
      (build_node "loop_start" true None b).2 s c0 b0 →
    calls (LoopStmt body :: rest) cur b s c0 b0.

(** The calls made while building the graph of a program. *)
Definition program_calls (prgm : Program) (kc : gmap string nat)
    (stmt : Stmt) (start : Node) (b0 : Builder) : Prop :=
  calls (stmts prgm) (start_node kc).1 (start_node kc).2 stmt start b0.

(** Edges and paths of a graph. *)
Definition edge (g : Digraph) (a b : Node) : Prop :=
  {| frm := a; to := b |} ∈ edges g.

Definition reachable (g : Digraph) : Node → Node → Prop := rtc (edge g).

Definition has_incoming (g : Digraph) (n : Node) : Prop :=
  ∃ a, edge g a n.

(** The nodes a loop statement is lowered to, when it is visited from
    [start] in state [b0]. *)
Definition loop_entry (b0 : Builder) : Node :=
  (build_node "loop_start" true None b0).1.

Definition loop_end (body : list Stmt) (b0 : Builder) : Node :=
  (visit_stmts body (loop_entry b0)
     (build_node "loop_start" true None b0).2).1.

Definition loop_join (body : list Stmt) (start : Node) (b0 : Builder)
    : Node :=
  (visit (LoopStmt body) start b0).1.

(** The nodes a split statement is lowered to: the first node and the last
    node of each branch, and the join node. *)
Definition fst_head (f : list Stmt) (start : Node) (b0 : Builder) : Node :=
  match f with
  | [] => start
  | stmt :: _ => (visit stmt start b0).1
  end.

Definition fst_end (f : list Stmt) (start : Node) (b0 : Builder) : Node :=
  (visit_stmts f start b0).1.

Definition snd_head (f g : list Stmt) (start : Node) (b0 : Builder)
    : Node :=
  fst_head g start (visit_stmts f start b0).2.

Definition snd_end (f g : list Stmt) (start : Node) (b0 : Builder) : Node :=
  (visit_stmts g start (visit_stmts f start b0).2).1.

Definition split_join (f g : list Stmt) (start : Node) (b0 : Builder)
    : Node :=
  (visit (SplitStmt f g) start b0).1.

(** *** Invariants of the builder *)

Definition edge_in (es : list Edge) (a b : Node) : Prop :=
  {| frm := a; to := b |} ∈ es.

(** Only the node that [visit_program] builds first is named [start...]. *)
Definition is_start_name (s : string) : bool := String.prefix "st" s.

(** What a visit from [cur] in state [b], ending at [n] in state [b'], has
    added to the builder: the nodes [ns] and the edges [es]. *)
Record extends (cur : Node) (b : Builder) (n : Node) (b' : Builder)
    (ns : list Node) (es : list Edge) : Prop := {
  ext_nodes : self_nodes b' = self_nodes b ++ ns;
  ext_edges : self_edges b' = self_edges b ++ es;
  ext_end : rtc (edge_in es) cur n;
  ext_end_in : n = cur ∨ n ∈ ns;
  ext_reach : ∀ m, m ∈ ns → rtc (edge_in es) cur m;
  ext_incoming : ∀ m, m ∈ ns → ∃ a, edge_in es a m;
  ext_targets : ∀ e, e ∈ es → to e ∈ ns;
  ext_sources : ∀ e, e ∈ es → frm e = cur ∨ frm e ∈ ns;
  ext_not_start : ∀ m, m ∈ ns → is_start_name (name m) = false;
}.

(** A later state of the builder holds the nodes and edges of an earlier
    one. *)
Definition grows (b b' : Builder) : Prop :=
  self_nodes b ⊆ self_nodes b' ∧ self_edges b ⊆ self_edges b'.

(** The names the builder asks for, and the counter of a name. *)
Definition all_names : list string :=
  ["start"; "assign"; "read"; "use"; "assume"; "split_join"; "loop_start";
   "loop_join"].

Definition counter (b : Builder) (key : string) : nat :=
  default 0 (key_counter b !! key).

(** The nodes [ns] built between the states [b] and [b'] carry pairwise
    distinct names, numbered from the counters of [b] up to those of [b']. *)
Record fresh_names (b b' : Builder) (ns : list Node) : Prop := {
  fn_mono : ∀ key, counter b key ≤ counter b' key;
  fn_range : ∀ m, m ∈ ns →
    ∃ key i, key ∈ all_names ∧ name m = key +:+ pretty i
             ∧ counter b key ≤ i < counter b' key;
  fn_nodup : NoDup (name <$> ns);
}.

Definition names_ok (s : Stmt) : Prop :=
  ∀ cur b, ∃ ns,
    self_nodes (visit s cur b).2 = self_nodes b ++ ns
    ∧ fresh_names b (visit s cur b).2 ns.

(** The invariant of the visit of one statement. *)
Definition visit_ok (s : Stmt) : Prop :=
  ∀ cur b, ∃ ns es, extends cur b (visit s cur b).1 (visit s cur b).2 ns es.

(** In the nodes a visit leaves in the builder, the widening points are
    nodes that were there before or entries of loops the visit went
    through. *)
Definition widening_from_loops (ss : list Stmt) (cur : Node) (b : Builder)
    (m : Node) : Prop :=
  m ∈ self_nodes b
  ∨ ∃ body c0 b0, calls ss cur b (LoopStmt body) c0 b0 ∧ m = loop_entry b0.

Definition widening_ok (s : Stmt) : Prop :=
  ∀ rest cur b m,
    m ∈ self_nodes (visit s cur b).2 → is_widening_point m = true →
    widening_from_loops (s :: rest) cur b m.

End CFGBuilder.

(** ** The libadalang frontend ([frontends/lal.py], [_gen_ir])

    The libadalang nodes, as far as the frontend inspects them.  A node's
    [p_type_val] and [p_ref_val] are what libadalang's name resolution
    returns for it; a hint stands for whatever was returned.  Declarations
    are identified by a number.

    Name resolution returns [None] for a name it cannot resolve
    ([RefNone]), and a field that holds an expression may hold [None], as
    the else-part of an if-expression without one does ([NoneExpr]); the
    frontend then calls [is_a] on [None], which raises [AttributeError].  An
    integer literal is kept as the text of its token, which the frontend
    hands to Python's [int]. *)
Module Lal.

(** Python's [int] on a string: the integer the string denotes, or [None]
    when [int] raises [ValueError], as it does on [16#FF#], [1_000] and
    [1E3]. *)
Class IntOfText := int_ : string → option Z.

Inductive Op :=
| OpLt | OpLte | OpEq | OpNeq | OpGte | OpGt | OpPlus | OpMinus | OpNot
| OpOther.

Inductive Ref :=
| RefObjectDecl (decl : nat)
| RefEnumLiteralDecl (enum_type : Hint)
| RefOther
| RefNone.

Inductive LExpr :=
| ParenExpr (f_expr : LExpr)
| BinOp (f_left : LExpr) (f_op : Op) (f_right : LExpr) (p_type_val : Hint)
| UnOp (f_op : Op) (f_expr : LExpr) (p_type_val : Hint)
| IfExpr (f_cond_expr f_then_expr f_else_expr : LExpr)
| LIdentifier (text : string) (p_ref_val : Ref)
| IntLiteral (text : string) (p_type_val : Hint)
| NullLiteral (p_type_val : Hint)
| ExplicitDeref (f_prefix : LExpr) (p_type_val : Hint)
| AttributeRef (f_prefix : LExpr) (f_attribute : string) (p_type_val : Hint)
| OtherExpr
| NoneExpr.

Inductive LStmt :=
| LAssignStmt (f_dest : string) (f_dest_ref : Ref) (f_expr : LExpr)
| IfStmt (f_cond_expr : LExpr) (f_then_stmts f_else_stmts : list LStmt)
| CaseStmt
| LLoopStmt (f_stmts : list LStmt)
| WhileLoopStmt (f_expr : LExpr) (f_stmts : list LStmt)
| ForLoopStmt
| ExceptionHandler
| OtherStmt.

Inductive LDecl :=
| TypeDecl
| EnumTypeDecl
| ObjectDecl (decl : nat) (f_ids : list string) (tdecl : Hint)
    (f_default_expr : option LExpr)
| OtherDecl.

Record SubpBody := { f_decls : list LDecl; f_stmts : list LStmt }.

(** [_lal_op_type_2_symbol], by the symbol of the operator it maps to. *)
Definition transform_operator (lal_op : Op) (arity : nat) : result string :=
  match lal_op, arity with
  | OpLt, 2 => Ok "<"
  | OpLte, 2 => Ok "<="
  | OpEq, 2 => Ok "=="
  | OpNeq, 2 => Ok "!="
  | OpGte, 2 => Ok ">="
  | OpGt, 2 => Ok ">"
  | OpPlus, 2 => Ok "+"
  | OpMinus, 2 => Ok "-"
  | OpMinus, 1 => Ok "-"
  | OpNot, 1 => Ok "!"
  | _, _ => Raise KeyError
  end.

Definition unimplemented {A} : result A := Raise NotImplementedError.

Section frontend.
Context {int_of_text : IntOfText}.

Section gen_ir.
(** [var_decls], as the declarations of the subprogram left it. *)
Context (var_decls : gmap (nat * string) Expr).

Fixpoint transform_expr (expr : LExpr) (ctx : Expr → result (list Stmt))
    : result (list Stmt) :=
  match expr with
  | ParenExpr f_expr => transform_expr f_expr ctx
  | BinOp f_left f_op f_right tv =>
      transform_expr f_left (λ lhs,
        transform_expr f_right (λ rhs,
          op ←' transform_operator f_op 2;
          ctx (BinExpr lhs op rhs (Some tv))))
  | UnOp f_op f_expr tv =>
      transform_expr f_expr (λ operand,
        op ←' transform_operator f_op 1;
        ctx (UnExpr op operand (Some tv)))
  | IfExpr f_cond f_then f_else =>
      transform_expr f_cond (λ cond,
        transform_expr f_then (λ thn,
          transform_expr f_else (λ els,
            hint ←' getattr (type_hint cond);
            let not_cond := UnExpr "!" cond (Some hint) in
            then_rest ←' ctx thn;
            else_rest ←' ctx els;
            Ok [SplitStmt (AssumeStmt cond None :: then_rest)
                  (AssumeStmt not_cond None :: else_rest)])))
  | LIdentifier text ref =>
      match ref with
      | RefObjectDecl decl =>
          v ←' getitem (var_decls !!.) (decl, text); ctx v
      | RefEnumLiteralDecl enum_type => ctx (Lit (LStr text) (Some enum_type))
      | RefOther => unimplemented
      | RefNone => Raise AttributeError
      end
  | IntLiteral text tv =>
      match int_ text with
      | Some value => ctx (Lit (LInt value) (Some tv))
      | None => Raise ValueError
      end
  | NullLiteral tv => ctx (Lit (LStr "null") (Some tv))
  | ExplicitDeref f_prefix tv =>
      transform_expr f_prefix (λ prefix, ctx (UnExpr "*" prefix (Some tv)))
  | AttributeRef f_prefix f_attribute tv =>
      if bool_decide (f_attribute = "Access") then
        transform_expr f_prefix (λ prefix, ctx (UnExpr "&" prefix (Some tv)))
      else unimplemented
  | OtherExpr => unimplemented
  | NoneExpr => Raise AttributeError
  end.

Definition dest_var (text : string) (ref : Ref) : result Expr :=
  match ref with
  | RefObjectDecl decl => getitem (var_decls !!.) (decl, text)
  | _ => Raise KeyError
  end.

Fixpoint transform_stmt (stmt : LStmt) : result (list Stmt) :=
  let transform_stmts :=
    fix transform_stmts (stmts : list LStmt) : result (list Stmt) :=
      match stmts with
      | [] => Ok []
      | stmt :: rest =>
          r ←' transform_stmt stmt;
          rs ←' transform_stmts rest;
          Ok (r ++ rs)
      end in
  match stmt with
  | LAssignStmt f_dest f_dest_ref f_expr =>
      transform_expr f_expr (λ expr,
        v ←' dest_var f_dest f_dest_ref;
        Ok [AssignStmt v expr])
  | IfStmt f_cond_expr f_then_stmts f_else_stmts =>
      transform_expr f_cond_expr (λ cond,
        hint ←' getattr (type_hint cond);
        let not_cond := UnExpr "!" cond (Some hint) in
        then_rest ←' transform_stmts f_then_stmts;
        else_rest ←' transform_stmts f_else_stmts;
        Ok [SplitStmt (AssumeStmt cond None :: then_rest)
              (AssumeStmt not_cond None :: else_rest)])
  | CaseStmt => Ok []
  | LLoopStmt f_stmts =>
      body ←' transform_stmts f_stmts;
      Ok [LoopStmt body]
  | WhileLoopStmt f_expr f_stmts =>
      transform_expr f_expr (λ cond,
        body ←' transform_stmts f_stmts;
        Ok [LoopStmt ([AssumeStmt cond None] ++ body)])
  | ForLoopStmt => Ok []
  | ExceptionHandler => Ok []
  | OtherStmt => unimplemented
  end.

Fixpoint transform_stmts (stmts : list LStmt) : result (list Stmt) :=
  match stmts with
  | [] => Ok []
  | stmt :: rest =>
      r ←' transform_stmt stmt;
      rs ←' transform_stmts rest;
      Ok (r ++ rs)
  end.

End gen_ir.

(** [transform_decl] fills [var_decls] before it builds statements. *)
Definition declare (decl : nat) (tdecl : Hint) (f_ids : list string)
    (var_decls : gmap (nat * string) Expr) : gmap (nat * string) Expr :=
  foldl (λ vd text, <[(decl, text) := Identifier text decl (Some tdecl)]> vd)
    var_decls f_ids.

Fixpoint lookup_all (var_decls : gmap (nat * string) Expr) (decl : nat)
    (f_ids : list string) : result (list Expr) :=
  match f_ids with
  | [] => Ok []
  | text :: rest =>
      v ←' getitem (var_decls !!.) (decl, text);
      vs ←' lookup_all var_decls decl rest;
      Ok (v :: vs)
  end.

Definition transform_decl (d : LDecl) (var_decls : gmap (nat * string) Expr)
    : result (list Stmt) * gmap (nat * string) Expr :=
  match d with
  | TypeDecl | EnumTypeDecl => (Ok [], var_decls)
  | ObjectDecl decl f_ids tdecl f_default_expr =>
      let var_decls' := declare decl tdecl f_ids var_decls in
      (match f_default_expr with
       | None =>
           vs ←' lookup_all var_decls' decl f_ids;
           Ok (ReadStmt <$> vs)
       | Some default =>
           transform_expr var_decls' default (λ def_val,
             vs ←' lookup_all var_decls' decl f_ids;
             Ok ((λ v, AssignStmt v def_val) <$> vs))
       end, var_decls')
  | OtherDecl => (unimplemented, var_decls)
  end.

Fixpoint transform_decls (decls : list LDecl)
    (var_decls : gmap (nat * string) Expr)
    : result (list Stmt) * gmap (nat * string) Expr :=
  match decls with
  | [] => (Ok [], var_decls)
  | d :: rest =>
      match transform_decl d var_decls with
      | (Raise e, vd) => (Raise e, vd)
      | (Ok r, vd) =>
          match transform_decls rest vd with
          | (Raise e, vd') => (Raise e, vd')
          | (Ok rs, vd') => (Ok (r ++ rs), vd')
          end
      end
  end.

Definition _gen_ir (subp : SubpBody) : result Program :=
  match transform_decls (f_decls subp) ∅ with
  | (Raise e, _) => Raise e
  | (Ok ds, var_decls) =>
      ss ←' transform_stmts var_decls (f_stmts subp);
      Ok {| stmts := ds ++ ss |}
  end.

(** A statement is [seeded] when every split statement in it has branches
    that start with the assumption of a condition and of its negation. *)
Inductive seeded : Stmt → Prop :=
| seeded_assign id e : seeded (AssignStmt id e)
| seeded_read id : seeded (ReadStmt id)
| seeded_use id : seeded (UseStmt id)
| seeded_assume e p : seeded (AssumeStmt e p)
| seeded_split cond hint thn els :
    type_hint cond = Some hint →
    Forall seeded thn → Forall seeded els →
    seeded (SplitStmt (AssumeStmt cond None :: thn)
              (AssumeStmt (UnExpr "!" cond (Some hint)) None :: els))
| seeded_loop body : Forall seeded body → seeded (LoopStmt body).

(** A continuation that only builds seeded statements. *)
Definition seeding (ctx : Expr → result (list Stmt)) : Prop :=
  ∀ x r, ctx x = Ok r → Forall seeded r.

Definition stmt_seeded (var_decls : gmap (nat * string) Expr) (s : LStmt)
    : Prop :=
  ∀ r, transform_stmt var_decls s = Ok r → Forall seeded r.

End frontend.

End Lal.

(** ** Concrete inputs for the models, the builder and the frontend *)
Module Examples.

(** A typer and an interpreter that build a new object at each call: the
    call number serves as the address of the object.  The only operator
    with a definition is the equality. *)
Definition typer_from_hint (n : nat) (hint : Hint) : result (nat * Hint) :=
  Ok (n, hint).

Definition defs : Models.Provider (gset bool) (Definition_ (gset bool)) :=
  {| Models.prov_id := 0;
     Models.provide := λ name _,
       if bool_decide (name = "==") then Some (BinDef Sample.eq_def)
       else None |}.

Definition inv_defs : Models.Provider (gset bool) (Inverse (gset bool)) :=
  {| Models.prov_id := 1;
     Models.provide := λ name _,
       if bool_decide (name = "==") then Some (BinInv Sample.inv_eq)
       else None |}.

Definition interpreter_from_type (n : nat) (tpe : nat * Hint)
    : result (Models.Interp (gset bool)) :=
  Ok {| Models.i_domain :=
          {| dom_addr := n; meet := meet Sample.bools;
             is_empty := is_empty Sample.bools |};
        Models.i_defs := defs;
        Models.i_inv_defs := inv_defs;
        Models.i_builder := Sample.build |}.

Definition show_signature (signature : list (Domain (gset bool))) : string :=
  "(" +:+ String.concat ", " ((λ d, "dom" +:+ pretty (dom_addr d))
                               <$> signature) +:+ ")".

Definition init : Models.State (V := gset bool) (Ty := nat * Hint) :=
  {| Models.hint_cache := ∅; Models.interp_cache := ∅; Models.calls := 0 |}.

Definition of_ :=
  Models.of_ typer_from_hint interpreter_from_type show_signature.

(** [assume x == True] and [assume !x]. *)
Definition prog_eq : Program :=
  {| stmts := [AssumeStmt Sample.x_eq_true None] |}.
Definition prog_not : Program :=
  {| stmts := [AssumeStmt Sample.not_x None] |}.

(** [loop read x end; if x then else end], as a program of the IR and as
    the subprogram it is generated from. *)
Definition prog_loop : Program :=
  {| stmts := [LoopStmt [ReadStmt Sample.x]] |}.

(** An [int] for the examples: it reads the decimal numerals and refuses
    every other text. *)
Definition digit (a : Ascii.ascii) : option Z :=
  let n := Ascii.nat_of_ascii a in
  if (48 <=? n)%nat && (n <=? 57)%nat then Some (Z.of_nat (n - 48)) else None.

Fixpoint decimal_from (acc : Z) (s : string) : option Z :=
  match s with
  | EmptyString => Some acc
  | String a rest =>
      match digit a with
      | Some d => decimal_from (10 * acc + d) rest
      | None => None
      end
  end.

#[export] Instance decimal : Lal.IntOfText :=
  λ s, match s with
       | EmptyString => None
       | _ => decimal_from 0 s
       end.

Definition subp_if : Lal.SubpBody :=
  {| Lal.f_decls := [Lal.ObjectDecl 0 ["x"] 1 None];
     Lal.f_stmts :=
       [Lal.IfStmt (Lal.LIdentifier "x" (Lal.RefObjectDecl 0)) [] []] |}.

Definition prog_if : Program :=
  {| stmts := [ReadStmt Sample.x;
               SplitStmt [AssumeStmt Sample.x None]
                 [AssumeStmt Sample.not_x None]] |}.

(** Node names and edges of a graph, for display. *)
Definition names (g : CFGBuilder.Digraph) : list string :=
  CFGBuilder.name <$> CFGBuilder.nodes g.

Definition links (g : CFGBuilder.Digraph) : list (string * string) :=
  (λ e, (CFGBuilder.name (CFGBuilder.frm e),
         CFGBuilder.name (CFGBuilder.to e))) <$> CFGBuilder.edges g.

(** A one-node analysis for the checkers: at node 0 the checked expression
    [x] has the value sets [{False}] on trace 7 and [{False, True}] on
    trace 8, and [{True}] on trace 9. *)
Definition deref_checks (_ : unit) : list (nat * Expr * Expr) :=
  [(0, Sample.x, Sample.x)].

Definition eval_expr_at (_ : unit) (node : nat) (e : Expr)
    : list (nat * gset bool) :=
  [(7, {[ false ]}); (8, {[ false; true ]}); (9, {[ true ]})].

End Examples.

(** ** Well-formed inputs of the evaluator and of the solver

    The docstrings of [ExprEvaluator] and [ExprSolver] ask that every node of
    the expression "has a meaning in the given model"; [modelled] spells this
    out, and [idents] lists the environment keys an expression reads. *)
Module Shape.
Section shape.
Context {V : Type} (model : Expr → option (Bunch V)).

Fixpoint idents (e : Expr) : list (string * nat) :=
  match e with
  | Identifier name decl _ => [(name, decl)]
  | Lit _ _ => []
  | UnExpr _ expr _ => idents expr
  | BinExpr lhs _ rhs _ => idents lhs ++ idents rhs
  end.

Fixpoint modelled (e : Expr) : Prop :=
  match e with
  | Identifier _ _ _ =>
      ∃ b dom, model e = Some b ∧ domain b = Some dom
  | Lit _ _ =>
      ∃ b dom build,
        model e = Some b ∧ domain b = Some dom ∧ builder b = Some build
  | UnExpr _ expr _ =>
      (∃ b f g, model e = Some b ∧ definition b = Some (UnDef f)
                ∧ inverse b = Some (UnInv g))
      ∧ modelled expr
  | BinExpr lhs _ rhs _ =>
      (∃ b f g, model e = Some b ∧ definition b = Some (BinDef f)
                ∧ inverse b = Some (BinInv g))
      ∧ modelled lhs ∧ modelled rhs
  end.

Definition bound (env : gmap (string * nat) V) (e : Expr) : Prop :=
  ∀ k, k ∈ idents e → is_Some (env !! k).

(** Every domain of the model narrows: a meet is below its first argument
    in the order [le]. *)
Definition meets_decrease (le : V → V → Prop) : Prop :=
  ∀ e b dom, model e = Some b → domain b = Some dom →
             ∀ a c, le (meet dom a c) a.

(** [env'] holds the same keys as [env], each with a value below the one it
    had. *)
Definition narrows (le : V → V → Prop) (env env' : gmap (string * nat) V)
    : Prop :=
  dom env' = dom env
  ∧ ∀ k v', env' !! k = Some v' → ∃ v, env !! k = Some v ∧ le v' v.

End shape.
End Shape.

(** ** Measures of a program, for the graph it is lowered to *)
Module CFGShape.
Import CFGBuilder.

(** The nodes and the edges a statement is lowered to. *)
Fixpoint count_nodes (s : Stmt) : nat :=
  match s with
  | SplitStmt f g =>
      sum_list_with count_nodes f + sum_list_with count_nodes g + 1
  | LoopStmt body => sum_list_with count_nodes body + 2
  | _ => 1
  end.

Fixpoint count_edges (s : Stmt) : nat :=
  match s with
  | SplitStmt f g =>
      sum_list_with count_edges f + sum_list_with count_edges g + 2
  | LoopStmt body => sum_list_with count_edges body + 3
  | _ => 1
  end.

(** The assign, read, use and assume statements of a statement, in program
    order. *)
Fixpoint atoms (s : Stmt) : list Stmt :=
  match s with
  | SplitStmt f g => flat_map atoms f ++ flat_map atoms g
  | LoopStmt body => flat_map atoms body
  | _ => [s]
  end.

(** What a visit has added between the states [b] and [b']: [nc] nodes,
    [ec] edges, and the statements [carried] by the added nodes, in the
    order the nodes were registered. *)
Definition adds (b b' : Builder) (nc ec : nat) (carried : list Stmt)
    : Prop :=
  ∃ ns es,
    self_nodes b' = self_nodes b ++ ns
    ∧ self_edges b' = self_edges b ++ es
    ∧ length ns = nc ∧ length es = ec
    ∧ omap node ns = carried.

Definition adds_ok (s : Stmt) : Prop :=
  ∀ cur b, adds b (visit s cur b).2 (count_nodes s) (count_edges s) (atoms s).

(** The key counter the builder is left with after a program. *)
Definition key_counter_after (prgm : Program) (kc : gmap string nat)
    : gmap string nat :=
  key_counter (visit_stmts (stmts prgm) (start_node kc).1 (start_node kc).2).2.

(** The node the walk of a program ends at. *)
Definition exit_node (prgm : Program) (kc : gmap string nat) : Node :=
  (visit_stmts (stmts prgm) (start_node kc).1 (start_node kc).2).1.

Definition has_outgoing (g : Digraph) (n : Node) : Prop :=
  ∃ c, edge g n c.

(** A node that was built before the state [b]. *)
Definition old (b : Builder) (m : Node) : Prop :=
  ∃ key i, key ∈ all_names ∧ name m = key +:+ pretty i ∧ i < counter b key.

(** How the nodes [ns] and the edges [es] that a visit from [cur] to [n] has
    added lead to [n]. *)
Record flows (cur n : Node) (ns : list Node) (es : list Edge) : Prop := {
  fl_sink : ∀ e, e ∈ es → frm e ≠ n;
  fl_out : ∀ m, m ∈ ns → m = n ∨ ∃ c, edge_in es m c;
  fl_cur : n = cur ∨ ∃ c, edge_in es cur c;
  fl_reach : ∀ m, m ∈ ns → rtc (edge_in es) m n;
}.

Definition flows_ok (s : Stmt) : Prop :=
  ∀ cur b ns es,
    old b cur →
    self_nodes (visit s cur b).2 = self_nodes b ++ ns →
    self_edges (visit s cur b).2 = self_edges b ++ es →
    flows cur (visit s cur b).1 ns es.

End CFGShape.

(** ** The nodes a model covers *)
Module ModelShape.

(** The nodes of the programs that carry a type hint. *)
Definition typed_nodes (programs : list Program) : list Expr :=
  prog ← programs; Models.findall prog Models._has_type_hint.

(** The operands of a node. *)
Definition operands (node : Expr) : list Expr :=
  match node with
  | UnExpr _ expr _ => [expr]
  | BinExpr lhs _ rhs _ => [lhs; rhs]
  | _ => []
  end.

(** The attributes an entry has, by the kind of its node. *)
Definition entry_shape {V} (node : Expr) (b : Bunch V) : Prop :=
  is_Some (domain b)
  ∧ match node with
    | Identifier _ _ _ =>
        definition b = None ∧ inverse b = None ∧ builder b = None
    | Lit _ _ =>
        definition b = None ∧ inverse b = None ∧ is_Some (builder b)
    | UnExpr _ _ _ | BinExpr _ _ _ _ =>
        is_Some (definition b) ∧ is_Some (inverse b) ∧ builder b = None
    end.

(** A result that is a value, or the exception of a definition called with
    the wrong number of arguments. *)
Definition value_or_TypeError {A} (r : result A) : Prop :=
  (∃ a, r = Ok a) ∨ r = Raise TypeError.

End ModelShape.

(** ** The statements the frontend builds *)
Module LalShape.

(** Every node of the expression carries a type hint. *)
Definition expr_ok (e : Expr) : Prop :=
  ∀ n, n ∈ Models.expr_nodes e → is_Some (type_hint n).

Definition is_identifier (e : Expr) : Prop :=
  match e with
  | Identifier _ _ _ => True
  | _ => False
  end.

(** The statements of the programs of the frontend: no use statement, no
    purpose, identifiers as targets, hints on every expression node. *)
Inductive frontend_stmt : Stmt → Prop :=
| fs_assign id e :
    is_identifier id → expr_ok id → expr_ok e →
    frontend_stmt (AssignStmt id e)
| fs_read id :
    is_identifier id → expr_ok id → frontend_stmt (ReadStmt id)
| fs_assume e : expr_ok e → frontend_stmt (AssumeStmt e None)
| fs_split f g :
    Forall frontend_stmt f → Forall frontend_stmt g →
    frontend_stmt (SplitStmt f g)
| fs_loop body : Forall frontend_stmt body → frontend_stmt (LoopStmt body).

(** [var_decls] only holds identifiers that carry a hint. *)
Definition vd_ok (var_decls : gmap (nat * string) Expr) : Prop :=
  ∀ k v, var_decls !! k = Some v → is_identifier v ∧ expr_ok v.

Definition stmt_typed (s : Stmt) : Prop :=
  frontend_stmt s → ∀ n, n ∈ Models.stmt_nodes s → is_Some (type_hint n).

(** The identifier an object declaration creates for a name. *)
Definition declared (decl : nat) (tdecl : Hint) (text : string) : Expr :=
  Identifier text decl (Some tdecl).

(** The expression nodes of an expression, of a statement, of a declaration
    and of a subprogram. *)
Fixpoint subexprs (e : Lal.LExpr) : list Lal.LExpr :=
  e :: match e with
       | Lal.ParenExpr e' => subexprs e'
       | Lal.BinOp l _ r _ => subexprs l ++ subexprs r
       | Lal.UnOp _ e' _ => subexprs e'
       | Lal.IfExpr c t e' => subexprs c ++ subexprs t ++ subexprs e'
       | Lal.ExplicitDeref p _ | Lal.AttributeRef p _ _ => subexprs p
       | _ => []
       end.

Fixpoint stmt_exprs (s : Lal.LStmt) : list Lal.LExpr :=
  match s with
  | Lal.LAssignStmt _ _ e => subexprs e
  | Lal.IfStmt c f g =>
      subexprs c ++ flat_map stmt_exprs f ++ flat_map stmt_exprs g
  | Lal.LLoopStmt body => flat_map stmt_exprs body
  | Lal.WhileLoopStmt c body => subexprs c ++ flat_map stmt_exprs body
  | _ => []
  end.

Definition decl_exprs (d : Lal.LDecl) : list Lal.LExpr :=
  match d with
  | Lal.ObjectDecl _ _ _ (Some default) => subexprs default
  | _ => []
  end.

Definition subp_exprs (subp : Lal.SubpBody) : list Lal.LExpr :=
  flat_map decl_exprs (Lal.f_decls subp)
  ++ flat_map stmt_exprs (Lal.f_stmts subp).

Section frontend.
Context {int_of_text : Lal.IntOfText}.

(** Among the expressions [es]: an integer literal the text of which [int]
    refuses; a name that was not resolved, or a missing expression. *)
Definition refused_literal (es : list Lal.LExpr) : Prop :=
  ∃ text tv, Lal.IntLiteral text tv ∈ es ∧ Lal.int_ text = None.

Definition unresolved (es : list Lal.LExpr) : Prop :=
  Lal.NoneExpr ∈ es ∨ ∃ text, Lal.LIdentifier text Lal.RefNone ∈ es.

(** The exceptions the frontend raises on the expressions [es]: [KeyError]
    for an undeclared variable or an operator outside the table,
    [NotImplementedError] for a construct it does not implement,
    [ValueError] for a literal that [int] refuses, and [AttributeError] for
    an unresolved name or a missing expression. *)
Definition expected_exn (es : list Lal.LExpr) (e : exn) : Prop :=
  e = KeyError ∨ e = NotImplementedError
  ∨ (e = ValueError ∧ refused_literal es)
  ∨ (e = AttributeError ∧ unresolved es).

Definition good (es : list Lal.LExpr) (r : result (list Stmt)) : Prop :=
  match r with
  | Ok ss => Forall frontend_stmt ss
  | Raise e => expected_exn es e
  end.

Definition ctx_good (es : list Lal.LExpr) (ctx : Expr → result (list Stmt))
    : Prop :=
  ∀ x, expr_ok x → good es (ctx x).

Definition stmt_good (var_decls : gmap (nat * string) Expr)
    (es : list Lal.LExpr) (s : Lal.LStmt) : Prop :=
  (∀ x, x ∈ stmt_exprs s → x ∈ es) →
  good es (Lal.transform_stmt var_decls s).

(** *** What the frontend accepts *)

Definition op_ok (op : Lal.Op) (arity : nat) : Prop :=
  ∃ sym, Lal.transform_operator op arity = Ok sym.

Section supported.
Context (var_decls : gmap (nat * string) Expr).

Fixpoint supported (e : Lal.LExpr) : Prop :=
  match e with
  | Lal.ParenExpr e => supported e
  | Lal.BinOp l op r _ => supported l ∧ supported r ∧ op_ok op 2
  | Lal.UnOp op e _ => supported e ∧ op_ok op 1
  | Lal.IfExpr c t e => supported c ∧ supported t ∧ supported e
  | Lal.LIdentifier text ref =>
      match ref with
      | Lal.RefObjectDecl decl => is_Some (var_decls !! (decl, text))
      | Lal.RefEnumLiteralDecl _ => True
      | Lal.RefOther | Lal.RefNone => False
      end
  | Lal.IntLiteral text _ => is_Some (Lal.int_ text)
  | Lal.NullLiteral _ => True
  | Lal.ExplicitDeref p _ => supported p
  | Lal.AttributeRef p attr _ => attr = "Access" ∧ supported p
  | Lal.OtherExpr | Lal.NoneExpr => False
  end.

Inductive supported_stmt : Lal.LStmt → Prop :=
| sup_assign dest decl e :
    supported e → is_Some (var_decls !! (decl, dest)) →
    supported_stmt (Lal.LAssignStmt dest (Lal.RefObjectDecl decl) e)
| sup_if c f g :
    supported c → Forall supported_stmt f → Forall supported_stmt g →
    supported_stmt (Lal.IfStmt c f g)
| sup_case : supported_stmt Lal.CaseStmt
| sup_loop body :
    Forall supported_stmt body → supported_stmt (Lal.LLoopStmt body)
| sup_while c body :
    supported c → Forall supported_stmt body →
    supported_stmt (Lal.WhileLoopStmt c body)
| sup_for : supported_stmt Lal.ForLoopStmt
| sup_handler : supported_stmt Lal.ExceptionHandler.

(** A continuation that returns on every typed expression. *)
Definition ctx_total (ctx : Expr → result (list Stmt)) : Prop :=
  ∀ x, expr_ok x → ∃ r, ctx x = Ok r.

Definition accepts_iff_supported (s : Lal.LStmt) : Prop :=
  (∃ r, Lal.transform_stmt var_decls s = Ok r) ↔ supported_stmt s.

End supported.

End frontend.

End LalShape.

(** * Properties *)

(** ** The expression solver *)

Section solver_facts.
Context {V : Type} (model : Expr → option (Bunch V)) (boolean_true : V).

Local Abbreviation visit := (ExprSolver.visit model).
Local Abbreviation eval := (ExprEvaluator.eval model).
Local Abbreviation solve := (ExprSolver.solve model boolean_true).

(** The evaluator only reads the environment, so the forward values of the
    operands are those of the dictionary as it stands when the visit starts. *)

Lemma alloc_fresh (d : gmap (string * nat) V) σ l σ' :
  ExprSolver.alloc d σ = (l, σ') →
  σ !! l = None ∧ σ' = <[l := d]> σ.
Proof.
  unfold ExprSolver.alloc. intros [= <- <-]. split; [|done].
  apply not_elem_of_dom, is_fresh.
Qed.

Lemma alloc_frame (d : gmap (string * nat) V) σ l σ' k :
  ExprSolver.alloc d σ = (l, σ') → is_Some (σ !! k) → σ' !! k = σ !! k.
Proof.
  intros [Hl ->]%alloc_fresh [d' Hk].
  rewrite lookup_insert_ne; [done|congruence].
Qed.

Lemma visit_at_frame e l expected σ r σ' k :
  ExprSolver.visit_at model e l expected σ = (r, σ') →
  k ≠ l → σ' !! k = σ !! k.
Proof.
  unfold ExprSolver.visit_at. destruct (σ !! l) as [d|] eqn:Hd.
  - destruct (visit e d expected) as [r' d']. intros [= <- <-] Hk.
    by rewrite lookup_insert_ne.
  - by intros [= <- <-].
Qed.

Lemma visit_at_dom e l expected σ r σ' k :
  ExprSolver.visit_at model e l expected σ = (r, σ') →
  is_Some (σ !! k) → is_Some (σ' !! k).
Proof.
  unfold ExprSolver.visit_at. destruct (σ !! l) as [d|] eqn:Hd.
  - destruct (visit e d expected) as [r' d']. intros [= <- <-] Hk.
    destruct (decide (l = k)) as [->|].
    + rewrite lookup_insert_eq. eauto.
    + by rewrite lookup_insert_ne.
  - by intros [= <- <-].
Qed.

(** C10.  [solve] works on a copy: whatever the expression, the model and the
    outcome (a narrowed dictionary, the empty dictionary of an infeasible
    assumption, or an exception), the dictionary the caller passed, and every
    other dictionary that existed before the call, holds the same bindings
    after the call; a dictionary that is returned is a new one. *)
Theorem solve_preserves_caller_env (e : Expr) (env : nat)
    (σ : gmap nat (gmap (string * nat) V)) :
  (solve e env σ).2 !! env = σ !! env
  ∧ (∀ k, is_Some (σ !! k) → (solve e env σ).2 !! k = σ !! k)
  ∧ (∀ r, (solve e env σ).1 = Ok r →
       σ !! r = None ∧ is_Some ((solve e env σ).2 !! r)).
Proof.
  assert (Hframe : ∀ k, is_Some (σ !! k) → (solve e env σ).2 !! k = σ !! k
     ) .
  { intros k Hk. unfold ExprSolver.solve, ExprSolver.copy.
    destruct (σ !! env) as [d|] eqn:Hd; [|done].
    destruct (ExprSolver.alloc d σ) as [l σ1] eqn:Ha.
    destruct (ExprSolver.visit_at model e l boolean_true σ1) as [r σ2] eqn:Hv.
    pose proof (alloc_fresh _ _ _ _ Ha) as [Hl _].
    assert (k ≠ l) by (intros ->; rewrite Hl in Hk; by destruct Hk).
    assert (σ2 !! k = σ !! k) as H2.
    { rewrite (visit_at_frame _ _ _ _ _ _ k Hv) by done.
      by apply (alloc_frame _ _ _ _ _ Ha). }
    destruct (ExprSolver.alloc ∅ σ2) as [l3 σ3] eqn:Ha3.
    destruct r as [[]|x]; simpl; [done| |done].
    rewrite (alloc_frame _ _ _ _ k Ha3); [done|]. by rewrite H2. }
  split; [|split; [done|]].
  - destruct (σ !! env) as [d|] eqn:Hd.
    + rewrite Hframe; [done|]. rewrite Hd. eauto.
    + unfold ExprSolver.solve, ExprSolver.copy. by rewrite Hd.
  - intros r. unfold ExprSolver.solve, ExprSolver.copy.
    destruct (σ !! env) as [d|] eqn:Hd; [|done].
    destruct (ExprSolver.alloc d σ) as [l σ1] eqn:Ha.
    destruct (ExprSolver.visit_at model e l boolean_true σ1) as [r' σ2] eqn:Hv.
    pose proof (alloc_fresh _ _ _ _ Ha) as [Hl ->].
    assert (is_Some (σ2 !! l)) as Hl2.
    { apply (visit_at_dom _ _ _ _ _ _ l Hv). rewrite lookup_insert_eq. eauto. }
    destruct (ExprSolver.alloc ∅ σ2) as [l3 σ3] eqn:Ha3.
    destruct r' as [[]|x]; simpl; [by intros [= <-]| |done].
    intros [= <-]. pose proof (alloc_fresh _ _ _ _ Ha3) as [Hl3 ->].
    rewrite lookup_insert_eq. split; [|eauto].
    assert (l3 ≠ l) by (intros ->; rewrite Hl3 in Hl2; by destruct Hl2).
    rewrite <- Hl3, (visit_at_frame _ _ _ _ _ _ l3 Hv) by done.
    by rewrite lookup_insert_ne.
Qed.


(** A visit of a literal, and a visit that raises before recursing, leave the
    dictionary as it was. *)
Lemma visit_lit_env (e : Expr) (env : gmap (string * nat) V) (expected : V) :
  (ExprSolver.visit_lit model e env expected).2 = env.
Proof.
  unfold ExprSolver.visit_lit.
  destruct (b ←' getitem model e; getattr (domain b)); [|done].
  by destruct (eval e env).
Qed.

(** C1 (as amended).  When the backward pass reaches an identifier that the
    model and the environment know, the identifier is rebound to the meet of
    its current value with the expected value and the visit reports feasible,
    whether or not that meet is empty; [solve] on such an identifier returns
    the narrowed environment. *)
Theorem visit_ident_narrows (name : string) (decl : nat) (h : option Hint)
    (env : gmap (string * nat) V) (expected : V) (b : Bunch V)
    (dom : Domain V) (cur : V) :
  model (Identifier name decl h) = Some b →
  domain b = Some dom →
  env !! (name, decl) = Some cur →
  visit (Identifier name decl h) env expected
    = (Ok true, <[(name, decl) := meet dom cur expected]> env)
  ∧ ExprSolver.solve_env model boolean_true (Identifier name decl h) env
    = Ok (<[(name, decl) := meet dom cur boolean_true]> env).
Proof.
  intros Hm Hd He.
  assert (Hv : ∀ x, visit (Identifier name decl h) env x
    = (Ok true, <[(name, decl) := meet dom cur x]> env)).
  { intros x. simpl. unfold ExprSolver.visit_ident, getitem.
    rewrite Hm. simpl. rewrite Hd. simpl. by rewrite He. }
  split; [apply Hv|].
  unfold ExprSolver.solve_env.
  destruct (ExprSolver.alloc env ∅) as [l σ] eqn:Ha.
  apply alloc_fresh in Ha as [_ ->].
  unfold ExprSolver.solve, ExprSolver.copy. rewrite lookup_insert_eq.
  destruct (ExprSolver.alloc env (<[l:=env]> ∅)) as [l' σ'] eqn:Ha'.
  apply alloc_fresh in Ha' as [_ ->].
  unfold ExprSolver.visit_at. rewrite lookup_insert_eq, Hv.
  unfold getitem. by rewrite lookup_insert_eq.
Qed.

(** C9.  A visit of a literal never changes the dictionary; when the model
    gives the literal a domain and a builder, the visit reports feasible
    exactly when the meet of the expected value with the literal's built
    value is not empty. *)
Theorem visit_lit_feasible_iff_meet_nonempty (val : LitVal)
    (h : option Hint) (env : gmap (string * nat) V) (expected : V) :
  (visit (Lit val h) env expected).2 = env
  ∧ ∀ b dom build,
      model (Lit val h) = Some b →
      domain b = Some dom →
      builder b = Some build →
      (visit (Lit val h) env expected).1
        = Ok (negb (is_empty dom (meet dom expected (build val))))
      ∧ ((visit (Lit val h) env expected).1 = Ok true
         ↔ is_empty dom (meet dom expected (build val)) = false).
Proof.
  split; [apply visit_lit_env|].
  intros b dom build Hm Hd Hb.
  assert ((visit (Lit val h) env expected).1
          = Ok (negb (is_empty dom (meet dom expected (build val))))) as ->.
  { simpl. unfold ExprSolver.visit_lit, getitem. simpl. unfold getitem.
    rewrite Hm. simpl. rewrite Hd, Hb. done. }
  split; [done|].
  destruct (is_empty dom _); simpl; split; congruence.
Qed.

(** C8.  For a unary or binary node whose operands evaluate in the current
    dictionary and whose model entry has an inverse, the visit applies the
    inverse to the expected value and the operands' current values; without a
    solution it reports infeasible and leaves the dictionary alone; with one
    it visits the operand(s) with the derived expected values, the right
    operand in the dictionary as the left one's visit left it, and it reports
    infeasible exactly when one of those visits does.  The evaluation of the
    operands comes first: an exception it raises is the outcome of the
    visit, the left operand's before the right one's, and the dictionary is
    left alone.  On operands that are identifiers with a domain, a solution
    of the inverse makes the visit report feasible and bind each identifier
    to the meet of its value with the expected value derived for it, the
    right one's value being read after the left one is bound. *)
Theorem visit_operator_inverts_then_recurses
    (env : gmap (string * nat) V) (expected : V) :
  (∀ op e h b inv v,
     eval e env = Ok v →
     model (UnExpr op e h) = Some b →
     inverse b = Some (UnInv inv) →
     match inv expected v with
     | None => visit (UnExpr op e h) env expected = (Ok false, env)
     | Some expected_expr =>
         visit (UnExpr op e h) env expected = visit e env expected_expr
     end)
  ∧ (∀ l op r h b inv lv rv,
     eval l env = Ok lv →
     eval r env = Ok rv →
     model (BinExpr l op r h) = Some b →
     inverse b = Some (BinInv inv) →
     match inv expected lv rv with
     | None => visit (BinExpr l op r h) env expected = (Ok false, env)
     | Some (expected_lhs, expected_rhs) =>
         ∀ res env',
           visit (BinExpr l op r h) env expected = (res, env') →
           ∃ res_l env_l,
             visit l env expected_lhs = (res_l, env_l)
             ∧ match res_l with
               | Ok true => visit r env_l expected_rhs = (res, env')
               | _ => res = res_l ∧ env' = env_l
               end
             ∧ (res = Ok false ↔
                  res_l = Ok false
                  ∨ (res_l = Ok true
                     ∧ (visit r env_l expected_rhs).1 = Ok false))
     end)
  ∧ (∀ op e h x,
     eval e env = Raise x →
     visit (UnExpr op e h) env expected = (Raise x, env))
  ∧ (∀ l op r h x,
     eval l env = Raise x
     ∨ ((∃ lv, eval l env = Ok lv) ∧ eval r env = Raise x) →
     visit (BinExpr l op r h) env expected = (Raise x, env))
  ∧ (∀ op name decl hi h b inv bi dom cur expected_expr,
     env !! (name, decl) = Some cur →
     model (UnExpr op (Identifier name decl hi) h) = Some b →
     inverse b = Some (UnInv inv) →
     inv expected cur = Some expected_expr →
     model (Identifier name decl hi) = Some bi →
     domain bi = Some dom →
     visit (UnExpr op (Identifier name decl hi) h) env expected
     = (Ok true, <[(name, decl) := meet dom cur expected_expr]> env))
  ∧ (∀ n1 d1 h1 op n2 d2 h2 h b inv b1 dom1 b2 dom2 c1 c2
       expected_lhs expected_rhs,
     env !! (n1, d1) = Some c1 →
     env !! (n2, d2) = Some c2 →
     model (BinExpr (Identifier n1 d1 h1) op (Identifier n2 d2 h2) h)
       = Some b →
     inverse b = Some (BinInv inv) →
     inv expected c1 c2 = Some (expected_lhs, expected_rhs) →
     model (Identifier n1 d1 h1) = Some b1 → domain b1 = Some dom1 →
     model (Identifier n2 d2 h2) = Some b2 → domain b2 = Some dom2 →
     let env1 := <[(n1, d1) := meet dom1 c1 expected_lhs]> env in
     ∃ c2',
       env1 !! (n2, d2) = Some c2'
       ∧ visit (BinExpr (Identifier n1 d1 h1) op (Identifier n2 d2 h2) h)
           env expected
         = (Ok true, <[(n2, d2) := meet dom2 c2' expected_rhs]> env1)).
Proof.
  split_and!.
  - intros op e h b inv v He Hm Hi.
    assert (visit (UnExpr op e h) env expected
            = match inv expected v with
              | None => (Ok false, env)
              | Some x => visit e env x
              end) as ->.
    { simpl. rewrite He. simpl. unfold getitem. rewrite Hm. simpl.
      rewrite Hi. simpl. by destruct (inv expected v). }
    by destruct (inv expected v).
  - intros l op r h b inv lv rv Hl Hr Hm Hi.
    assert (visit (BinExpr l op r h) env expected
            = match inv expected lv rv with
              | None => (Ok false, env)
              | Some (el, er) =>
                  match visit l env el with
                  | (Ok true, env1) => visit r env1 er
                  | other => other
                  end
              end) as ->.
    { simpl. rewrite Hl, Hr. simpl. unfold getitem. rewrite Hm. simpl.
      rewrite Hi. simpl. by destruct (inv expected lv rv) as [[??]|]. }
    destruct (inv expected lv rv) as [[el er]|]; [|done].
    intros res env'.
    destruct (visit l env el) as [res_l env_l] eqn:Hvl.
    intros Hres. exists res_l, env_l. split; [done|].
    destruct res_l as [[]|x].
    + split; [done|]. rewrite Hres. simpl. split; [eauto|].
      intros [?|[_ ?]]; [done|done].
    + injection Hres as <- <-. split; [done|]. split; [eauto|done].
    + injection Hres as <- <-. split; [done|]. split; [done|].
      intros [?|[? _]]; done.
  - intros op e h x He. simpl. by rewrite He.
  - intros l op r h x [Hl|[[lv Hl] Hr]]; simpl; rewrite Hl; [done|].
    simpl. by rewrite Hr.
  - intros op name decl hi h b inv bi dom cur expected_expr
      Hc Hm Hi Hinv Hmi Hd.
    assert (eval (Identifier name decl hi) env = Ok cur) as He
      by (simpl; unfold getitem; by rewrite Hc).
    remember (Identifier name decl hi) as e eqn:Ee.
    simpl. rewrite He. simpl. unfold getitem. rewrite Hm. simpl.
    rewrite Hi. simpl. rewrite Hinv. subst e. simpl.
    unfold ExprSolver.visit_ident, getitem. rewrite Hmi. simpl.
    by rewrite Hd, Hc.
  - intros n1 d1 h1 op n2 d2 h2 h b inv b1 dom1 b2 dom2 c1 c2 el er
      Hc1 Hc2 Hm Hi Hinv Hm1 Hd1 Hm2 Hd2 env1.
    assert (∃ c2', env1 !! (n2, d2) = Some c2') as [c2' Hc2'].
    { subst env1. destruct (decide ((n1, d1) = (n2, d2))) as [->|Hne].
      - rewrite lookup_insert_eq. eauto.
      - rewrite lookup_insert_ne by done. eauto. }
    exists c2'. split; [done|].
    assert (eval (Identifier n1 d1 h1) env = Ok c1) as He1
      by (simpl; unfold getitem; by rewrite Hc1).
    assert (eval (Identifier n2 d2 h2) env = Ok c2) as He2
      by (simpl; unfold getitem; by rewrite Hc2).
    remember (Identifier n1 d1 h1) as l eqn:El.
    remember (Identifier n2 d2 h2) as r eqn:Er.
    simpl. rewrite He1, He2. simpl. unfold getitem. rewrite Hm. simpl.
    rewrite Hi. simpl. rewrite Hinv. subst l r. simpl.
    unfold ExprSolver.visit_ident, getitem. rewrite Hm1. simpl.
    rewrite Hd1, Hc1. rewrite Hm2. simpl. rewrite Hd2. fold env1.
    by rewrite Hc2'.
Qed.

End solver_facts.

(** *** The solver on concrete inputs *)

(** C1, as stated, fails: with [x] bound to the set holding only false, the
    meet with the expected value (the set holding only true) is empty, yet
    [solve] does not return the empty dictionary: it returns the dictionary
    in which [x] is bound to the empty set. *)
Lemma solve_ident_empty_meet_still_feasible :
  ¬ (is_empty Sample.bools (meet Sample.bools {[false]} {[true]}) = true →
     ExprSolver.solve_env Sample.model {[true]} Sample.x
       (Sample.env_x {[false]}) = Ok ∅).
Proof.
  intros H.
  assert (ExprSolver.solve_env Sample.model {[true]} Sample.x
            (Sample.env_x {[false]}) = Ok (Sample.env_x ∅)) as E
    by (vm_compute; reflexivity).
  rewrite E in H. specialize (H eq_refl).
  assert (Sample.env_x ∅ !! ("x", 0) = (∅ : gmap _ (gset bool)) !! ("x", 0))
    as H' by congruence.
  vm_compute in H'. discriminate.
Qed.

Lemma visit_ident_narrows_witness :
  ExprSolver.visit Sample.model Sample.x (Sample.env_x {[false]}) {[true]}
    = (Ok true, <[("x", 0) := meet Sample.bools {[false]} {[true]}]>
                  (Sample.env_x {[false]}))
  ∧ ExprSolver.solve_env Sample.model {[true]} Sample.x
      (Sample.env_x {[false]})
    = Ok (<[("x", 0) := meet Sample.bools {[false]} {[true]}]>
            (Sample.env_x {[false]})).
Proof.
  apply (visit_ident_narrows Sample.model {[true]} "x" 0 (Some 1)
           (Sample.env_x {[false]}) {[true]}
           {| domain := Some Sample.bools; definition := None;
              inverse := None; builder := None |} Sample.bools {[false]});
    reflexivity.
Defined.

Lemma visit_lit_feasible_iff_meet_nonempty_witness :
  (ExprSolver.visit Sample.model Sample.lit_true
     (Sample.env_x {[false]}) {[true]}).1
  = Ok (negb (is_empty Sample.bools
                (meet Sample.bools {[true]} (Sample.build (LStr "True"))))).
Proof.
  apply (proj2 (visit_lit_feasible_iff_meet_nonempty Sample.model
                  (LStr "True") (Some 1) (Sample.env_x {[false]}) {[true]})
           {| domain := Some Sample.bools; definition := None;
              inverse := None; builder := Some Sample.build |}
           Sample.bools Sample.build); reflexivity.
Defined.

Lemma visit_operator_inverts_then_recurses_witness :
  ExprSolver.visit Sample.model Sample.not_x
    (Sample.env_x {[false; true]}) {[true]}
  = (Ok true, Sample.env_x {[false]}).
Proof.
  rewrite (proj1 (proj2 (proj2 (proj2 (proj2
             (visit_operator_inverts_then_recurses Sample.model
                (Sample.env_x {[false; true]}) {[true]})))))
             "!" "x" 0 (Some 1) (Some 1)
             {| domain := Some Sample.bools;
                definition := Some (UnDef Sample.neg);
                inverse := Some (UnInv Sample.inv_neg);
                builder := None |}
             Sample.inv_neg
             {| domain := Some Sample.bools; definition := None;
                inverse := None; builder := None |}
             Sample.bools {[false; true]} {[false]}).
  - vm_compute. reflexivity.
  - reflexivity.
  - reflexivity.
  - reflexivity.
  - vm_compute. reflexivity.
  - reflexivity.
  - reflexivity.
Defined.

Lemma solve_preserves_caller_env_witness :
  (ExprSolver.solve Sample.model {[true]} Sample.x_eq_true 0
     {[ 0 := Sample.env_x {[false]} ]}).2 !! 0
  = Some (Sample.env_x {[false]}).
Proof.
  rewrite (proj1 (proj2 (solve_preserves_caller_env Sample.model {[true]}
                           Sample.x_eq_true 0
                           {[ 0 := Sample.env_x {[false]} ]})) 0).
  - reflexivity.
  - vm_compute. eauto.
Defined.

(** ** The checkers *)

Section checker_facts.
Context {L : Type} `{Countable L} (FALSE : L).

Local Abbreviation classifies := (Checkers.classifies FALSE).

Lemma classifies_intro (value : gset L) :
  FALSE ∈ value → classifies value (bool_decide (size value = 1)).
Proof.
  intros Hin. split; [done|].
  assert (size value ≠ 0).
  { intros ?%size_empty_inv. set_solver. }
  assert (size value = 1 ↔ value = {[ FALSE ]}) as Hs.
  { split.
    - intros [x Hx]%size_1_elem_of. apply leibniz_equiv. set_solver.
    - intros ->. apply size_singleton. }
  repeat split.
  - intros ?%bool_decide_eq_true. by apply Hs.
  - intros ?. apply bool_decide_eq_true. by apply Hs.
  - by intros ?%bool_decide_eq_true.
  - intros ?. by apply bool_decide_eq_true.
  - intros ?%bool_decide_eq_false. lia.
  - intros ?. apply bool_decide_eq_false. lia.
Qed.

Lemma kept_findings {T P : Type} (values : list (T * P * gset L))
    (trace : T) (purpose : P) (precise : bool) :
  (trace, purpose, precise)
    ∈ ((λ '(trace, purpose, value),
          (trace, purpose, bool_decide (size (value : gset L) = 1)))
       <$> filter (λ '(_, _, value), FALSE ∈ (value : gset L)) values)
  ↔ ∃ value, (trace, purpose, value) ∈ values
             ∧ FALSE ∈ value
             ∧ precise = bool_decide (size value = 1).
Proof.
  rewrite list_elem_of_fmap. split.
  - intros [[[t p] v] [[= -> -> ->] [Hf Hin]%list_elem_of_filter]].
    eauto.
  - intros (v & Hin & Hf & ->). exists (trace, purpose, v).
    split; [done|]. by apply list_elem_of_filter.
Qed.

Context {Analysis N T : Type}.
Context (collect_deref_checks : Analysis → list (N * Expr * Expr)).
Context (collect_exist_checks
  : Analysis → list (N * Expr * Checkers.ExistCheckP)).
Context (eval_expr_at : Analysis → N → Expr → list (T * gset L)).
Context `{Countable N}.
Context (cfg_nodes : Analysis → list N).
Context (node_data : N → option (option Stmt)).
Context (ancestors : Analysis → N → list N).
Context (eval_at : Analysis → N → Expr → list (list N * gset L)).

Local Abbreviation find_null_derefs :=
  (Checkers.find_null_derefs FALSE collect_deref_checks eval_expr_at).
Local Abbreviation find_invalid_accesses :=
  (Checkers.find_invalid_accesses FALSE collect_exist_checks eval_expr_at).
Local Abbreviation check_variants :=
  (Checkers.check_variants FALSE cfg_nodes node_data ancestors eval_at).

(** C2.  In each of the three checkers, a finding is reported for a trace
    exactly when some collected assume-node with the checker's purpose and
    some (trace, value) pair of the checked expression at that node has a
    value set that holds [FALSE]; the finding is marked precise exactly when
    that set is a singleton (then it is the set holding only [FALSE]), and is
    a potential one exactly when the set has more than one element. *)
Theorem checkers_report_false_values (analysis : Analysis) :
  (∀ trace derefed precise,
     (trace, derefed, precise)
       ∈ Checkers.diagnostics (find_null_derefs analysis)
     ↔ ∃ node check_expr value,
         (node, check_expr, derefed) ∈ collect_deref_checks analysis
         ∧ (trace, value) ∈ eval_expr_at analysis node check_expr
         ∧ classifies value precise)
  ∧ (∀ trace purpose precise,
     (trace, purpose, precise)
       ∈ Checkers.diagnostics (find_invalid_accesses analysis)
     ↔ ∃ node check_expr value,
         (node, check_expr, purpose) ∈ collect_exist_checks analysis
         ∧ (trace, value) ∈ eval_expr_at analysis node check_expr
         ∧ classifies value precise)
  ∧ (∀ trace purpose precise,
     (trace, purpose, precise)
       ∈ Checkers.diagnostics (check_variants analysis)
     ↔ ∃ node expr tag anc tr value,
         node ∈ cfg_nodes analysis
         ∧ node_data node = Some (Some (AssumeStmt expr tag))
         ∧ Checkers.is_exist_check tag = Some purpose
         ∧ anc ∈ ancestors analysis node
         ∧ (tr, value) ∈ eval_at analysis anc expr
         ∧ trace = list_to_set tr ∪ {[ node ]}
         ∧ classifies value precise).
Proof.
  assert (Hc : ∀ (value : gset L) precise,
    FALSE ∈ value ∧ precise = bool_decide (size value = 1)
    ↔ classifies value precise).
  { intros value precise. split.
    - intros [? ->]. by apply classifies_intro.
    - intros Hcl. pose proof Hcl as (Hin & _ & Hp & _). split; [done|].
      destruct precise; symmetry.
      + apply bool_decide_eq_true. by apply Hp.
      + apply bool_decide_eq_false. intros ?%Hp. done. }
  split; [|split].
  - intros trace derefed precise. simpl. rewrite kept_findings. split.
    + intros (value & Hin & Hf & Hp).
      apply list_elem_of_bind in Hin as ([[node ce] p] & Hin & Hchk).
      apply list_elem_of_bind in Hin as ([t v] & Hin & Hev).
      apply list_elem_of_singleton in Hin as [= -> -> ->].
      exists node, ce, v. split_and!; [done..|]. by apply Hc.
    + intros (node & ce & value & Hchk & Hev & [Hf Hp]%Hc).
      exists value. split_and!; [|done..].
      apply list_elem_of_bind. exists (node, ce, derefed). split; [|done].
      apply list_elem_of_bind. exists (trace, value). split; [|done].
      by apply list_elem_of_singleton.
  - intros trace purpose precise. simpl. rewrite kept_findings. split.
    + intros (value & Hin & Hf & Hp).
      apply list_elem_of_bind in Hin as ([[node ce] p] & Hin & Hchk).
      apply list_elem_of_bind in Hin as ([t v] & Hin & Hev).
      apply list_elem_of_singleton in Hin as [= -> -> ->].
      exists node, ce, v. split_and!; [done..|]. by apply Hc.
    + intros (node & ce & value & Hchk & Hev & [Hf Hp]%Hc).
      exists value. split_and!; [|done..].
      apply list_elem_of_bind. exists (node, ce, purpose). split; [|done].
      apply list_elem_of_bind. exists (trace, value). split; [|done].
      by apply list_elem_of_singleton.
  - intros trace purpose precise. simpl. rewrite kept_findings. split.
    + intros (value & Hin & Hf & Hp).
      apply list_elem_of_bind in Hin as ([[node e] p] & Hin & Hchk).
      apply list_elem_of_bind in Hin as (anc & Hin & Hanc).
      apply list_elem_of_bind in Hin as ([tr v] & Hin & Hev).
      apply list_elem_of_singleton in Hin as [= -> -> ->].
      apply list_elem_of_bind in Hchk as ([n ast] & Hchk & Hnodes).
      apply list_elem_of_bind in Hnodes as (n' & Hnd & Hn').
      destruct (node_data n') as [ast'|] eqn:Hdata;
        [|by apply elem_of_nil in Hnd].
      apply list_elem_of_singleton in Hnd as [= -> ->].
      destruct ast' as [[| | |expr tag| |]|];
        try by apply elem_of_nil in Hchk.
      destruct (Checkers.is_exist_check tag) as [p'|] eqn:Htag;
        [|by apply elem_of_nil in Hchk].
      apply list_elem_of_singleton in Hchk as [= -> -> ->].
      exists n', expr, tag, anc, tr, v. split_and!; [done..|]. by apply Hc.
    + intros (node & e & tag & anc & tr & value
              & Hn & Hdata & Htag & Hanc & Hev & -> & [Hf Hp]%Hc).
      exists value. split_and!; [|done..].
      apply list_elem_of_bind. exists (node, e, purpose). split.
      * apply list_elem_of_bind. exists anc. split; [|done].
        apply list_elem_of_bind. exists (tr, value). split; [|done].
        by apply list_elem_of_singleton.
      * apply list_elem_of_bind. exists (node, Some (AssumeStmt e tag)).
        split.
        -- rewrite Htag. by apply list_elem_of_singleton.
        -- apply list_elem_of_bind. exists node. split; [|done].
           rewrite Hdata. by apply list_elem_of_singleton.
Qed.

End checker_facts.

(** ** Models *)

Section dict_facts.
Context {K A : Type} `{EqDecision K}.

Lemma dict_get_set (d : list (K * A)) (k k' : K) (a : A) :
  Models.dict_get (Models.dict_set d k a) k'
  = if decide (k = k') then Some a else Models.dict_get d k'.
Proof.
  induction d as [|[k0 a0] d IH]; simpl.
  - by destruct (decide (k = k')).
  - destruct (decide (k0 = k)) as [->|Hne]; simpl.
    + by destruct (decide (k = k')).
    + rewrite IH. destruct (decide (k0 = k')) as [->|]; [|done].
      by rewrite decide_False.
Qed.

Lemma dict_get_keys (d : list (K * A)) (k : K) :
  is_Some (Models.dict_get d k) ↔ k ∈ d.*1.
Proof.
  induction d as [|[k0 a0] d IH]; simpl.
  - split; [by intros [? ?]|by intros ?%elem_of_nil].
  - rewrite elem_of_cons. destruct (decide (k0 = k)) as [->|].
    + split; eauto.
    + rewrite IH. split; [eauto|]. by intros [->|?].
Qed.

End dict_facts.

Section models_facts.
Context {V Ty : Type} `{Countable Ty}.
Context (typer_from_hint : nat → Hint → result Ty).
Context (interpreter_from_type : nat → Ty → result (Models.Interp V)).
Context (show_signature : list (Domain V) → string).

Local Abbreviation State := (@Models.State V Ty _ _).
Local Abbreviation later := (@Models.later V Ty _ _).
Local Abbreviation resolved := (@Models.resolved V Ty _ _).
Local Abbreviation tables_resolved := (@Models.tables_resolved V Ty _ _).
Local Abbreviation _hint_to_type :=
  (Models._hint_to_type (V:=V) typer_from_hint).
Local Abbreviation _type_to_interp :=
  (Models._type_to_interp interpreter_from_type).
Local Abbreviation _typeable_to_interp :=
  (Models._typeable_to_interp typer_from_hint interpreter_from_type).
Local Abbreviation register :=
  (Models.register typer_from_hint interpreter_from_type).
Local Abbreviation register_all :=
  (Models.register_all typer_from_hint interpreter_from_type).
Local Abbreviation register_programs :=
  (Models.register_programs typer_from_hint interpreter_from_type).
Local Abbreviation visit := (Models.visit show_signature).
Local Abbreviation build_model := (Models.build_model show_signature).
Local Abbreviation of_ :=
  (Models.of_ typer_from_hint interpreter_from_type show_signature).


Lemma later_refl s : later s s.
Proof. by split. Qed.

Lemma later_trans s1 s2 s3 : later s1 s2 → later s2 s3 → later s1 s3.
Proof. intros [??] [??]. split; by etrans. Qed.

Lemma hint_to_type_later hint s r s' :
  _hint_to_type hint s = (r, s') →
  later s s' ∧ ∀ tpe, r = Ok tpe → Models.hint_cache s' !! hint = Some tpe.
Proof.
  unfold Models._hint_to_type.
  destruct (Models.hint_cache s !! hint) as [tpe|] eqn:Hc.
  - intros [= <- <-]. split; [apply later_refl|]. by intros ? [= <-].
  - destruct (typer_from_hint _ hint) as [tpe|e]; intros [= <- <-].
    + split.
      * split; simpl; [by apply insert_subseteq|done].
      * intros ? [= <-]. simpl. apply lookup_insert_eq.
    + split; [by split|done].
Qed.

Lemma type_to_interp_later tpe s r s' :
  _type_to_interp tpe s = (r, s') →
  later s s' ∧ ∀ i, r = Ok i → Models.interp_cache s' !! tpe = Some i.
Proof.
  unfold Models._type_to_interp.
  destruct (Models.interp_cache s !! tpe) as [i|] eqn:Hc.
  - intros [= <- <-]. split; [apply later_refl|]. by intros ? [= <-].
  - destruct (interpreter_from_type _ tpe) as [i|e]; intros [= <- <-].
    + split.
      * split; simpl; [done|by apply insert_subseteq].
      * intros ? [= <-]. simpl. apply lookup_insert_eq.
    + split; [by split|done].
Qed.

Lemma hint_to_type_cached hint s tpe :
  Models.hint_cache s !! hint = Some tpe →
  _hint_to_type hint s = (Ok tpe, s).
Proof. intros Hc. unfold Models._hint_to_type. by rewrite Hc. Qed.

Lemma type_to_interp_cached tpe s i :
  Models.interp_cache s !! tpe = Some i →
  _type_to_interp tpe s = (Ok i, s).
Proof. intros Hc. unfold Models._type_to_interp. by rewrite Hc. Qed.


Lemma resolved_later s s' node d :
  later s s' → resolved s node d → resolved s' node d.
Proof.
  intros [Hh Hi] (hint & tpe & i & ? & ? & ? & ?).
  exists hint, tpe, i. split_and!; [done| | |done].
  - by eapply lookup_weaken.
  - by eapply lookup_weaken.
Qed.

Lemma resolved_same_hint s n1 n2 d1 d2 :
  type_hint n1 = type_hint n2 →
  resolved s n1 d1 → resolved s n2 d2 → d1 = d2.
Proof.
  intros Hh (h1 & t1 & i1 & ? & ? & ? & <-) (h2 & t2 & i2 & ? & ? & ? & <-).
  congruence.
Qed.

Lemma typeable_to_interp_spec node s r s' :
  _typeable_to_interp node s = (r, s') →
  later s s' ∧ ∀ i, r = Ok i → resolved s' node (Models.i_domain i).
Proof.
  unfold Models._typeable_to_interp.
  destruct (type_hint node) as [hint|] eqn:Hh; simpl.
  - destruct (_hint_to_type hint s) as [[tpe|e] s1] eqn:H1.
    + intros H2. apply hint_to_type_later in H1 as [L1 C1].
      apply type_to_interp_later in H2 as [L2 C2]. split.
      * by eapply later_trans.
      * intros i ->. exists hint, tpe, i. split_and!; [done| |eauto|done].
        destruct L2 as [L2 _]. eapply lookup_weaken; [|done]. by apply C1.
    + intros [= <- <-]. apply hint_to_type_later in H1 as [L1 _]. done.
  - intros [= <- <-]. split; [apply later_refl|done].
Qed.


Lemma register_spec node t s r s' :
  register node t s = (r, s') →
  later s s'
  ∧ (tables_resolved s t → ∀ t', r = Ok t' → tables_resolved s' t').
Proof.
  unfold Models.register.
  destruct (_typeable_to_interp node s) as [[i|e] s1] eqn:H1;
    intros [= <- <-]; apply typeable_to_interp_spec in H1 as [L1 R1].
  - split; [done|]. intros Ht t' [= <-] n d. simpl.
    rewrite dict_get_set. destruct (decide (node = n)) as [<-|].
    + intros [= <-]. by apply R1.
    + intros Hn. eapply resolved_later; [done|]. by apply Ht.
  - done.
Qed.

Lemma register_all_spec nodes t s r s' :
  register_all nodes t s = (r, s') →
  later s s'
  ∧ (tables_resolved s t → ∀ t', r = Ok t' → tables_resolved s' t').
Proof.
  revert t s. induction nodes as [|node nodes IH]; intros t s; simpl.
  - intros [= <- <-]. split; [apply later_refl|]. by intros ? ? [= <-].
  - destruct (register node t s) as [[t1|e] s1] eqn:H1.
    + intros H2. apply register_spec in H1 as [L1 R1].
      apply IH in H2 as [L2 R2]. split; [by eapply later_trans|].
      intros Ht t' ->. apply R2; [|done]. by apply R1.
    + intros [= <- <-]. apply register_spec in H1 as [L1 _]. done.
Qed.

Lemma register_programs_spec programs t s r s' :
  register_programs programs t s = (r, s') →
  later s s'
  ∧ (tables_resolved s t → ∀ t', r = Ok t' → tables_resolved s' t').
Proof.
  revert t s. induction programs as [|p ps IH]; intros t s; simpl.
  - intros [= <- <-]. split; [apply later_refl|]. by intros ? ? [= <-].
  - destruct (register_all _ t s) as [[t1|e] s1] eqn:H1.
    + intros H2. apply register_all_spec in H1 as [L1 R1].
      apply IH in H2 as [L2 R2]. split; [by eapply later_trans|].
      intros Ht t' ->. apply R2; [|done]. by apply R1.
    + intros [= <- <-]. apply register_all_spec in H1 as [L1 _]. done.
Qed.

(** Every entry of the model comes from the visit of its node. *)
Lemma build_model_entries nodes t m0 m node b :
  build_model nodes t m0 = Ok m →
  Models.dict_get m node = Some b →
  Models.dict_get m0 node = Some b ∨ (node ∈ nodes ∧ visit node t = Ok b).
Proof.
  revert m0. induction nodes as [|n nodes IH]; intros m0; simpl.
  - intros [= <-]. eauto.
  - destruct (visit n t) as [bn|e] eqn:Hv; [|done].
    intros Hb Hg. destruct (IH _ Hb Hg) as [Hin|[Hin Hvis]].
    + rewrite dict_get_set in Hin. destruct (decide (n = node)) as [<-|].
      * injection Hin as <-. right. split; [left|done].
      * by left.
    + right. split; [by right|done].
Qed.

Lemma visit_domain node t b :
  visit node t = Ok b →
  ∃ d, Models.dict_get (Models.node_domains t) node = Some d
       ∧ domain b = Some d.
Proof.
  destruct node; simpl;
    unfold Models.visit_ident, Models.visit_lit, Models.visit_unexpr,
      Models.visit_binexpr, getitem;
    (destruct (Models.dict_get _ _) as [d|]; [|done]); simpl; intros Hb;
    exists d; (split; [done|]).
  - by injection Hb as <-.
  - destruct (Models.builders t !! _); [|done]. by injection Hb as <-.
  - destruct (Models.dict_get _ _); [|done]. simpl in Hb.
    destruct (Models._aggregate_provider _ _ _ _); [|done]. simpl in Hb.
    destruct (Models._aggregate_provider _ _ _ _); [|done].
    by injection Hb as <-.
  - destruct (Models.dict_get _ _); [|done]. simpl in Hb.
    destruct (Models.dict_get _ _); [|done]. simpl in Hb.
    destruct (Models._aggregate_provider _ _ _ _); [|done]. simpl in Hb.
    destruct (Models._aggregate_provider _ _ _ _); [|done].
    by injection Hb as <-.
Qed.

(** C7.  The two caches are idempotent: a hint (a type) that was resolved
    once resolves to the same type (the same interpretation) in every later
    state, without a new call to the typer (the interpreter); and in a model
    that [of] returns, two nodes with equal type hints have the same domain
    object. *)
Theorem caches_share_domain_instances :
  (∀ hint s tpe s1 s2,
     _hint_to_type hint s = (Ok tpe, s1) → later s1 s2 →
     _hint_to_type hint s2 = (Ok tpe, s2))
  ∧ (∀ tpe s interp s1 s2,
     _type_to_interp tpe s = (Ok interp, s1) → later s1 s2 →
     _type_to_interp tpe s2 = (Ok interp, s2))
  ∧ (∀ programs s model s' n1 n2 b1 b2,
     of_ programs s = (Ok model, s') →
     Models.dict_get model n1 = Some b1 →
     Models.dict_get model n2 = Some b2 →
     type_hint n1 = type_hint n2 →
     domain b1 = domain b2 ∧ is_Some (domain b1)).
Proof.
  split_and!.
  - intros hint s tpe s1 s2 [_ Hc]%hint_to_type_later [Hl _].
    apply hint_to_type_cached. eapply lookup_weaken; [|done]. by apply Hc.
  - intros tpe s i s1 s2 [_ Hc]%type_to_interp_later [_ Hl].
    apply type_to_interp_cached. eapply lookup_weaken; [|done]. by apply Hc.
  - intros programs s model s' n1 n2 b1 b2. unfold Models.of_.
    destruct (register_programs programs Models.empty_tables s)
      as [[t|e] s1] eqn:Hreg; [|done].
    intros [= Hb <-] H1 H2 Hh.
    apply register_programs_spec in Hreg as [_ Hres].
    assert (tables_resolved s1 t) as Ht.
    { apply Hres; [|done]. intros ? ? ?. done. }
    destruct (build_model_entries _ _ _ _ _ _ Hb H1) as [?|[_ V1]]; [done|].
    destruct (build_model_entries _ _ _ _ _ _ Hb H2) as [?|[_ V2]]; [done|].
    apply visit_domain in V1 as (d1 & G1 & ->).
    apply visit_domain in V2 as (d2 & G2 & ->).
    split; [|eauto]. f_equal.
    eapply resolved_same_hint; [done|by apply Ht..].
Qed.


Local Abbreviation _aggregate_provider :=
  (Models._aggregate_provider show_signature).
Local Abbreviation no_provider := (Models.no_provider show_signature).
Local Abbreviation provided := (@Models.provided V).
Local Abbreviation unprovided := (@Models.unprovided V).

Lemma aggregate_provider_none {D} (providers : list (Models.Provider V D))
    name signature :
  (∀ p, p ∈ providers → Models.provide p name signature = None) →
  _aggregate_provider providers name signature
  = Raise (no_provider name signature).
Proof.
  induction providers as [|p ps IH]; simpl; [done|]. intros Hall.
  rewrite (Hall p) by left. apply IH. intros q Hq. apply Hall. by right.
Qed.

Lemma aggregate_provider_some {D} (providers : list (Models.Provider V D))
    name signature r :
  _aggregate_provider providers name signature = r →
  match r with
  | Ok d => ∃ p, p ∈ providers ∧ Models.provide p name signature = Some d
  | Raise e =>
      e = no_provider name signature
      ∧ ∀ p, p ∈ providers → Models.provide p name signature = None
  end.
Proof.
  intros <-. induction providers as [|p ps IH]; simpl.
  - split; [done|]. by intros p ?%elem_of_nil.
  - destruct (Models.provide p name signature) as [d|] eqn:Hp.
    + exists p. split; [left|done].
    + destruct (_aggregate_provider ps name signature) as [d|e].
      * destruct IH as (q & Hq & Hd). exists q. split; [by right|done].
      * destruct IH as [-> Hall]. split; [done|].
        intros q [->|Hq]%elem_of_cons; [done|by apply Hall].
Qed.

Lemma build_model_raises nodes1 node nodes2 t m0 e :
  (∀ n, n ∈ nodes1 → ∃ b, visit n t = Ok b) →
  visit node t = Raise e →
  build_model (nodes1 ++ node :: nodes2) t m0 = Raise e.
Proof.
  revert m0. induction nodes1 as [|n ns IH]; intros m0 Hok Hv; simpl.
  - by rewrite Hv.
  - destruct (Hok n) as [b ->]; [left|]. apply IH; [|done].
    intros n' Hn'. apply Hok. by right.
Qed.


Lemma visit_operator_provided node t b :
  visit node t = Ok b →
  match node with
  | UnExpr sym _ _ | BinExpr _ sym _ _ => provided t sym b
  | _ => True
  end.
Proof.
  destruct node as [| |sym operand h|lhs sym rhs h]; simpl; [done..| |];
    unfold Models.visit_unexpr, Models.visit_binexpr, getitem.
  - destruct (Models.dict_get _ _) as [dom|]; [|done]. simpl.
    destruct (Models.dict_get _ _) as [edom|]; [|done]. simpl.
    destruct (_aggregate_provider (Models.def_providers t) _ _)
      as [d|] eqn:Hd; [|done]. simpl.
    destruct (_aggregate_provider (Models.inv_def_providers t) _ _)
      as [i|] eqn:Hi; [|done]. simpl. intros [= <-].
    apply aggregate_provider_some in Hd as (p & ? & ?).
    apply aggregate_provider_some in Hi as (q & ? & ?).
    by exists [edom; dom], d, i, p, q.
  - destruct (Models.dict_get _ _) as [dom|]; [|done]. simpl.
    destruct (Models.dict_get _ _) as [ldom|]; [|done]. simpl.
    destruct (Models.dict_get _ _) as [rdom|]; [|done]. simpl.
    destruct (_aggregate_provider (Models.def_providers t) _ _)
      as [d|] eqn:Hd; [|done]. simpl.
    destruct (_aggregate_provider (Models.inv_def_providers t) _ _)
      as [i|] eqn:Hi; [|done]. simpl. intros [= <-].
    apply aggregate_provider_some in Hd as (p & ? & ?).
    apply aggregate_provider_some in Hi as (q & ? & ?).
    by exists [ldom; rdom; dom], d, i, p, q.
Qed.


Lemma unprovided_raises t sym signature (k : _ → _ → result (Bunch V)) :
  unprovided t sym signature →
  (d ←' _aggregate_provider (Models.def_providers t) sym signature;
   i ←' _aggregate_provider (Models.inv_def_providers t) sym signature;
   k d i) = Raise (no_provider sym signature).
Proof.
  intros [Hd|Hi].
  - by rewrite aggregate_provider_none.
  - destruct (_aggregate_provider (Models.def_providers t) sym signature)
      as [d|e] eqn:Hd; simpl.
    + by rewrite aggregate_provider_none.
    + by apply aggregate_provider_some in Hd as [-> _].
Qed.

(** C4.  The aggregated provider raises [LookupError] with the message
    naming the operator and the signature exactly when no provider has a
    definition for them.  When the visit of an operator node of [of] asks
    for a definition or an inverse that no registered provider has, the
    visit raises that error; an error raised by the visit of a node, the
    visits before it having returned, is the outcome of [of]; and in a model
    that [of] returns, the entry of every operator node holds a definition
    and an inverse that registered providers returned for its operator. *)
Theorem missing_provider_raises_lookup_error :
  (∀ D (providers : list (Models.Provider V D)) name signature,
     _aggregate_provider providers name signature
       = Raise (LookupError ("No provider for '" +:+ name +:+ "' "
                             +:+ show_signature signature))
     ↔ ∀ p, p ∈ providers → Models.provide p name signature = None)
  ∧ (∀ t sym operand h dom expr_dom,
     Models.dict_get (Models.node_domains t) (UnExpr sym operand h)
       = Some dom →
     Models.dict_get (Models.node_domains t) operand = Some expr_dom →
     unprovided t sym [expr_dom; dom] →
     visit (UnExpr sym operand h) t
       = Raise (LookupError ("No provider for '" +:+ sym +:+ "' "
                             +:+ show_signature [expr_dom; dom])))
  ∧ (∀ t lhs sym rhs h dom lhs_dom rhs_dom,
     Models.dict_get (Models.node_domains t) (BinExpr lhs sym rhs h)
       = Some dom →
     Models.dict_get (Models.node_domains t) lhs = Some lhs_dom →
     Models.dict_get (Models.node_domains t) rhs = Some rhs_dom →
     unprovided t sym [lhs_dom; rhs_dom; dom] →
     visit (BinExpr lhs sym rhs h) t
       = Raise (LookupError ("No provider for '" +:+ sym +:+ "' "
                             +:+ show_signature [lhs_dom; rhs_dom; dom])))
  ∧ (∀ programs s t s' nodes1 node nodes2 e,
     register_programs programs Models.empty_tables s = (Ok t, s') →
     (Models.node_domains t).*1 = nodes1 ++ node :: nodes2 →
     (∀ n, n ∈ nodes1 → ∃ b, visit n t = Ok b) →
     visit node t = Raise e →
     of_ programs s = (Raise e, s'))
  ∧ (∀ programs s model s',
     of_ programs s = (Ok model, s') →
     ∃ t, register_programs programs Models.empty_tables s = (Ok t, s')
          ∧ ∀ node b, Models.dict_get model node = Some b →
              match node with
              | UnExpr sym _ _ | BinExpr _ sym _ _ => provided t sym b
              | _ => True
              end).
Proof.
  split_and!.
  - intros D providers name signature. split.
    + intros Hr. by apply aggregate_provider_some in Hr as [_ ?].
    + apply aggregate_provider_none.
  - intros t sym operand h dom expr_dom Hn Ho Hu. simpl.
    unfold Models.visit_unexpr, getitem. rewrite Hn, Ho. simpl.
    by apply unprovided_raises.
  - intros t lhs sym rhs h dom lhs_dom rhs_dom Hn Hl Hr Hu. simpl.
    unfold Models.visit_binexpr, getitem. rewrite Hn, Hl, Hr. simpl.
    by apply unprovided_raises.
  - intros programs s t s' nodes1 node nodes2 e Hreg Hk Hok Hv.
    unfold Models.of_. rewrite Hreg, Hk. f_equal.
    by apply build_model_raises.
  - intros programs s model s'. unfold Models.of_.
    destruct (register_programs programs Models.empty_tables s)
      as [[t|e] s1] eqn:Hreg; [|done].
    intros [= Hb <-]. exists t. split; [done|]. intros node b Hg.
    destruct (build_model_entries _ _ _ _ _ _ Hb Hg) as [?|[_ Hv]]; [done|].
    by apply visit_operator_provided.
Qed.

End models_facts.

(** ** The control-flow graph builder *)

Section cfg_facts.
Import CFGBuilder.

(** Induction on statements, with the induction hypothesis for every
    statement of the branches of a split and of the body of a loop. *)
Lemma Stmt_ind_nested (P : Stmt → Prop) :
  (∀ id e, P (AssignStmt id e)) →
  (∀ id, P (ReadStmt id)) →
  (∀ id, P (UseStmt id)) →
  (∀ e p, P (AssumeStmt e p)) →
  (∀ f g, Forall P f → Forall P g → P (SplitStmt f g)) →
  (∀ body, Forall P body → P (LoopStmt body)) →
  ∀ s, P s.
Proof.
  intros Ha Hr Hu Hm Hs Hl.
  fix IH 1. intros [id e|id|id|e p|f g|body].
  - apply Ha.
  - apply Hr.
  - apply Hu.
  - apply Hm.
  - apply Hs.
    + induction f as [|s f IHf]; constructor; [apply IH|apply IHf].
    + induction g as [|s g IHg]; constructor; [apply IH|apply IHg].
  - apply Hl. induction body as [|s body IHb]; constructor;
      [apply IH|apply IHb].
Qed.

Lemma build_node_spec nm w o b :
  ∃ k, build_node nm w o b
       = ({| name := nm +:+ pretty k; is_widening_point := w; node := o |},
          {| self_nodes := self_nodes b; self_edges := self_edges b;
             key_counter := <[nm := S k]> (key_counter b) |}).
Proof.
  exists (default 0 (key_counter b !! nm)). reflexivity.
Qed.

Lemma visit_split_eq f g start b :
  visit (SplitStmt f g) start b
  = let '(end_fst, b1) := visit_stmts f start b in
    let '(end_snd, b2) := visit_stmts g start b1 in
    let '(join, b3) := build_node "split_join" false None b2 in
    (join, register_and_link [end_fst; end_snd] join b3).
Proof. reflexivity. Qed.

Lemma visit_loop_eq body start b :
  visit (LoopStmt body) start b
  = let '(loop_start, b1) := build_node "loop_start" true None b in
    let '(end_, b2) := visit_stmts body loop_start b1 in
    let '(join, b3) := build_node "loop_join" false None b2 in
    (join,
     register_and_link [loop_start] join
       (register_and_link [start; end_] loop_start b3)).
Proof. reflexivity. Qed.

Lemma edge_in_mono es es' a b :
  es ⊆ es' → rtc (edge_in es) a b → rtc (edge_in es') a b.
Proof.
  intros Hsub. apply rtc_subrel. intros x y Hxy. by apply Hsub.
Qed.

Lemma extends_refl cur b : extends cur b cur b [] [].
Proof.
  split; try (by rewrite app_nil_r); try (by intros ? ?%elem_of_nil);
    [done|by left].
Qed.

Lemma extends_trans cur b n1 b1 n2 b2 ns1 es1 ns2 es2 :
  extends cur b n1 b1 ns1 es1 →
  extends n1 b1 n2 b2 ns2 es2 →
  extends cur b n2 b2 (ns1 ++ ns2) (es1 ++ es2).
Proof.
  intros [N1 E1 End1 Ein1 R1 I1 T1 S1 St1] [N2 E2 End2 Ein2 R2 I2 T2 S2 St2].
  assert (Hl : es1 ⊆ es1 ++ es2) by set_solver +.
  assert (Hr : es2 ⊆ es1 ++ es2) by set_solver +.
  split.
  - by rewrite N2, N1, app_assoc.
  - by rewrite E2, E1, app_assoc.
  - etrans; [eapply (edge_in_mono es1); [exact Hl|exact End1]|].
    eapply (edge_in_mono es2); [exact Hr|exact End2].
  - destruct Ein2 as [->|?]; [|right; set_solver].
    destruct Ein1 as [->|?]; [by left|right; set_solver].
  - intros m [Hm|Hm]%elem_of_app.
    + eapply (edge_in_mono es1); [exact Hl|]. by apply R1.
    + etrans; [eapply (edge_in_mono es1); [exact Hl|exact End1]|].
      eapply (edge_in_mono es2); [exact Hr|]. by apply R2.
  - intros m [Hm|Hm]%elem_of_app.
    + destruct (I1 m Hm) as [a Ha]. exists a. by apply Hl.
    + destruct (I2 m Hm) as [a Ha]. exists a. by apply Hr.
  - intros e [He|He]%elem_of_app; set_solver.
  - intros e [He|He]%elem_of_app.
    + destruct (S1 e He); set_solver.
    + destruct (S2 e He) as [->|?]; set_solver.
  - intros m [Hm|Hm]%elem_of_app; eauto.
Qed.

Lemma extends_atom nm stmt start b :
  (∀ x, is_start_name (nm +:+ x) = false) →
  ∃ n, extends start b (visit_atom nm stmt start b).1
         (visit_atom nm stmt start b).2 [n] [{| frm := start; to := n |}]
       ∧ n = (visit_atom nm stmt start b).1
       ∧ is_widening_point n = false ∧ node n = Some stmt.
Proof.
  intros Hnm. unfold visit_atom.
  destruct (build_node_spec nm false (Some stmt) b) as [k ->]. simpl.
  eexists. split; [|done].
  assert (edge_in [{| frm := start; to :=
            {| name := nm +:+ pretty k; is_widening_point := false;
               node := Some stmt |} |}] start
            {| name := nm +:+ pretty k; is_widening_point := false;
               node := Some stmt |}) as Hedge by (unfold edge_in; set_solver).
  split; simpl; try done.
  - by apply rtc_once.
  - right. set_solver.
  - intros m ->%list_elem_of_singleton. by apply rtc_once.
  - intros m ->%list_elem_of_singleton. eauto.
  - intros e ->%list_elem_of_singleton. set_solver.
  - intros e ->%list_elem_of_singleton. by left.
  - intros m ->%list_elem_of_singleton. apply Hnm.
Qed.

Lemma visit_stmts_ok_of ss :
  Forall visit_ok ss →
  ∀ cur b, ∃ ns es,
    extends cur b (visit_stmts ss cur b).1 (visit_stmts ss cur b).2 ns es.
Proof.
  induction 1 as [|s ss Hs _ IH]; intros cur b; simpl.
  - exists [], []. apply extends_refl.
  - destruct (Hs cur b) as (ns1 & es1 & E1).
    destruct (visit s cur b) as [n1 b1]. simpl in E1.
    destruct (IH n1 b1) as (ns2 & es2 & E2).
    exists (ns1 ++ ns2), (es1 ++ es2). by eapply extends_trans.
Qed.

Lemma visit_ok_all s : visit_ok s.
Proof.
  induction s as [id e|id|id|e p|f g IHf IHg|body IHb]
    using Stmt_ind_nested; intros cur b.
  - destruct (extends_atom "assign" (AssignStmt id e) cur b)
      as (n & E & _); [done|]. eexists _, _. exact E.
  - destruct (extends_atom "read" (ReadStmt id) cur b)
      as (n & E & _); [done|]. eexists _, _. exact E.
  - destruct (extends_atom "use" (UseStmt id) cur b)
      as (n & E & _); [done|]. eexists _, _. exact E.
  - destruct (extends_atom "assume" (AssumeStmt e p) cur b)
      as (n & E & _); [done|]. eexists _, _. exact E.
  - rewrite visit_split_eq.
    destruct (visit_stmts_ok_of f IHf cur b) as (ns1 & es1 & E1).
    destruct (visit_stmts f cur b) as [e1 b1]. simpl in E1.
    destruct (visit_stmts_ok_of g IHg cur b1) as (ns2 & es2 & E2).
    destruct (visit_stmts g cur b1) as [e2 b2]. simpl in E2.
    destruct (build_node_spec "split_join" false None b2) as [k ->].
    set (j := {| name := "split_join" +:+ pretty k;
                 is_widening_point := false; node := None |}).
    exists (ns1 ++ ns2 ++ [j]),
      (es1 ++ es2 ++ [{| frm := e1; to := j |}; {| frm := e2; to := j |}]).
    destruct E1 as [N1 Ed1 End1 Ein1 R1 I1 T1 S1 St1].
    destruct E2 as [N2 Ed2 End2 Ein2 R2 I2 T2 S2 St2].
    assert (Hj : rtc (edge_in (es1 ++ es2 ++
               [{| frm := e1; to := j |}; {| frm := e2; to := j |}])) cur j).
    { eapply rtc_r; [eapply edge_in_mono; [|exact End1]; set_solver|].
      unfold edge_in. set_solver. }
    split; simpl.
    + by rewrite N2, N1, <- !app_assoc.
    + by rewrite Ed2, Ed1, <- !app_assoc.
    + done.
    + right. set_solver.
    + intros m [Hm|[Hm| ->%list_elem_of_singleton]%elem_of_app]%elem_of_app.
      * eapply edge_in_mono; [|by apply R1]. set_solver.
      * eapply edge_in_mono; [|by apply R2]. set_solver.
      * done.
    + intros m [Hm|[Hm| ->%list_elem_of_singleton]%elem_of_app]%elem_of_app.
      * destruct (I1 m Hm) as [a Ha]. exists a. unfold edge_in in *.
        set_solver.
      * destruct (I2 m Hm) as [a Ha]. exists a. unfold edge_in in *.
        set_solver.
      * exists e1. unfold edge_in. set_solver.
    + intros e [He|[He|He]%elem_of_app]%elem_of_app.
      * specialize (T1 e He). set_solver.
      * specialize (T2 e He). set_solver.
      * assert (to e = j) as -> by set_solver. set_solver.
    + intros e [He|[He|He]%elem_of_app]%elem_of_app.
      * destruct (S1 e He); set_solver.
      * destruct (S2 e He); set_solver.
      * assert (frm e = e1 ∨ frm e = e2) as [->| ->] by set_solver.
        -- destruct Ein1; set_solver.
        -- destruct Ein2; set_solver.
    + intros m [Hm|[Hm| ->%list_elem_of_singleton]%elem_of_app]%elem_of_app;
        eauto.
  - rewrite visit_loop_eq.
    destruct (build_node_spec "loop_start" true None b) as [k ->].
    set (ls := {| name := "loop_start" +:+ pretty k;
                  is_widening_point := true; node := None |}).
    set (b1 := {| self_nodes := self_nodes b; self_edges := self_edges b;
                  key_counter := _ |}).
    destruct (visit_stmts_ok_of body IHb ls b1) as (ns1 & es1 & E1).
    destruct (visit_stmts body ls b1) as [e1 b2]. simpl in E1.
    destruct (build_node_spec "loop_join" false None b2) as [k' ->].
    set (j := {| name := "loop_join" +:+ pretty k';
                 is_widening_point := false; node := None |}).
    exists (ns1 ++ [ls; j]),
      (es1 ++ [{| frm := cur; to := ls |}; {| frm := e1; to := ls |};
               {| frm := ls; to := j |}]).
    destruct E1 as [N1 Ed1 End1 Ein1 R1 I1 T1 S1 St1]. simpl in N1, Ed1.
    set (es := es1 ++ _).
    assert (Hls : rtc (edge_in es) cur ls).
    { apply rtc_once. unfold edge_in, es. set_solver. }
    assert (Hj : rtc (edge_in es) cur j).
    { eapply rtc_r; [exact Hls|]. unfold edge_in, es. set_solver. }
    split; simpl.
    + by rewrite N1, <- !app_assoc.
    + by rewrite Ed1, <- !app_assoc.
    + done.
    + right. set_solver.
    + intros m [Hm|Hm]%elem_of_app.
      * etrans; [exact Hls|]. eapply edge_in_mono; [|by apply R1].
        unfold es. set_solver.
      * assert (m = ls ∨ m = j) as [->| ->] by set_solver; done.
    + intros m [Hm|Hm]%elem_of_app.
      * destruct (I1 m Hm) as [a Ha]. exists a. unfold edge_in, es in *.
        set_solver.
      * assert (m = ls ∨ m = j) as [->| ->] by set_solver.
        -- exists cur. unfold edge_in, es. set_solver.
        -- exists ls. unfold edge_in, es. set_solver.
    + intros e [He|He]%elem_of_app.
      * specialize (T1 e He). set_solver.
      * assert (to e = ls ∨ to e = j) as [->| ->] by set_solver; set_solver.
    + intros e [He|He]%elem_of_app.
      * destruct (S1 e He) as [->|?]; set_solver.
      * assert (frm e = cur ∨ frm e = e1 ∨ frm e = ls) as [->|[->| ->]]
          by set_solver; [by left| |set_solver].
        destruct Ein1 as [->|?]; set_solver.
    + intros m [Hm|Hm]%elem_of_app; [eauto|].
      assert (m = ls ∨ m = j) as [->| ->] by set_solver; done.
Qed.

Lemma visit_stmts_ok ss cur b :
  ∃ ns es,
    extends cur b (visit_stmts ss cur b).1 (visit_stmts ss cur b).2 ns es.
Proof.
  apply visit_stmts_ok_of. apply Forall_forall. intros s _.
  apply visit_ok_all.
Qed.

Lemma grows_refl b : grows b b.
Proof. by split. Qed.

Lemma grows_trans b1 b2 b3 : grows b1 b2 → grows b2 b3 → grows b1 b3.
Proof. intros [??] [??]. split; by etrans. Qed.

Lemma extends_grows cur b n b' ns es :
  extends cur b n b' ns es → grows b b' ∧ es ⊆ self_edges b'.
Proof.
  intros [N E _ _ _ _ _ _ _]. unfold grows. rewrite N, E.
  split_and!; set_solver +.
Qed.

Lemma visit_grows s cur b : grows b (visit s cur b).2.
Proof.
  destruct (visit_ok_all s cur b) as (ns & es & E).
  by apply extends_grows in E as [? _].
Qed.

Lemma visit_stmts_grows ss cur b : grows b (visit_stmts ss cur b).2.
Proof.
  destruct (visit_stmts_ok ss cur b) as (ns & es & E).
  by apply extends_grows in E as [? _].
Qed.

Lemma visit_stmts_cons s rest cur b :
  visit_stmts (s :: rest) cur b
  = visit_stmts rest (visit s cur b).1 (visit s cur b).2.
Proof. simpl. by destruct (visit s cur b). Qed.

(** The path a list of statements is lowered to lies in the final state. *)
Lemma visit_stmts_path ss cur b :
  rtc (edge_in (self_edges (visit_stmts ss cur b).2)) cur
    (visit_stmts ss cur b).1.
Proof.
  destruct (visit_stmts_ok ss cur b) as (ns & es & E).
  pose proof (extends_grows _ _ _ _ _ _ E) as [_ Hsub].
  eapply edge_in_mono; [exact Hsub|]. by destruct E.
Qed.

(** What the visit of a split statement leaves in the builder. *)
Lemma visit_split_parts f g start b :
  let b1 := (visit_stmts f start b).2 in
  let b2 := (visit_stmts g start b1).2 in
  let b' := (visit (SplitStmt f g) start b).2 in
  let j := split_join f g start b in
  grows b1 b' ∧ grows b2 b'
  ∧ edge_in (self_edges b') (fst_end f start b) j
  ∧ edge_in (self_edges b') (snd_end f g start b) j
  ∧ self_nodes b' = self_nodes b2 ++ [j]
  ∧ is_widening_point j = false ∧ node j = None.
Proof.
  unfold split_join, fst_end, snd_end. rewrite visit_split_eq.
  pose proof (visit_stmts_grows g start (visit_stmts f start b).2) as G2.
  destruct (visit_stmts f start b) as [e1 b1]. cbn [fst snd] in *.
  destruct (visit_stmts g start b1) as [e2 b2]. cbn [fst snd] in *.
  destruct (build_node_spec "split_join" false None b2) as [k ->].
  cbn [fst snd].
  assert (grows b2 (register_and_link [e1; e2]
    {| name := "split_join" +:+ pretty k; is_widening_point := false;
       node := None |}
    {| self_nodes := self_nodes b2; self_edges := self_edges b2;
       key_counter := <["split_join" := S k]> (key_counter b2) |})) as G.
  { split; simpl; set_solver +. }
  split_and!; try done.
  - by eapply grows_trans.
  - unfold edge_in. simpl. set_solver +.
  - unfold edge_in. simpl. set_solver +.
Qed.

(** What the visit of a loop statement leaves in the builder. *)
Lemma visit_loop_parts body start b :
  let entry := loop_entry b in
  let b1 := (build_node "loop_start" true None b).2 in
  let b2 := (visit_stmts body entry b1).2 in
  let b' := (visit (LoopStmt body) start b).2 in
  let j := loop_join body start b in
  grows b2 b'
  ∧ self_nodes b1 = self_nodes b
  ∧ edge_in (self_edges b') start entry
  ∧ edge_in (self_edges b') (loop_end body b) entry
  ∧ edge_in (self_edges b') entry j
  ∧ self_nodes b' = self_nodes b2 ++ [entry; j]
  ∧ is_widening_point entry = true ∧ node entry = None
  ∧ is_widening_point j = false ∧ node j = None.
Proof.
  unfold loop_join, loop_end, loop_entry. rewrite visit_loop_eq.
  destruct (build_node_spec "loop_start" true None b) as [k ->].
  cbn [fst snd].
  destruct (visit_stmts body _ _) as [e1 b2]. cbn [fst snd].
  destruct (build_node_spec "loop_join" false None b2) as [k' ->].
  cbn [fst snd].
  split_and!; try done.
  - split; simpl; set_solver +.
  - unfold edge_in. simpl. set_solver +.
  - unfold edge_in. simpl. set_solver +.
  - unfold edge_in. simpl. set_solver +.
  - simpl. by rewrite <- app_assoc.
Qed.

(** The state a call leaves is part of the state the whole walk leaves. *)
Lemma calls_grows ss cur b s c0 b0 :
  calls ss cur b s c0 b0 →
  grows (visit s c0 b0).2 (visit_stmts ss cur b).2.
Proof.
  induction 1 as [stmt rest cur b|stmt rest cur b s c0 b0 _ IH
    |f g rest cur b s c0 b0 _ IH|f g rest cur b s c0 b0 _ IH
    |body rest cur b s c0 b0 _ IH]; rewrite visit_stmts_cons.
  - apply visit_stmts_grows.
  - done.
  - eapply grows_trans; [exact IH|].
    eapply grows_trans; [|apply visit_stmts_grows].
    apply (visit_split_parts f g cur b).
  - eapply grows_trans; [exact IH|].
    eapply grows_trans; [|apply visit_stmts_grows].
    apply (visit_split_parts f g cur b).
  - eapply grows_trans; [exact IH|].
    eapply grows_trans; [|apply visit_stmts_grows].
    apply (visit_loop_parts body cur b).
Qed.

(** The graph of a program, spelled out. *)
Lemma visit_program_eq prgm kc :
  visit_program prgm kc
  = {| nodes := self_nodes (visit_stmts (stmts prgm) (start_node kc).1
                              (start_node kc).2).2 ++ [(start_node kc).1];
       edges := self_edges (visit_stmts (stmts prgm) (start_node kc).1
                              (start_node kc).2).2 |}.
Proof.
  unfold visit_program. destruct (start_node kc) as [start b]. simpl.
  by destruct (visit_stmts (stmts prgm) start b).
Qed.

Lemma program_calls_grows prgm kc s c0 b0 :
  program_calls prgm kc s c0 b0 →
  self_nodes (visit s c0 b0).2 ⊆ nodes (visit_program prgm kc)
  ∧ self_edges (visit s c0 b0).2 ⊆ edges (visit_program prgm kc).
Proof.
  intros [Hn He]%calls_grows. rewrite visit_program_eq. simpl.
  split; [set_solver|done].
Qed.

(** *** Node names are pairwise distinct

    Nodes are compared by value here and by identity in the builder; the two
    agree because no two nodes of a graph carry the same name. *)

Lemma name_inj (k1 k2 : string) (i1 i2 : nat) :
  k1 ∈ all_names → k2 ∈ all_names →
  k1 +:+ pretty i1 = k2 +:+ pretty i2 → k1 = k2 ∧ i1 = i2.
Proof.
  unfold all_names. rewrite !elem_of_cons, !elem_of_nil.
  intros H1 H2 Heq.
  repeat (destruct H1 as [->|H1]); try done;
    repeat (destruct H2 as [->|H2]); try done;
    simpl in Heq; simplify_eq; split; try done;
    by eapply (inj pretty).
Qed.

Lemma fresh_names_refl b : fresh_names b b [].
Proof.
  split; [done| |constructor]. by intros m ?%elem_of_nil.
Qed.

Lemma fresh_names_trans b1 b2 b3 ns1 ns2 :
  fresh_names b1 b2 ns1 → fresh_names b2 b3 ns2 →
  fresh_names b1 b3 (ns1 ++ ns2).
Proof.
  intros [M1 R1 D1] [M2 R2 D2]. split.
  - intros key. specialize (M1 key). specialize (M2 key). lia.
  - intros m [Hm|Hm]%elem_of_app.
    + destruct (R1 m Hm) as (k & i & ? & ? & ?). exists k, i.
      specialize (M2 k). split; [done|split; [done|lia]].
    + destruct (R2 m Hm) as (k & i & ? & ? & ?). exists k, i.
      specialize (M1 k). split; [done|split; [done|lia]].
  - rewrite fmap_app. apply NoDup_app. split_and!; [done| |done].
    intros x (m1 & -> & Hm1)%list_elem_of_fmap (m2 & Heq & Hm2)%list_elem_of_fmap.
    destruct (R1 m1 Hm1) as (k1 & i1 & Hk1 & E1 & ?).
    destruct (R2 m2 Hm2) as (k2 & i2 & Hk2 & E2 & ?).
    rewrite E1, E2 in Heq.
    apply name_inj in Heq as [-> ->]; [|done..]. lia.
Qed.

Lemma fresh_names_perm b b' ns ns' :
  ns ≡ₚ ns' → fresh_names b b' ns → fresh_names b b' ns'.
Proof.
  intros Hp [M R D]. split; [done| |].
  - intros m Hm. apply R. by rewrite Hp.
  - by rewrite <- Hp.
Qed.

Lemma fresh_names_build nm w o b :
  nm ∈ all_names →
  fresh_names b (build_node nm w o b).2 [(build_node nm w o b).1]
  ∧ self_nodes (build_node nm w o b).2 = self_nodes b.
Proof.
  intros Hnm. split; [|done]. split.
  - intros key. unfold counter. simpl.
    destruct (decide (nm = key)) as [->|].
    + rewrite lookup_insert_eq. simpl. lia.
    + by rewrite lookup_insert_ne.
  - intros m ->%list_elem_of_singleton.
    exists nm, (default 0 (key_counter b !! nm)).
    split; [done|split; [done|]].
    unfold counter. simpl. rewrite lookup_insert_eq. simpl. lia.
  - apply NoDup_singleton.
Qed.

Lemma fresh_names_register froms n b b' ns :
  fresh_names b b' ns → fresh_names b (register_and_link froms n b') ns.
Proof. by intros [M R D]. Qed.

Lemma names_atom nm stmt start b :
  nm ∈ all_names →
  ∃ ns, self_nodes (visit_atom nm stmt start b).2 = self_nodes b ++ ns
        ∧ fresh_names b (visit_atom nm stmt start b).2 ns.
Proof.
  intros Hnm. unfold visit_atom.
  destruct (fresh_names_build nm false (Some stmt) b Hnm) as [F N].
  destruct (build_node nm false (Some stmt) b) as [n b1].
  cbn [fst snd] in *. exists [n]. split.
  - simpl. by rewrite N.
  - by apply fresh_names_register.
Qed.

Lemma names_stmts_of ss :
  Forall names_ok ss →
  ∀ cur b, ∃ ns,
    self_nodes (visit_stmts ss cur b).2 = self_nodes b ++ ns
    ∧ fresh_names b (visit_stmts ss cur b).2 ns.
Proof.
  induction 1 as [|s ss Hs _ IH]; intros cur b.
  - exists []. split; [by rewrite app_nil_r|apply fresh_names_refl].
  - rewrite visit_stmts_cons.
    destruct (Hs cur b) as (ns1 & N1 & F1).
    destruct (IH (visit s cur b).1 (visit s cur b).2) as (ns2 & N2 & F2).
    exists (ns1 ++ ns2). split.
    + by rewrite N2, N1, app_assoc.
    + by eapply fresh_names_trans.
Qed.

Lemma names_ok_all s : names_ok s.
Proof.
  induction s as [id e|id|id|e p|f g IHf IHg|body IHb]
    using Stmt_ind_nested; intros cur b.
  - apply (names_atom "assign"). set_solver +.
  - apply (names_atom "read"). set_solver +.
  - apply (names_atom "use"). set_solver +.
  - apply (names_atom "assume"). set_solver +.
  - rewrite visit_split_eq.
    destruct (names_stmts_of f IHf cur b) as (ns1 & N1 & F1).
    destruct (visit_stmts f cur b) as [e1 b1]. cbn [fst snd] in *.
    destruct (names_stmts_of g IHg cur b1) as (ns2 & N2 & F2).
    destruct (visit_stmts g cur b1) as [e2 b2]. cbn [fst snd] in *.
    destruct (fresh_names_build "split_join" false None b2) as [F3 N3];
      [set_solver +|].
    destruct (build_node "split_join" false None b2) as [j b3].
    cbn [fst snd] in *. exists (ns1 ++ ns2 ++ [j]). split.
    + simpl. by rewrite N3, N2, N1, <- !app_assoc.
    + apply fresh_names_register.
      eapply fresh_names_trans; [exact F1|].
      eapply fresh_names_trans; [exact F2|exact F3].
  - rewrite visit_loop_eq.
    destruct (fresh_names_build "loop_start" true None b) as [F1 N1];
      [set_solver +|].
    destruct (build_node "loop_start" true None b) as [ls b1].
    cbn [fst snd] in *.
    destruct (names_stmts_of body IHb ls b1) as (ns2 & N2 & F2).
    destruct (visit_stmts body ls b1) as [e1 b2]. cbn [fst snd] in *.
    destruct (fresh_names_build "loop_join" false None b2) as [F3 N3];
      [set_solver +|].
    destruct (build_node "loop_join" false None b2) as [j b3].
    cbn [fst snd] in *. exists (ns2 ++ [ls; j]). split.
    + simpl. by rewrite N3, N2, N1, <- !app_assoc.
    + do 2 apply fresh_names_register.
      apply (fresh_names_perm _ _ ([ls] ++ ns2 ++ [j])).
      * simpl. rewrite (Permutation_app_comm ns2 [ls; j]). simpl.
        apply perm_skip. by rewrite Permutation_app_comm.
      * eapply fresh_names_trans; [exact F1|].
        eapply fresh_names_trans; [exact F2|exact F3].
Qed.

(** No two nodes of the graph of a program carry the same name; so two
    nodes of the graph that are equal as values are the same node. *)
Lemma cfg_node_names_distinct (prgm : Program) (kc : gmap string nat) :
  NoDup (name <$> nodes (visit_program prgm kc)).
Proof.
  rewrite visit_program_eq. cbn [nodes]. unfold start_node.
  destruct (fresh_names_build "start" false None
    {| self_nodes := []; self_edges := []; key_counter := kc |})
    as [F0 N0]; [set_solver +|].
  destruct (build_node "start" false None _) as [start b0].
  cbn [fst snd] in *.
  destruct (names_stmts_of (stmts prgm)) with (cur := start) (b := b0)
    as (ns & N & F).
  { apply Forall_forall. intros s _. apply names_ok_all. }
  rewrite N, N0. simpl.
  pose proof (fresh_names_trans _ _ _ _ _ F0 F) as [_ _ D].
  rewrite fmap_app. simpl in *.
  by rewrite <- Permutation_cons_append.
Qed.

(** C6.  In the graph of any program, built from any state of the key
    counter, the nodes carry pairwise distinct names; the start node is a
    node; among the nodes it is the only one without an incoming edge; every
    node is reachable from it; and both ends of every edge are nodes of the
    graph. *)
Theorem cfg_single_entry_all_reachable (prgm : Program)
    (kc : gmap string nat) :
  let g := visit_program prgm kc in
  let start := (start_node kc).1 in
  NoDup (name <$> nodes g)
  ∧ start ∈ nodes g
  ∧ (∀ n, n ∈ nodes g → (¬ has_incoming g n ↔ n = start))
  ∧ (∀ n, n ∈ nodes g → reachable g start n)
  ∧ (∀ a b, edge g a b → a ∈ nodes g ∧ b ∈ nodes g).
Proof.
  intros g start. split; [apply cfg_node_names_distinct|].
  subst g. rewrite visit_program_eq.
  destruct (visit_stmts_ok (stmts prgm) (start_node kc).1 (start_node kc).2)
    as (ns & es & [N E _ _ R I T S St]).
  unfold has_incoming, reachable, edge. cbn [nodes edges]. rewrite N, E.
  assert (Hb0 : self_nodes (start_node kc).2 = []
                ∧ self_edges (start_node kc).2 = []
                ∧ is_start_name (name start) = true).
  { subst start. unfold start_node.
    by destruct (build_node_spec "start" false None
      {| self_nodes := []; self_edges := []; key_counter := kc |})
      as [k ->]. }
  destruct Hb0 as (-> & -> & Hstart). simpl.
  assert (start ∉ ns) as Hns.
  { intros Hin%St. congruence. }
  split_and!.
  - set_solver +.
  - intros n [Hn| ->%list_elem_of_singleton]%elem_of_app.
    + split; [|by intros ->]. intros []. by apply I.
    + split; [done|]. intros _ [a Ha]. by apply T in Ha.
  - intros n [Hn| ->%list_elem_of_singleton]%elem_of_app; [by apply R|done].
  - intros a b Hab. split.
    + destruct (S _ Hab) as [Ha|Ha]; simpl in Ha; [rewrite Ha|];
        set_solver.
    + apply T in Hab. set_solver.
Qed.

(** The widening points of the nodes a walk adds are loop entries. *)
Lemma widening_stmts_of ss :
  Forall widening_ok ss →
  ∀ cur b m,
    m ∈ self_nodes (visit_stmts ss cur b).2 → is_widening_point m = true →
    widening_from_loops ss cur b m.
Proof.
  induction 1 as [|s ss Hs _ IH]; intros cur b m.
  - by left.
  - rewrite visit_stmts_cons.
    intros Hm Hw. destruct (IH _ _ _ Hm Hw) as [Hin|(body & c0 & b0 & Hc & ->)].
    + by apply Hs.
    + right. exists body, c0, b0. split; [by apply calls_next|done].
Qed.

Lemma widening_ok_all s : widening_ok s.
Proof.
  induction s as [id e|id|id|e p|f g IHf IHg|body IHb]
    using Stmt_ind_nested; intros rest cur b m.
  - destruct (extends_atom "assign" (AssignStmt id e) cur b)
      as (n & [N _ _ _ _ _ _ _ _] & _ & Hw & _); [done|].
    change (visit_atom "assign" (AssignStmt id e) cur b)
      with (visit (AssignStmt id e) cur b) in N. rewrite N.
    intros [?| ->%list_elem_of_singleton]%elem_of_app ?;
      [by left|congruence].
  - destruct (extends_atom "read" (ReadStmt id) cur b)
      as (n & [N _ _ _ _ _ _ _ _] & _ & Hw & _); [done|].
    change (visit_atom "read" (ReadStmt id) cur b)
      with (visit (ReadStmt id) cur b) in N. rewrite N.
    intros [?| ->%list_elem_of_singleton]%elem_of_app ?;
      [by left|congruence].
  - destruct (extends_atom "use" (UseStmt id) cur b)
      as (n & [N _ _ _ _ _ _ _ _] & _ & Hw & _); [done|].
    change (visit_atom "use" (UseStmt id) cur b)
      with (visit (UseStmt id) cur b) in N. rewrite N.
    intros [?| ->%list_elem_of_singleton]%elem_of_app ?;
      [by left|congruence].
  - destruct (extends_atom "assume" (AssumeStmt e p) cur b)
      as (n & [N _ _ _ _ _ _ _ _] & _ & Hw & _); [done|].
    change (visit_atom "assume" (AssumeStmt e p) cur b)
      with (visit (AssumeStmt e p) cur b) in N. rewrite N.
    intros [?| ->%list_elem_of_singleton]%elem_of_app ?;
      [by left|congruence].
  - destruct (visit_split_parts f g cur b) as (_ & _ & _ & _ & N & Hw & _).
    rewrite N.
    intros [Hm| ->%list_elem_of_singleton]%elem_of_app Hwm; [|congruence].
    destruct (widening_stmts_of g IHg _ _ _ Hm Hwm)
      as [Hin|(body & c0 & b0 & Hc & ->)].
    + destruct (widening_stmts_of f IHf _ _ _ Hin Hwm)
        as [?|(body & c0 & b0 & Hc & ->)]; [by left|].
      right. exists body, c0, b0. split; [by apply calls_split_fst|done].
    + right. exists body, c0, b0. split; [by apply calls_split_snd|done].
  - destruct (visit_loop_parts body cur b)
      as (_ & N1 & _ & _ & _ & N & _ & _ & Hw & _).
    rewrite N.
    intros [Hm|Hm]%elem_of_app Hwm.
    + destruct (widening_stmts_of body IHb _ _ _ Hm Hwm)
        as [Hin|(body' & c0 & b0 & Hc & ->)].
      * left. by rewrite <- N1.
      * right. exists body', c0, b0. split; [by apply calls_loop|done].
    + assert (m = loop_entry b ∨ m = loop_join body cur b) as [->| ->]
        by set_solver; [|congruence].
      right. exists body, cur, b. split; [apply calls_here|done].
Qed.

(** C5.  Every loop statement the builder visits is lowered to an entry node
    that is a widening point, with an edge from the node the loop is visited
    from to the entry, the body lowered from the entry (a path in the graph
    from the entry to the node the body ends at) and an edge from that end
    back to the entry, and an edge from the entry to a join node that is what
    the visit returns; and a node of the graph is a widening point exactly
    when it is the entry node of a loop statement the builder visited. *)
Theorem loops_have_widening_entries (prgm : Program) (kc : gmap string nat) :
  let g := visit_program prgm kc in
  (∀ body start b0,
     program_calls prgm kc (LoopStmt body) start b0 →
     let entry := loop_entry b0 in
     let join := loop_join body start b0 in
     entry ∈ nodes g ∧ join ∈ nodes g
     ∧ is_widening_point entry = true ∧ node entry = None
     ∧ is_widening_point join = false ∧ node join = None
     ∧ edge g start entry
     ∧ reachable g entry (loop_end body b0)
     ∧ edge g (loop_end body b0) entry
     ∧ edge g entry join)
  ∧ (∀ n, n ∈ nodes g →
       (is_widening_point n = true
        ↔ ∃ body start b0,
            program_calls prgm kc (LoopStmt body) start b0
            ∧ n = loop_entry b0)).
Proof.
  intros g.
  assert (Hloops : ∀ body start b0,
     program_calls prgm kc (LoopStmt body) start b0 →
     loop_entry b0 ∈ nodes g ∧ loop_join body start b0 ∈ nodes g
     ∧ is_widening_point (loop_entry b0) = true ∧ node (loop_entry b0) = None
     ∧ is_widening_point (loop_join body start b0) = false
     ∧ node (loop_join body start b0) = None
     ∧ edge g start (loop_entry b0)
     ∧ reachable g (loop_entry b0) (loop_end body b0)
     ∧ edge g (loop_end body b0) (loop_entry b0)
     ∧ edge g (loop_entry b0) (loop_join body start b0)).
  { intros body start b0 [Hn He]%program_calls_grows.
    destruct (visit_loop_parts body start b0)
      as ([_ G] & _ & E1 & E2 & E3 & N & W1 & O1 & W2 & O2).
    split_and!; try done.
    - apply Hn. rewrite N. set_solver +.
    - apply Hn. rewrite N. set_solver +.
    - by apply He.
    - eapply rtc_subrel; [|apply visit_stmts_path].
      intros x y Hxy. apply He, G, Hxy.
    - by apply He.
    - by apply He. }
  split; [exact Hloops|].
  intros n Hn. split.
  - intros Hw. subst g. rewrite visit_program_eq in Hn. cbn [nodes] in Hn.
    apply elem_of_app in Hn as [Hn| ->%list_elem_of_singleton].
    + destruct (widening_stmts_of (stmts prgm)) with (3 := Hw) (2 := Hn)
        as [Hin|(body & c0 & b0 & Hc & ->)].
      * apply Forall_forall. intros s _. apply widening_ok_all.
      * unfold start_node in Hin.
        destruct (build_node_spec "start" false None
          {| self_nodes := []; self_edges := []; key_counter := kc |})
          as [k Hk]. rewrite Hk in Hin. by apply elem_of_nil in Hin.
      * eauto.
    + unfold start_node in Hw.
      destruct (build_node_spec "start" false None
        {| self_nodes := []; self_edges := []; key_counter := kc |})
        as [k Hk]. by rewrite Hk in Hw.
  - intros (body & start & b0 & Hc & ->). by apply (Hloops body start b0).
Qed.

(** The builder's part in the lowering of conditionals.  A split statement
    whose branches start with
    assume statements is lowered to two assume nodes, each with an edge from
    the node the split is visited from; each branch is a path from its
    assume node to its last node; and the last nodes of both branches have an
    edge to the join node that the visit returns. *)
Lemma split_lowering prgm kc c1 p1 thn c2 p2 els start b0 :
  let g := visit_program prgm kc in
  let f := AssumeStmt c1 p1 :: thn in
  let h := AssumeStmt c2 p2 :: els in
  program_calls prgm kc (SplitStmt f h) start b0 →
  node (fst_head f start b0) = Some (AssumeStmt c1 p1)
  ∧ node (snd_head f h start b0) = Some (AssumeStmt c2 p2)
  ∧ edge g start (fst_head f start b0)
  ∧ edge g start (snd_head f h start b0)
  ∧ reachable g (fst_head f start b0) (fst_end f start b0)
  ∧ reachable g (snd_head f h start b0) (snd_end f h start b0)
  ∧ edge g (fst_end f start b0) (split_join f h start b0)
  ∧ edge g (snd_end f h start b0) (split_join f h start b0)
  ∧ split_join f h start b0 ∈ nodes g
  ∧ node (split_join f h start b0) = None
  ∧ is_widening_point (split_join f h start b0) = false.
Proof.
  intros g f h [Hn He]%program_calls_grows.
  destruct (visit_split_parts f h start b0)
    as ([_ G1] & [_ G2] & E1 & E2 & N & W & O).
  assert (Hbranch : ∀ c p rest b,
    let a := (visit (AssumeStmt c p) start b).1 in
    let b' := (visit_stmts (AssumeStmt c p :: rest) start b).2 in
    node a = Some (AssumeStmt c p)
    ∧ edge_in (self_edges b') start a
    ∧ rtc (edge_in (self_edges b')) a
        (visit_stmts (AssumeStmt c p :: rest) start b).1).
  { intros c p rest b a b'. subst a b'. rewrite visit_stmts_cons.
    destruct (extends_atom "assume" (AssumeStmt c p) start b)
      as (n & E & Hn' & _ & Ho); [done|].
    change (visit_atom "assume" (AssumeStmt c p) start b)
      with (visit (AssumeStmt c p) start b) in *.
    rewrite <- Hn'. apply extends_grows in E as [_ Hes].
    split_and!; [done| |apply visit_stmts_path].
    apply (visit_stmts_grows rest n (visit (AssumeStmt c p) start b).2).
    apply Hes. set_solver +. }
  destruct (Hbranch c1 p1 thn b0) as (O1 & S1 & P1).
  destruct (Hbranch c2 p2 els (visit_stmts f start b0).2) as (O2 & S2 & P2).
  split_and!; try done.
  - by apply He, G1.
  - by apply He, G2.
  - eapply rtc_subrel; [|exact P1]. intros x y Hxy. by apply He, G1.
  - eapply rtc_subrel; [|exact P2]. intros x y Hxy. by apply He, G2.
  - by apply He.
  - by apply He.
  - apply Hn. rewrite N. set_solver +.
Qed.

End cfg_facts.

(** ** The frontend and the conditionals it builds *)

Section frontend_facts.
Import CFGBuilder.
Context {int_of_text : Lal.IntOfText}.

Lemma bind_Ok {A B} (r : result A) (k : A → result B) (v : B) :
  bind r k = Ok v → ∃ a, r = Ok a ∧ k a = Ok v.
Proof. destruct r as [a|e]; simpl; [eauto|done]. Qed.

Lemma LStmt_ind_nested (P : Lal.LStmt → Prop) :
  (∀ d r e, P (Lal.LAssignStmt d r e)) →
  (∀ c f g, Forall P f → Forall P g → P (Lal.IfStmt c f g)) →
  P Lal.CaseStmt →
  (∀ body, Forall P body → P (Lal.LLoopStmt body)) →
  (∀ c body, Forall P body → P (Lal.WhileLoopStmt c body)) →
  P Lal.ForLoopStmt → P Lal.ExceptionHandler → P Lal.OtherStmt →
  ∀ s, P s.
Proof.
  intros Ha Hi Hc Hl Hw Hf He Ho.
  fix IH 1. intros [d r e|c f g| |body|c body| | |];
    [apply Ha| |exact Hc| | |exact Hf|exact He|exact Ho].
  - apply Hi.
    + induction f as [|s f IHf]; constructor; [apply IH|apply IHf].
    + induction g as [|s g IHg]; constructor; [apply IH|apply IHg].
  - apply Hl. induction body as [|s body IHb]; constructor;
      [apply IH|apply IHb].
  - apply Hw. induction body as [|s body IHb]; constructor;
      [apply IH|apply IHb].
Qed.

Section with_var_decls.
Context (var_decls : gmap (nat * string) Expr).

Local Abbreviation seeding := Lal.seeding.
Local Abbreviation stmt_seeded := (Lal.stmt_seeded var_decls).

Lemma split_seeded cond hint thn els :
  type_hint cond = Some hint →
  Forall Lal.seeded thn → Forall Lal.seeded els →
  Forall Lal.seeded
    [SplitStmt (AssumeStmt cond None :: thn)
       (AssumeStmt (UnExpr "!" cond (Some hint)) None :: els)].
Proof. intros. repeat constructor; done. Qed.

Lemma transform_expr_seeded e :
  ∀ ctx r, seeding ctx →
    Lal.transform_expr var_decls e ctx = Ok r → Forall Lal.seeded r.
Proof.
  induction e as [e IH|l IHl op r IHr tv|op e IH tv|c IHc t IHt e IHe
    |text ref|text tv|tv|p IH tv|p IH attr tv| |]; intros ctx res Hctx; simpl.
  - by apply IH.
  - apply IHl. intros lhs r1. apply IHr. intros rhs r2.
    intros (o & _ & Hr)%bind_Ok. by eapply Hctx.
  - apply IH. intros operand r1. intros (o & _ & Hr)%bind_Ok.
    by eapply Hctx.
  - apply IHc. intros cond r1. apply IHt. intros thn r2.
    apply IHe. intros els r3.
    intros (hint & Hh & (ts & Hts & (es & Hes & [= <-])%bind_Ok)%bind_Ok)
      %bind_Ok.
    apply split_seeded; [|by eapply Hctx..].
    unfold getattr in Hh. by destruct (type_hint cond) as [h|]; simplify_eq.
  - destruct ref as [decl|h| |]; [| |done..].
    + intros (v & _ & Hr)%bind_Ok. by eapply Hctx.
    + apply Hctx.
  - destruct (Lal.int_ text) as [value|]; [apply Hctx|done].
  - apply Hctx.
  - apply IH. intros prefix r1. apply Hctx.
  - case_bool_decide; [|done]. apply IH. intros prefix r1. apply Hctx.
  - done.
  - done.
Qed.

Lemma transform_stmts_seeded_of ss :
  Forall stmt_seeded ss →
  ∀ r, Lal.transform_stmts var_decls ss = Ok r → Forall Lal.seeded r.
Proof.
  induction 1 as [|s ss Hs _ IH]; intros r; simpl.
  - by intros [= <-].
  - intros (r1 & H1 & (r2 & H2 & [= <-])%bind_Ok)%bind_Ok.
    apply Forall_app. split; [by apply Hs|by apply IH].
Qed.

Lemma transform_stmt_seeded s : stmt_seeded s.
Proof.
  induction s as [d r e|c f g IHf IHg| |body IHb|c body IHb| | |]
    using LStmt_ind_nested; intros res.
  - apply transform_expr_seeded. intros x r1.
    intros (v & _ & [= <-])%bind_Ok. repeat constructor.
  - apply transform_expr_seeded. intros cond r1.
    intros (hint & Hh & (ts & Hts & (es & Hes & [= <-])%bind_Ok)%bind_Ok)
      %bind_Ok.
    apply split_seeded.
    + unfold getattr in Hh.
      by destruct (type_hint cond) as [h|]; simplify_eq.
    + by apply (transform_stmts_seeded_of f IHf).
    + by apply (transform_stmts_seeded_of g IHg).
  - intros [= <-]. constructor.
  - intros (b & Hb & [= <-])%bind_Ok. repeat constructor.
    by apply (transform_stmts_seeded_of body IHb).
  - apply transform_expr_seeded. intros cond r1.
    intros (b & Hb & [= <-])%bind_Ok. repeat constructor.
    by apply (transform_stmts_seeded_of body IHb).
  - intros [= <-]. constructor.
  - intros [= <-]. constructor.
  - done.
Qed.

Lemma transform_stmts_seeded ss r :
  Lal.transform_stmts var_decls ss = Ok r → Forall Lal.seeded r.
Proof.
  apply transform_stmts_seeded_of, Forall_forall. intros s _.
  apply transform_stmt_seeded.
Qed.

End with_var_decls.

Lemma transform_decl_seeded d vd r vd' :
  Lal.transform_decl d vd = (Ok r, vd') → Forall Lal.seeded r.
Proof.
  destruct d as [| |decl ids tdecl [default|]|]; simpl; try done.
  - intros [= <- _]. constructor.
  - intros [= <- _]. constructor.
  - intros [= H _]. revert H. apply transform_expr_seeded.
    intros x r1 (vs & _ & [= <-])%bind_Ok.
    apply Forall_fmap, Forall_forall. intros v _. constructor.
  - intros [= H _]. apply bind_Ok in H as (vs & _ & [= <-]).
    apply Forall_fmap, Forall_forall. intros v _. constructor.
Qed.

Lemma transform_decls_seeded ds vd r vd' :
  Lal.transform_decls ds vd = (Ok r, vd') → Forall Lal.seeded r.
Proof.
  revert vd r vd'. induction ds as [|d ds IH]; intros vd r vd'; simpl.
  - intros [= <- _]. constructor.
  - destruct (Lal.transform_decl d vd) as [[r1|e] vd1] eqn:H1; [|done].
    destruct (Lal.transform_decls ds vd1) as [[r2|e] vd2] eqn:H2; [|done].
    intros [= <- _]. apply Forall_app. split.
    + by eapply transform_decl_seeded.
    + by eapply IH.
Qed.

Lemma gen_ir_seeded subp prgm :
  Lal._gen_ir subp = Ok prgm → Forall Lal.seeded (stmts prgm).
Proof.
  unfold Lal._gen_ir.
  destruct (Lal.transform_decls (Lal.f_decls subp) ∅) as [[ds|e] vd] eqn:Hd;
    [|done].
  intros (ss & Hs & [= <-])%bind_Ok. simpl. apply Forall_app. split.
  - by eapply transform_decls_seeded.
  - by eapply transform_stmts_seeded.
Qed.

(** The statements the builder visits are statements of the program. *)
Lemma calls_seeded ss cur b s c0 b0 :
  calls ss cur b s c0 b0 → Forall Lal.seeded ss → Lal.seeded s.
Proof.
  induction 1 as [stmt rest cur b|stmt rest cur b s c0 b0 _ IH
    |f g rest cur b s c0 b0 _ IH|f g rest cur b s c0 b0 _ IH
    |body rest cur b s c0 b0 _ IH]; intros Hall;
    apply Forall_cons in Hall as [Hhd Htl].
  - done.
  - by apply IH.
  - apply IH. inversion Hhd; subst. repeat constructor; done.
  - apply IH. inversion Hhd; subst. repeat constructor; done.
  - apply IH. by inversion Hhd.
Qed.

(** C3.  In the graph of a program that the frontend built, for every split
    statement the builder visits: the two branches of the statement start
    with the assumption of a condition and with the assumption of its
    negation; these two assumptions are lowered to nodes that each have an
    edge from the node the split is visited from; each branch is lowered to
    a path from its assume node to the last node of the branch; and the last
    nodes of both branches have an edge to one join node, which carries no
    statement and is what the visit returns. *)
Theorem splits_branch_on_assumes_and_rejoin (subp : Lal.SubpBody)
    (prgm : Program) (kc : gmap string nat) (f h : list Stmt)
    (start : Node) (b0 : Builder) :
  Lal._gen_ir subp = Ok prgm →
  program_calls prgm kc (SplitStmt f h) start b0 →
  let g := visit_program prgm kc in
  ∃ cond hint thn els,
    f = AssumeStmt cond None :: thn
    ∧ h = AssumeStmt (UnExpr "!" cond (Some hint)) None :: els
    ∧ type_hint cond = Some hint
    ∧ node (fst_head f start b0) = Some (AssumeStmt cond None)
    ∧ node (snd_head f h start b0)
      = Some (AssumeStmt (UnExpr "!" cond (Some hint)) None)
    ∧ edge g start (fst_head f start b0)
    ∧ edge g start (snd_head f h start b0)
    ∧ reachable g (fst_head f start b0) (fst_end f start b0)
    ∧ reachable g (snd_head f h start b0) (snd_end f h start b0)
    ∧ edge g (fst_end f start b0) (split_join f h start b0)
    ∧ edge g (snd_end f h start b0) (split_join f h start b0)
    ∧ split_join f h start b0 ∈ nodes g
    ∧ node (split_join f h start b0) = None
    ∧ is_widening_point (split_join f h start b0) = false.
Proof.
  intros Hgen Hcalls g.
  pose proof (calls_seeded _ _ _ _ _ _ Hcalls (gen_ir_seeded _ _ Hgen)) as Hs.
  inversion Hs as [| | | |cond hint thn els Hh Ht He [Hf Hg]|]; subst.
  exists cond, hint, thn, els. do 3 (split; [done|]).
  by apply (split_lowering prgm kc).
Qed.

End frontend_facts.

(** ** The definitions on concrete inputs *)

Section examples.
Import CFGBuilder Examples.

Example gen_ir_if : Lal._gen_ir subp_if = Ok prog_if.
Proof. vm_compute. reflexivity. Qed.

Example cfg_if :
  names (visit_program prog_if ∅)
    = ["read0"; "assume0"; "assume1"; "split_join0"; "start0"]
  ∧ links (visit_program prog_if ∅)
    = [("start0", "read0"); ("read0", "assume0"); ("read0", "assume1");
       ("assume0", "split_join0"); ("assume1", "split_join0")].
Proof. split; vm_compute; reflexivity. Qed.

Example cfg_loop :
  names (visit_program prog_loop ∅)
    = ["read0"; "loop_start0"; "loop_join0"; "start0"]
  ∧ links (visit_program prog_loop ∅)
    = [("loop_start0", "read0"); ("start0", "loop_start0");
       ("read0", "loop_start0"); ("loop_start0", "loop_join0")].
Proof. split; vm_compute; reflexivity. Qed.

(** A split statement without branches, which the frontend never builds, is
    lowered to two edges from the node before it to the join node. *)
Example cfg_bare_split :
  links (visit_program {| stmts := [SplitStmt [] []] |} ∅)
    = [("start0", "split_join0"); ("start0", "split_join0")].
Proof. vm_compute. reflexivity. Qed.

(** C3, as stated for every split statement, fails: the builder lowers the
    two branches as they stand and adds no assumption of its own.  In the
    graph of a split statement with empty branches, which the builder visits
    from the start node, no node with an edge from the start node carries an
    assume statement (the only such node is the join node), so the branches
    do not start with the assumption of a condition and of its negation. *)
Lemma bare_split_has_no_assume_nodes :
  let f : list Stmt := [] in
  let h : list Stmt := [] in
  let prgm := {| stmts := [SplitStmt f h] |} in
  let g := visit_program prgm ∅ in
  let start := (start_node ∅).1 in
  let b0 := (start_node ∅).2 in
  program_calls prgm ∅ (SplitStmt f h) start b0
  ∧ ¬ (∃ n cond purpose,
         edge g start n ∧ node n = Some (AssumeStmt cond purpose))
  ∧ ¬ (∃ cond hint thn els,
         f = AssumeStmt cond None :: thn
         ∧ h = AssumeStmt (UnExpr "!" cond (Some hint)) None :: els
         ∧ type_hint cond = Some hint
         ∧ node (fst_head f start b0) = Some (AssumeStmt cond None)
         ∧ node (snd_head f h start b0)
           = Some (AssumeStmt (UnExpr "!" cond (Some hint)) None)
         ∧ edge g start (fst_head f start b0)
         ∧ edge g start (snd_head f h start b0)
         ∧ reachable g (fst_head f start b0) (fst_end f start b0)
         ∧ reachable g (snd_head f h start b0) (snd_end f h start b0)
         ∧ edge g (fst_end f start b0) (split_join f h start b0)
         ∧ edge g (snd_end f h start b0) (split_join f h start b0)
         ∧ split_join f h start b0 ∈ nodes g
         ∧ node (split_join f h start b0) = None
         ∧ is_widening_point (split_join f h start b0) = false).
Proof.
  intros f h prgm g start b0. split_and!.
  - apply calls_here.
  - intros (n & cond & purpose & He & Hn).
    assert (Forall (λ e, node (to e) = None) (edges g)) as Hall
      by (vm_compute; repeat constructor).
    rewrite Forall_forall in Hall. apply Hall in He. simpl in He.
    congruence.
  - intros (cond & hint & thn & els & Hf & _). discriminate Hf.
Qed.

Example of_missing_provider :
  (of_ [prog_not] init).1
    = Raise (LookupError "No provider for '!' (dom1, dom1)").
Proof. vm_compute. reflexivity. Qed.

Example find_null_derefs_sample :
  Checkers.diagnostics
    (Checkers.find_null_derefs false deref_checks eval_expr_at tt)
  = [(7, Sample.x, true); (8, Sample.x, false)].
Proof. vm_compute. reflexivity. Qed.

Lemma splits_branch_on_assumes_and_rejoin_witness :
  let f := [AssumeStmt Sample.x None] in
  let h := [AssumeStmt Sample.not_x None] in
  let start := (visit (ReadStmt Sample.x) (start_node ∅).1 (start_node ∅).2).1 in
  let b0 := (visit (ReadStmt Sample.x) (start_node ∅).1 (start_node ∅).2).2 in
  let g := visit_program prog_if ∅ in
  ∃ cond hint thn els,
    f = AssumeStmt cond None :: thn
    ∧ h = AssumeStmt (UnExpr "!" cond (Some hint)) None :: els
    ∧ type_hint cond = Some hint
    ∧ node (fst_head f start b0) = Some (AssumeStmt cond None)
    ∧ node (snd_head f h start b0)
      = Some (AssumeStmt (UnExpr "!" cond (Some hint)) None)
    ∧ edge g start (fst_head f start b0)
    ∧ edge g start (snd_head f h start b0)
    ∧ reachable g (fst_head f start b0) (fst_end f start b0)
    ∧ reachable g (snd_head f h start b0) (snd_end f h start b0)
    ∧ edge g (fst_end f start b0) (split_join f h start b0)
    ∧ edge g (snd_end f h start b0) (split_join f h start b0)
    ∧ split_join f h start b0 ∈ nodes g
    ∧ node (split_join f h start b0) = None
    ∧ is_widening_point (split_join f h start b0) = false.
Proof.
  intros f h start b0.
  apply (splits_branch_on_assumes_and_rejoin subp_if prog_if ∅ f h start b0).
  - vm_compute. reflexivity.
  - apply calls_next, calls_here.
Defined.

Lemma loops_have_widening_entries_witness :
  let g := visit_program prog_loop ∅ in
  let start := (start_node ∅).1 in
  let b0 := (start_node ∅).2 in
  let body := [ReadStmt Sample.x] in
  loop_entry b0 ∈ nodes g ∧ loop_join body start b0 ∈ nodes g
  ∧ is_widening_point (loop_entry b0) = true ∧ node (loop_entry b0) = None
  ∧ is_widening_point (loop_join body start b0) = false
  ∧ node (loop_join body start b0) = None
  ∧ edge g start (loop_entry b0)
  ∧ reachable g (loop_entry b0) (loop_end body b0)
  ∧ edge g (loop_end body b0) (loop_entry b0)
  ∧ edge g (loop_entry b0) (loop_join body start b0).
Proof.
  intros g start b0 body.
  apply (proj1 (loops_have_widening_entries prog_loop ∅) body start b0).
  apply calls_here.
Defined.

Lemma cfg_single_entry_all_reachable_witness :
  reachable (visit_program prog_loop ∅) (start_node ∅).1
    {| name := "loop_join0"; is_widening_point := false; node := None |}.
Proof.
  apply (proj1 (proj2 (proj2 (proj2
           (cfg_single_entry_all_reachable prog_loop ∅))))).
  vm_compute. repeat constructor.
Defined.

Lemma missing_provider_raises_lookup_error_witness :
  Models.visit show_signature Sample.not_x
    {| Models.node_domains :=
         [(Sample.not_x, Sample.bools); (Sample.x, Sample.bools)];
       Models.def_providers := [defs];
       Models.inv_def_providers := [inv_defs];
       Models.builders := ∅ |}
  = Raise (LookupError ("No provider for '" +:+ "!" +:+ "' "
                        +:+ show_signature [Sample.bools; Sample.bools])).
Proof.
  apply (proj1 (proj2 (missing_provider_raises_lookup_error
                         (Ty := nat * Hint) typer_from_hint
                         interpreter_from_type show_signature))).
  - vm_compute. reflexivity.
  - vm_compute. reflexivity.
  - left. intros p ->%list_elem_of_singleton. vm_compute. reflexivity.
Defined.

Lemma caches_share_domain_instances_witness :
  ∃ model s' b1 b2,
    of_ [prog_eq] init = (Ok model, s')
    ∧ Models.dict_get model Sample.x = Some b1
    ∧ Models.dict_get model Sample.lit_true = Some b2
    ∧ domain b1 = domain b2 ∧ is_Some (domain b1).
Proof.
  destruct (of_ [prog_eq] init) as [r s'] eqn:Hof.
  assert (∃ model, r = Ok model
                   ∧ is_Some (Models.dict_get model Sample.x)
                   ∧ is_Some (Models.dict_get model Sample.lit_true))
    as (model & -> & [b1 H1] & [b2 H2]).
  { apply (f_equal fst) in Hof. vm_compute in Hof. subst r.
    eexists. split; [reflexivity|]. split; vm_compute; eauto. }
  exists model, s', b1, b2. split_and!; [done..| |];
    by apply (proj2 (proj2 (caches_share_domain_instances typer_from_hint
                              interpreter_from_type show_signature))
                [prog_eq] init model s' Sample.x Sample.lit_true b1 b2).
Defined.

Lemma checkers_report_false_values_witness :
  ∃ node check_expr value,
    (node, check_expr, Sample.x) ∈ deref_checks tt
    ∧ (8, value) ∈ eval_expr_at tt node check_expr
    ∧ Checkers.classifies false value false.
Proof.
  apply (proj1 (checkers_report_false_values false
                  (Analysis := unit) (N := nat) (T := nat)
                  deref_checks (λ _, []) eval_expr_at
                  (λ _, []) (λ _, None) (λ _ _, []) (λ _ _ _, []) tt)).
  vm_compute. repeat constructor.
Defined.

End examples.

(** * Further properties of the tools *)

(** ** The evaluator and the solver on well-formed inputs *)

Section shape_facts.
Context {V : Type} (model : Expr → option (Bunch V)).

Local Abbreviation visit := (ExprSolver.visit model).
Local Abbreviation eval := (ExprEvaluator.eval model).
Local Abbreviation modelled := (Shape.modelled model).

(** X1.  The evaluator reads nothing but the identifiers that occur in the
    expression: two environments that agree on them give the same result,
    the same exception included. *)
Theorem eval_reads_only_its_identifiers (e : Expr)
    (env1 env2 : gmap (string * nat) V) :
  (∀ k, k ∈ Shape.idents e → env1 !! k = env2 !! k) →
  eval e env1 = eval e env2.
Proof.
  induction e as [name decl h|val h|op e IH h|l IHl op r IHr h]; simpl;
    intros Hagree.
  - unfold getitem. rewrite Hagree; [done|]. set_solver +.
  - done.
  - by rewrite IH.
  - rewrite IHl, IHr; [done|intros k Hk; apply Hagree; set_solver..].
Qed.

Lemma eval_Ok_bound (e : Expr) (env : gmap (string * nat) V) :
  (∃ v, eval e env = Ok v) → Shape.bound env e.
Proof.
  induction e as [name decl h|val h|op e IH h|l IHl op r IHr h]; simpl;
    intros [v Hv] k Hk.
  - apply list_elem_of_singleton in Hk as ->. unfold getitem in Hv.
    destruct (env !! (name, decl)); [eauto|done].
  - by apply elem_of_nil in Hk.
  - destruct (eval e env) as [x|] eqn:He; [|done]. apply IH; eauto.
  - destruct (eval l env) as [x|] eqn:Hl; [|done].
    destruct (eval r env) as [y|] eqn:Hr; [|done].
    apply elem_of_app in Hk as [Hk|Hk]; [apply IHl|apply IHr]; eauto.
Qed.

Lemma eval_modelled_Ok (e : Expr) (env : gmap (string * nat) V) :
  modelled e → Shape.bound env e → ∃ v, eval e env = Ok v.
Proof.
  induction e as [name decl h|val h|op e IH h|l IHl op r IHr h]; simpl;
    intros Hm Hb.
  - destruct (Hb (name, decl)) as [v Hv]; [set_solver +|].
    exists v. unfold getitem. by rewrite Hv.
  - destruct Hm as (b & dom & build & Hb' & _ & Hbuild).
    unfold getitem. rewrite Hb'. simpl. rewrite Hbuild. simpl. eauto.
  - destruct Hm as [(b & f & g & Hb' & Hf & _) Hm].
    destruct (IH Hm Hb) as [x ->]. simpl.
    unfold getitem. rewrite Hb'. simpl. rewrite Hf. simpl. eauto.
  - destruct Hm as [(b & f & g & Hb' & Hf & _) [Hml Hmr]].
    destruct (IHl Hml) as [x ->]; [intros k Hk; apply Hb; set_solver|].
    destruct (IHr Hmr) as [y ->]; [intros k Hk; apply Hb; set_solver|].
    simpl. unfold getitem. rewrite Hb'. simpl. rewrite Hf. simpl. eauto.
Qed.

(** X2.  On an expression every node of which has a meaning in the model,
    evaluation returns a value exactly when the environment binds every
    identifier of the expression; without the model, a returned value still
    means that they are all bound. *)
Theorem eval_returns_iff_bound (e : Expr) (env : gmap (string * nat) V) :
  ((∃ v, eval e env = Ok v) → Shape.bound env e)
  ∧ (modelled e → Shape.bound env e → ∃ v, eval e env = Ok v).
Proof. split; [apply eval_Ok_bound|apply eval_modelled_Ok]. Qed.

Lemma visit_frame (e : Expr) (env : gmap (string * nat) V) (expected : V) :
  dom (visit e env expected).2 = dom env
  ∧ ∀ k, k ∉ Shape.idents e → (visit e env expected).2 !! k = env !! k.
Proof.
  revert env expected.
  induction e as [name decl h|val h|op e IH h|l IHl op r IHr h];
    intros env expected.
  - simpl. unfold ExprSolver.visit_ident.
    destruct (b ←' getitem model _; getattr (domain b)); [|done].
    unfold getitem. destruct (env !! (name, decl)) as [cur|] eqn:Hc;
      [|done]. simpl. split.
    + rewrite dom_insert_L. apply elem_of_dom_2 in Hc. set_solver.
    + intros k Hk. rewrite lookup_insert_ne; [done|]. set_solver.
  - simpl. rewrite visit_lit_env. done.
  - simpl. destruct (_ ←' eval e env; _) as [[x|]|]; [|done..].
    apply IH.
  - simpl. destruct (_ ←' eval l env; _) as [[[el er]|]|]; [|done..].
    destruct (IHl env el) as [Dl Fl].
    destruct (visit l env el) as [[[]|x] env1]; simpl in *.
    + destruct (IHr env1 er) as [Dr Fr]. split; [congruence|].
      intros k Hk. rewrite Fr, Fl; [done|set_solver..].
    + split; [done|]. intros k Hk. apply Fl. set_solver.
    + split; [done|]. intros k Hk. apply Fl. set_solver.
Qed.

(** X3.  A visit of the solver never adds or removes a key of the
    dictionary, and leaves alone every key that is not an identifier of the
    expression, whatever the model and also when it raises; on an expression
    without identifiers the dictionary is unchanged. *)
Theorem visit_touches_only_its_identifiers (e : Expr)
    (env : gmap (string * nat) V) (expected : V) :
  dom (visit e env expected).2 = dom env
  ∧ (∀ k, k ∉ Shape.idents e → (visit e env expected).2 !! k = env !! k)
  ∧ (Shape.idents e = [] → (visit e env expected).2 = env).
Proof.
  destruct (visit_frame e env expected) as [Hd Hf]. split_and!; [done..|].
  intros Hnil. apply map_eq. intros k. apply Hf. rewrite Hnil.
  apply not_elem_of_nil.
Qed.

(** X4.  On an expression every node of which has a meaning in the model,
    in an environment that binds its identifiers, a visit of the solver
    returns a boolean, without exception, and the identifiers are still bound
    afterwards. *)
Theorem visit_returns_on_modelled (e : Expr) (env : gmap (string * nat) V)
    (expected : V) :
  modelled e → Shape.bound env e →
  ∃ feasible env',
    visit e env expected = (Ok feasible, env') ∧ Shape.bound env' e.
Proof.
  revert env expected.
  induction e as [name decl h|val h|op e IH h|l IHl op r IHr h];
    intros env expected Hm Hb.
  - destruct Hm as (b & dom & Hb' & Hd).
    destruct (Hb (name, decl)) as [cur Hc]; [set_solver +|].
    exists true, (<[(name, decl) := meet dom cur expected]> env). split.
    + simpl. unfold ExprSolver.visit_ident, getitem.
      rewrite Hb'. simpl. rewrite Hd. simpl. by rewrite Hc.
    + intros k ->%list_elem_of_singleton. rewrite lookup_insert_eq. eauto.
  - destruct Hm as (b & dom & build & Hb' & Hd & Hbuild).
    eexists _, env. split; [|done].
    simpl. unfold ExprSolver.visit_lit, getitem. simpl. unfold getitem.
    rewrite Hb'. simpl. rewrite Hd, Hbuild. done.
  - destruct Hm as [(b & f & g & Hb' & _ & Hg) Hm].
    destruct (eval_modelled_Ok e env Hm Hb) as [x Hx].
    simpl. rewrite Hx. simpl. unfold getitem at 1. rewrite Hb'. simpl.
    rewrite Hg. simpl. destruct (g expected x) as [y|]; [by apply IH|].
    by exists false, env.
  - destruct Hm as [(b & f & g & Hb' & _ & Hg) [Hml Hmr]].
    assert (Shape.bound env l) as Hbl by (intros k Hk; apply Hb; set_solver).
    assert (Shape.bound env r) as Hbr by (intros k Hk; apply Hb; set_solver).
    destruct (eval_modelled_Ok l env Hml Hbl) as [x Hx].
    destruct (eval_modelled_Ok r env Hmr Hbr) as [y Hy].
    simpl. rewrite Hx, Hy. simpl. unfold getitem at 1. rewrite Hb'. simpl.
    rewrite Hg. simpl. destruct (g expected x y) as [[el er]|].
    + destruct (IHl env el Hml Hbl) as (fl & env1 & Hvl & Hb1).
      pose proof (visit_frame l env el) as (Hdom & _).
      rewrite Hvl in *. simpl in Hdom.
      assert (∀ e', Shape.bound env e' → Shape.bound env1 e') as Hkeep.
      { intros e' He' k Hk. apply elem_of_dom. rewrite Hdom.
        apply elem_of_dom. by apply He'. }
      destruct fl.
      * destruct (IHr env1 er Hmr (Hkeep _ Hbr)) as (fr & env2 & Hvr & Hb2).
        exists fr, env2. split; [done|].
        pose proof (visit_frame r env1 er) as (Hdom2 & _).
        rewrite Hvr in Hdom2. simpl in Hdom2.
        intros k Hk. apply elem_of_dom. rewrite Hdom2, Hdom.
        apply elem_of_dom. by apply Hb.
      * exists false, env1. split; [done|]. by apply Hkeep.
    + by exists false, env.
Qed.

Lemma solve_env_eq (boolean_true : V) (e : Expr)
    (env : gmap (string * nat) V) :
  ExprSolver.solve_env model boolean_true e env
  = match visit e env boolean_true with
    | (Ok true, env') => Ok env'
    | (Ok false, _) => Ok ∅
    | (Raise x, _) => Raise x
    end.
Proof.
  unfold ExprSolver.solve_env.
  destruct (ExprSolver.alloc env ∅) as [l σ] eqn:Ha.
  apply alloc_fresh in Ha as [_ ->].
  unfold ExprSolver.solve, ExprSolver.copy. rewrite lookup_insert_eq.
  destruct (ExprSolver.alloc env (<[l:=env]> ∅)) as [l' σ'] eqn:Ha'.
  apply alloc_fresh in Ha' as [_ ->].
  unfold ExprSolver.visit_at. rewrite lookup_insert_eq.
  destruct (visit e env boolean_true) as [[[]|x] env'].
  - unfold getitem. by rewrite lookup_insert_eq.
  - destruct (ExprSolver.alloc ∅ _) as [l3 σ3] eqn:Ha3.
    apply alloc_fresh in Ha3 as [_ ->].
    unfold getitem. by rewrite lookup_insert_eq.
  - done.
Qed.

Lemma narrows_refl (le : V → V → Prop) `{!PreOrder le}
    (env : gmap (string * nat) V) :
  Shape.narrows le env env.
Proof. split; [done|]. intros k v Hv. by exists v. Qed.

Lemma narrows_trans (le : V → V → Prop) `{!PreOrder le}
    (env1 env2 env3 : gmap (string * nat) V) :
  Shape.narrows le env1 env2 → Shape.narrows le env2 env3 →
  Shape.narrows le env1 env3.
Proof.
  intros [D1 N1] [D2 N2]. split; [congruence|].
  intros k v3 (v2 & H2 & L2)%N2. destruct (N1 _ _ H2) as (v1 & H1 & L1).
  exists v1. split; [done|]. by etrans.
Qed.

Lemma visit_narrows (le : V → V → Prop) `{!PreOrder le} (e : Expr)
    (env : gmap (string * nat) V) (expected : V) :
  Shape.meets_decrease model le →
  Shape.narrows le env (visit e env expected).2.
Proof.
  intros Hdec. revert env expected.
  induction e as [name decl h|val h|op e IH h|l IHl op r IHr h];
    intros env expected.
  - simpl. unfold ExprSolver.visit_ident, getitem.
    destruct (model (Identifier name decl h)) as [b|] eqn:Hb;
      [|apply narrows_refl; done]. simpl.
    destruct (domain b) as [dom|] eqn:Hd; [|apply narrows_refl; done]. simpl.
    destruct (env !! (name, decl)) as [cur|] eqn:Hc;
      [|apply narrows_refl; done]. simpl. split.
    + rewrite dom_insert_L. apply elem_of_dom_2 in Hc. set_solver.
    + intros k v'. destruct (decide ((name, decl) = k)) as [<-|Hne].
      * rewrite lookup_insert_eq. intros [= <-]. exists cur.
        split; [done|]. by eapply Hdec.
      * rewrite lookup_insert_ne by done. intros Hk. by exists v'.
  - simpl. rewrite visit_lit_env. by apply narrows_refl.
  - simpl. destruct (_ ←' eval e env; _) as [[x|]|];
      [apply IH|by apply narrows_refl..].
  - simpl. destruct (_ ←' eval l env; _) as [[[el er]|]|];
      [|by apply narrows_refl..].
    specialize (IHl env el).
    destruct (visit l env el) as [[[]|x] env1]; simpl in *; [|done..].
    eapply narrows_trans; [done|exact IHl|apply IHr].
Qed.

(** X5.  When every meet of the model's domains is below its first argument
    in a preorder, the solver only narrows: after a visit, whatever its
    outcome, the dictionary has the same keys, each bound to a value below
    the one it had; and [solve] returns either the empty dictionary, which
    it does whenever the visit reports infeasible, or such a narrowed copy
    of the environment. *)
Theorem solve_only_narrows (le : V → V → Prop) `{!PreOrder le}
    (boolean_true : V) (e : Expr) (env : gmap (string * nat) V) :
  Shape.meets_decrease model le →
  (∀ expected, Shape.narrows le env (visit e env expected).2)
  ∧ ((visit e env boolean_true).1 = Ok false →
     ExprSolver.solve_env model boolean_true e env = Ok ∅)
  ∧ (∀ r, ExprSolver.solve_env model boolean_true e env = Ok r →
          r = ∅ ∨ Shape.narrows le env r).
Proof.
  intros Hdec. split_and!.
  - intros expected. by apply visit_narrows.
  - rewrite solve_env_eq.
    destruct (visit e env boolean_true) as [[[]|x] env']; simpl; congruence.
  - intros r. rewrite solve_env_eq.
    pose proof (visit_narrows le e env boolean_true Hdec) as Hn.
    destruct (visit e env boolean_true) as [[[]|x] env']; simpl in *;
      intros [= <-]; eauto.
Qed.

End shape_facts.

(** ** The size and the contents of the graph *)

Section cfg_shape_facts.
Import CFGBuilder CFGShape.

Lemma adds_refl b : adds b b 0 0 [].
Proof. exists [], []. by rewrite !app_nil_r. Qed.

Lemma adds_trans b1 b2 b3 n1 e1 c1 n2 e2 c2 :
  adds b1 b2 n1 e1 c1 → adds b2 b3 n2 e2 c2 →
  adds b1 b3 (n1 + n2) (e1 + e2) (c1 ++ c2).
Proof.
  intros (ns1 & es1 & N1 & E1 & <- & <- & <-)
         (ns2 & es2 & N2 & E2 & <- & <- & <-).
  exists (ns1 ++ ns2), (es1 ++ es2).
  rewrite N2, N1, E2, E1, <- !app_assoc, !length_app, omap_app. done.
Qed.

Lemma adds_build nm w o b : adds b (build_node nm w o b).2 0 0 [].
Proof. exists [], []. by rewrite !app_nil_r. Qed.

Lemma adds_register froms n b :
  adds b (register_and_link froms n b) 1 (length froms)
    (option_list (node n)).
Proof.
  eexists [n], _. split_and!; [done|done|done| |].
  - by rewrite length_fmap.
  - simpl. by destruct (node n).
Qed.

Lemma adds_atom nm stmt start b :
  adds b (visit_atom nm stmt start b).2 1 1 [stmt].
Proof.
  unfold visit_atom.
  pose proof (adds_build nm false (Some stmt) b) as A1.
  destruct (build_node_spec nm false (Some stmt) b) as [k Hk].
  rewrite Hk in *. cbn [fst snd] in *.
  exact (adds_trans _ _ _ _ _ _ _ _ _ A1 (adds_register [start] _ _)).
Qed.

Lemma adds_stmts_of ss :
  Forall adds_ok ss →
  ∀ cur b, adds b (visit_stmts ss cur b).2 (sum_list_with count_nodes ss)
             (sum_list_with count_edges ss) (flat_map atoms ss).
Proof.
  induction 1 as [|s ss Hs _ IH]; intros cur b.
  - apply adds_refl.
  - rewrite visit_stmts_cons. simpl.
    eapply adds_trans; [apply Hs|apply IH].
Qed.

Lemma adds_eq b b' n e c n' e' c' :
  adds b b' n e c → n = n' → e = e' → c = c' → adds b b' n' e' c'.
Proof. by intros ? <- <- <-. Qed.

Lemma adds_ok_all s : adds_ok s.
Proof.
  induction s as [id e|id|id|e p|f g IHf IHg|body IHb]
    using Stmt_ind_nested; intros cur b.
  - apply (adds_atom "assign").
  - apply (adds_atom "read").
  - apply (adds_atom "use").
  - apply (adds_atom "assume").
  - rewrite visit_split_eq.
    pose proof (adds_stmts_of f IHf cur b) as A1.
    destruct (visit_stmts f cur b) as [e1 b1]. cbn [fst snd] in *.
    pose proof (adds_stmts_of g IHg cur b1) as A2.
    destruct (visit_stmts g cur b1) as [e2 b2]. cbn [fst snd] in *.
    pose proof (adds_build "split_join" false None b2) as A3.
    destruct (build_node "split_join" false None b2) as [j b3] eqn:Hj.
    assert (node j = None) as Hnode.
    { destruct (build_node_spec "split_join" false None b2) as [k Hk].
      rewrite Hk in Hj. by injection Hj as <- _. }
    cbn [fst snd] in *.
    eapply adds_eq;
      [eapply adds_trans;
        [eapply adds_trans; [eapply adds_trans; [exact A1|exact A2]|exact A3]
        |apply (adds_register [e1; e2] j)]|..].
    + simpl. lia.
    + simpl. lia.
    + rewrite Hnode. simpl. by rewrite !app_nil_r.
  - rewrite visit_loop_eq.
    pose proof (adds_build "loop_start" true None b) as A1.
    destruct (build_node "loop_start" true None b) as [ls b1] eqn:Hls.
    assert (node ls = None) as Hnode1.
    { destruct (build_node_spec "loop_start" true None b) as [k Hk].
      rewrite Hk in Hls. by injection Hls as <- _. }
    cbn [fst snd] in *.
    pose proof (adds_stmts_of body IHb ls b1) as A2.
    destruct (visit_stmts body ls b1) as [e1 b2]. cbn [fst snd] in *.
    pose proof (adds_build "loop_join" false None b2) as A3.
    destruct (build_node "loop_join" false None b2) as [j b3] eqn:Hj.
    assert (node j = None) as Hnode2.
    { destruct (build_node_spec "loop_join" false None b2) as [k Hk].
      rewrite Hk in Hj. by injection Hj as <- _. }
    cbn [fst snd] in *.
    eapply adds_eq;
      [eapply adds_trans;
        [eapply adds_trans;
          [eapply adds_trans;
            [eapply adds_trans; [exact A1|exact A2]|exact A3]
          |apply (adds_register [cur; e1] ls)]
        |apply (adds_register [ls] j)]|..].
    + simpl. lia.
    + simpl. lia.
    + rewrite Hnode1, Hnode2. simpl. by rewrite !app_nil_r.
Qed.

Lemma adds_program prgm kc :
  adds (start_node kc).2
    (visit_stmts (stmts prgm) (start_node kc).1 (start_node kc).2).2
    (sum_list_with count_nodes (stmts prgm))
    (sum_list_with count_edges (stmts prgm))
    (flat_map atoms (stmts prgm)).
Proof.
  apply adds_stmts_of, Forall_forall. intros s _. apply adds_ok_all.
Qed.

(** X6.  The graph of a program has one node per assign, read, use and
    assume statement, one more per split statement, two more per loop
    statement, and the start node; it has one edge per assign, read, use and
    assume statement, two more per split statement and three more per loop
    statement. *)
Theorem cfg_size (prgm : Program) (kc : gmap string nat) :
  length (nodes (visit_program prgm kc))
    = sum_list_with count_nodes (stmts prgm) + 1
  ∧ length (edges (visit_program prgm kc))
    = sum_list_with count_edges (stmts prgm).
Proof.
  rewrite visit_program_eq. cbn [nodes edges].
  destruct (adds_program prgm kc) as (ns & es & -> & -> & <- & <- & _).
  unfold start_node.
  destruct (build_node_spec "start" false None
    {| self_nodes := []; self_edges := []; key_counter := kc |}) as [k ->].
  simpl. rewrite length_app. done.
Qed.

(** X7.  The statements that the nodes of the graph carry, read in the
    order of the node list, are the assign, read, use and assume statements
    of the program in program order: each of them is carried by one node,
    and the nodes built for splits, loops and the start carry none. *)
Theorem cfg_nodes_carry_the_atoms (prgm : Program) (kc : gmap string nat) :
  omap node (nodes (visit_program prgm kc)) = flat_map atoms (stmts prgm).
Proof.
  rewrite visit_program_eq. cbn [nodes].
  destruct (adds_program prgm kc) as (ns & es & -> & _ & _ & _ & <-).
  unfold start_node.
  destruct (build_node_spec "start" false None
    {| self_nodes := []; self_edges := []; key_counter := kc |}) as [k ->].
  simpl. rewrite omap_app. simpl. by rewrite app_nil_r.
Qed.

(** *** Names across programs *)

Lemma program_names_range prgm kc m :
  m ∈ nodes (visit_program prgm kc) →
  ∃ key i, key ∈ all_names ∧ name m = key +:+ pretty i
           ∧ default 0 (kc !! key) ≤ i
             < default 0 (key_counter_after prgm kc !! key).
Proof.
  rewrite visit_program_eq. cbn [nodes]. unfold key_counter_after, start_node.
  destruct (fresh_names_build "start" false None
    {| self_nodes := []; self_edges := []; key_counter := kc |})
    as [F0 N0]; [set_solver +|].
  destruct (build_node "start" false None _) as [start b0].
  cbn [fst snd] in *.
  destruct (names_stmts_of (stmts prgm)) with (cur := start) (b := b0)
    as (ns & N & F).
  { apply Forall_forall. intros s _. apply names_ok_all. }
  rewrite N, N0. simpl.
  pose proof (fresh_names_trans _ _ _ _ _ F0 F) as [_ R _].
  intros Hm. apply (R m). set_solver.
Qed.

(** X8.  The key counter is not reset between programs: the nodes of a
    graph built after another one by the same builder carry names that no
    node of the earlier graph carries. *)
Theorem names_fresh_across_programs (p1 p2 : Program)
    (kc : gmap string nat) (n1 n2 : Node) :
  n1 ∈ nodes (visit_program p1 kc) →
  n2 ∈ nodes (visit_program p2 (key_counter_after p1 kc)) →
  name n1 ≠ name n2.
Proof.
  intros (k1 & i1 & Hk1 & E1 & _ & Hi1)%program_names_range
         (k2 & i2 & Hk2 & E2 & Hi2 & _)%program_names_range Heq.
  rewrite E1, E2 in Heq. apply name_inj in Heq as [-> ->]; [|done..]. lia.
Qed.

(** *** The exit node *)

Lemma old_mono b b' ns m : fresh_names b b' ns → old b m → old b' m.
Proof.
  intros [M _ _] (k & i & ? & ? & ?). exists k, i. specialize (M k).
  split_and!; [done..|lia].
Qed.

Lemma fresh_old b b' ns m : fresh_names b b' ns → m ∈ ns → old b' m.
Proof.
  intros [_ R _] (k & i & ? & ? & ? & ?)%R. by exists k, i.
Qed.

Lemma fresh_ne_old b b' ns m c :
  fresh_names b b' ns → m ∈ ns → old b c → m ≠ c.
Proof.
  intros [_ R _] (k & i & ? & E1 & ? & ?)%R (k' & i' & ? & E2 & ?) ->.
  rewrite E1 in E2. apply name_inj in E2 as [-> ->]; [|done..]. lia.
Qed.

Lemma visit_pack s cur b ns es :
  self_nodes (visit s cur b).2 = self_nodes b ++ ns →
  self_edges (visit s cur b).2 = self_edges b ++ es →
  extends cur b (visit s cur b).1 (visit s cur b).2 ns es
  ∧ fresh_names b (visit s cur b).2 ns.
Proof.
  intros N E.
  destruct (visit_ok_all s cur b) as (ns1 & es1 & X).
  destruct (names_ok_all s cur b) as (ns2 & N2 & F).
  pose proof (ext_nodes _ _ _ _ _ _ X) as N1.
  pose proof (ext_edges _ _ _ _ _ _ X) as E1.
  rewrite N in N1, N2. rewrite E in E1.
  apply app_inv_head in N1 as <-. apply app_inv_head in N2 as <-.
  apply app_inv_head in E1 as <-. done.
Qed.

Lemma visit_stmts_pack ss cur b ns es :
  self_nodes (visit_stmts ss cur b).2 = self_nodes b ++ ns →
  self_edges (visit_stmts ss cur b).2 = self_edges b ++ es →
  extends cur b (visit_stmts ss cur b).1 (visit_stmts ss cur b).2 ns es
  ∧ fresh_names b (visit_stmts ss cur b).2 ns.
Proof.
  intros N E.
  destruct (visit_stmts_ok ss cur b) as (ns1 & es1 & X).
  destruct (names_stmts_of ss) with (cur := cur) (b := b) as (ns2 & N2 & F).
  { apply Forall_forall. intros s _. apply names_ok_all. }
  pose proof (ext_nodes _ _ _ _ _ _ X) as N1.
  pose proof (ext_edges _ _ _ _ _ _ X) as E1.
  rewrite N in N1, N2. rewrite E in E1.
  apply app_inv_head in N1 as <-. apply app_inv_head in N2 as <-.
  apply app_inv_head in E1 as <-. done.
Qed.

Lemma flows_refl cur : flows cur cur [] [].
Proof.
  split; [by intros e ?%elem_of_nil|by intros m ?%elem_of_nil|by left
         |by intros m ?%elem_of_nil].
Qed.

Lemma edge_in_app_l es1 es2 a c : edge_in es1 a c → edge_in (es1 ++ es2) a c.
Proof. unfold edge_in. set_solver. Qed.

Lemma edge_in_app_r es1 es2 a c : edge_in es2 a c → edge_in (es1 ++ es2) a c.
Proof. unfold edge_in. set_solver. Qed.

Lemma flows_trans cur b n1 b1 n2 b2 ns1 es1 ns2 es2 :
  old b cur →
  extends cur b n1 b1 ns1 es1 → fresh_names b b1 ns1 →
  extends n1 b1 n2 b2 ns2 es2 → fresh_names b1 b2 ns2 →
  flows cur n1 ns1 es1 → flows n1 n2 ns2 es2 →
  flows cur n2 (ns1 ++ ns2) (es1 ++ es2).
Proof.
  intros Hold X1 F1 X2 F2 [S1 O1 C1 R1] [S2 O2 C2 R2].
  assert (old b1 cur) as Hold1 by by eapply old_mono.
  split.
  - intros e [He|He]%elem_of_app; [|by apply S2].
    destruct (ext_end_in _ _ _ _ _ _ X2) as [->|Hn2]; [by apply S1|].
    destruct (ext_sources _ _ _ _ _ _ X1 e He) as [->|Hs].
    + intros Heq. by eapply (fresh_ne_old b1 b2 ns2 n2 cur).
    + intros Heq. eapply (fresh_ne_old b1 b2 ns2 n2 (frm e)); [done..| |done].
      by eapply fresh_old.
  - intros m [Hm|Hm]%elem_of_app.
    + destruct (O1 m Hm) as [->|[c Hc]].
      * destruct C2 as [->|[c Hc]]; [by left|].
        right. exists c. by apply edge_in_app_r.
      * right. exists c. by apply edge_in_app_l.
    + destruct (O2 m Hm) as [->|[c Hc]]; [by left|].
      right. exists c. by apply edge_in_app_r.
  - destruct C1 as [->|[c Hc]].
    + destruct C2 as [->|[c Hc]]; [by left|].
      right. exists c. by apply edge_in_app_r.
    + right. exists c. by apply edge_in_app_l.
  - intros m [Hm|Hm]%elem_of_app.
    + etrans.
      * eapply (edge_in_mono es1); [set_solver +|by apply R1].
      * eapply (edge_in_mono es2); [set_solver +|].
        apply (ext_end _ _ _ _ _ _ X2).
    + eapply (edge_in_mono es2); [set_solver +|by apply R2].
Qed.

Lemma flows_stmts_of ss :
  Forall flows_ok ss →
  ∀ cur b ns es,
    old b cur →
    self_nodes (visit_stmts ss cur b).2 = self_nodes b ++ ns →
    self_edges (visit_stmts ss cur b).2 = self_edges b ++ es →
    flows cur (visit_stmts ss cur b).1 ns es.
Proof.
  induction 1 as [|s ss Hs _ IH]; intros cur b ns es Hold.
  - simpl. intros N E.
    rewrite <- (app_nil_r (self_nodes b)) in N at 1.
    rewrite <- (app_nil_r (self_edges b)) in E at 1.
    apply app_inv_head in N as <-. apply app_inv_head in E as <-.
    apply flows_refl.
  - rewrite visit_stmts_cons. intros N E.
    destruct (visit_ok_all s cur b) as (ns1 & es1 & X1).
    pose proof (ext_nodes _ _ _ _ _ _ X1) as N1.
    pose proof (ext_edges _ _ _ _ _ _ X1) as E1.
    destruct (visit_pack s cur b ns1 es1 N1 E1) as [_ F1].
    destruct (visit_stmts_ok ss (visit s cur b).1 (visit s cur b).2)
      as (ns2 & es2 & X2).
    pose proof (ext_nodes _ _ _ _ _ _ X2) as N2.
    pose proof (ext_edges _ _ _ _ _ _ X2) as E2.
    destruct (visit_stmts_pack ss _ _ ns2 es2 N2 E2) as [_ F2].
    rewrite N2, N1, <- app_assoc in N. apply app_inv_head in N as <-.
    rewrite E2, E1, <- app_assoc in E. apply app_inv_head in E as <-.
    eapply flows_trans; [exact Hold|exact X1|exact F1|exact X2|exact F2| |].
    + by apply Hs.
    + apply IH; [|done..]. destruct (ext_end_in _ _ _ _ _ _ X1) as [->|Hin].
      * by eapply old_mono.
      * by eapply fresh_old.
Qed.

Lemma flows_atom nm stmt : 
  nm ∈ all_names →
  (∀ x, is_start_name (nm +:+ x) = false) →
  ∀ cur b ns es,
    old b cur →
    self_nodes (visit_atom nm stmt cur b).2 = self_nodes b ++ ns →
    self_edges (visit_atom nm stmt cur b).2 = self_edges b ++ es →
    flows cur (visit_atom nm stmt cur b).1 ns es.
Proof.
  intros Hnm Hst cur b ns es Hold N E.
  destruct (extends_atom nm stmt cur b Hst) as (n & X & Hn & _).
  destruct (names_atom nm stmt cur b Hnm) as (ns' & N' & F).
  pose proof (ext_nodes _ _ _ _ _ _ X) as N1.
  pose proof (ext_edges _ _ _ _ _ _ X) as E1.
  rewrite N in N1, N'. rewrite E in E1.
  apply app_inv_head in N1 as ->. apply app_inv_head in N' as <-.
  apply app_inv_head in E1 as ->. rewrite <- Hn.
  assert (n ≠ cur) as Hne.
  { eapply fresh_ne_old; [exact F|set_solver +|done]. }
  split.
  - intros e ->%list_elem_of_singleton. simpl. congruence.
  - intros m ->%list_elem_of_singleton. by left.
  - right. exists n. unfold edge_in. set_solver +.
  - intros m ->%list_elem_of_singleton. done.
Qed.

Lemma flows_ok_all s : flows_ok s.
Proof.
  induction s as [id e|id|id|e p|f g IHf IHg|body IHb]
    using Stmt_ind_nested.
  - intros cur b. apply (flows_atom "assign" (AssignStmt id e)); [set_solver +|done].
  - intros cur b. apply (flows_atom "read" (ReadStmt id)); [set_solver +|done].
  - intros cur b. apply (flows_atom "use" (UseStmt id)); [set_solver +|done].
  - intros cur b. apply (flows_atom "assume" (AssumeStmt e p)); [set_solver +|done].
  - intros cur b ns es Hold. rewrite visit_split_eq.
    destruct (visit_stmts_ok f cur b) as (ns1 & es1 & X1).
    pose proof (ext_nodes _ _ _ _ _ _ X1) as N1.
    pose proof (ext_edges _ _ _ _ _ _ X1) as E1.
    destruct (visit_stmts_pack f cur b ns1 es1 N1 E1) as [_ F1].
    pose proof (flows_stmts_of f IHf cur b ns1 es1 Hold N1 E1)
      as [S1 O1 C1 R1].
    destruct (visit_stmts f cur b) as [e1 b1]. cbn [fst snd] in *.
    assert (old b1 cur) as Hold1 by by eapply old_mono.
    destruct (visit_stmts_ok g cur b1) as (ns2 & es2 & X2).
    pose proof (ext_nodes _ _ _ _ _ _ X2) as N2.
    pose proof (ext_edges _ _ _ _ _ _ X2) as E2.
    destruct (visit_stmts_pack g cur b1 ns2 es2 N2 E2) as [_ F2].
    pose proof (flows_stmts_of g IHg cur b1 ns2 es2 Hold1 N2 E2)
      as [S2 O2 C2 R2].
    destruct (visit_stmts g cur b1) as [e2 b2]. cbn [fst snd] in *.
    destruct (fresh_names_build "split_join" false None b2) as [F3 _];
      [set_solver +|].
    destruct (build_node_spec "split_join" false None b2) as [k Hk].
    rewrite Hk in *. cbn [fst snd] in *.
    set (j := {| name := "split_join" +:+ pretty k;
                 is_widening_point := false; node := None |}) in *.
    simpl. rewrite N2, N1, E2, E1, <- !app_assoc.
    intros <-%app_inv_head <-%app_inv_head.
    assert (∀ x, old b1 x → old b2 x) as Hup by (intros x; by eapply old_mono).
    assert (∀ x, old b2 x → x ≠ j) as Hj.
    { intros x Hx Heq. eapply (fresh_ne_old _ _ _ j x F3); [set_solver +|done..]. }
    assert (∀ m, m ∈ ns1 → old b2 m) as H1
      by (intros m Hm; apply Hup; by eapply fresh_old).
    assert (∀ m, m ∈ ns2 → old b2 m) as H2
      by (intros m Hm; by eapply fresh_old).
    assert (old b2 e1) as He1.
    { destruct (ext_end_in _ _ _ _ _ _ X1) as [->|?]; eauto. }
    assert (old b2 e2) as He2.
    { destruct (ext_end_in _ _ _ _ _ _ X2) as [->|?]; eauto. }
    assert (edge_in (es1 ++ es2 ++
              [{| frm := e1; to := j |}; {| frm := e2; to := j |}]) e1 j)
      as Hedge1 by (unfold edge_in; set_solver +).
    assert (edge_in (es1 ++ es2 ++
              [{| frm := e1; to := j |}; {| frm := e2; to := j |}]) e2 j)
      as Hedge2 by (unfold edge_in; set_solver +).
    split.
    + intros e [He|[He|He]%elem_of_app]%elem_of_app; apply Hj.
      * destruct (ext_sources _ _ _ _ _ _ X1 e He) as [->|?]; eauto.
      * destruct (ext_sources _ _ _ _ _ _ X2 e He) as [->|?]; eauto.
      * assert (frm e = e1 ∨ frm e = e2) as [->| ->] by set_solver; done.
    + intros m [Hm|[Hm|Hm]%elem_of_app]%elem_of_app.
      * right. destruct (O1 m Hm) as [->|[c Hc]]; [eauto|].
        exists c. by apply edge_in_app_l.
      * right. destruct (O2 m Hm) as [->|[c Hc]]; [eauto|].
        exists c. by apply edge_in_app_r, edge_in_app_l.
      * left. set_solver.
    + right. destruct C1 as [->|[c Hc]]; [eauto|].
      exists c. by apply edge_in_app_l.
    + intros m [Hm|[Hm|Hm]%elem_of_app]%elem_of_app.
      * eapply rtc_r; [|exact Hedge1].
        eapply (edge_in_mono es1); [set_solver +|by apply R1].
      * eapply rtc_r; [|exact Hedge2].
        eapply (edge_in_mono es2); [set_solver +|by apply R2].
      * assert (m = j) as -> by set_solver. done.
  - intros cur b ns es Hold. rewrite visit_loop_eq.
    destruct (fresh_names_build "loop_start" true None b) as [F1 _];
      [set_solver +|].
    destruct (build_node_spec "loop_start" true None b) as [k Hk].
    rewrite Hk in *. cbn [fst snd] in *.
    set (ls := {| name := "loop_start" +:+ pretty k;
                  is_widening_point := true; node := None |}) in *.
    set (b1 := {| self_nodes := self_nodes b; self_edges := self_edges b;
                  key_counter := _ |}) in *.
    assert (old b1 ls) as Hls by (eapply fresh_old; [exact F1|set_solver +]).
    assert (old b1 cur) as Hold1 by by eapply old_mono.
    destruct (visit_stmts_ok body ls b1) as (ns1 & es1 & X1).
    pose proof (ext_nodes _ _ _ _ _ _ X1) as N1.
    pose proof (ext_edges _ _ _ _ _ _ X1) as E1.
    destruct (visit_stmts_pack body ls b1 ns1 es1 N1 E1) as [_ F2].
    pose proof (flows_stmts_of body IHb ls b1 ns1 es1 Hls N1 E1)
      as [S1 O1 C1 R1].
    destruct (visit_stmts body ls b1) as [e1 b2]. cbn [fst snd] in *.
    destruct (fresh_names_build "loop_join" false None b2) as [F3 _];
      [set_solver +|].
    destruct (build_node_spec "loop_join" false None b2) as [k' Hk'].
    rewrite Hk' in *. cbn [fst snd] in *.
    set (j := {| name := "loop_join" +:+ pretty k';
                 is_widening_point := false; node := None |}) in *.
    simpl. rewrite N1, E1. simpl. rewrite <- !app_assoc. simpl.
    intros <-%app_inv_head <-%app_inv_head.
    assert (∀ x, old b1 x → old b2 x) as Hup by (intros x; by eapply old_mono).
    assert (∀ x, old b2 x → x ≠ j) as Hj.
    { intros x Hx Heq. eapply (fresh_ne_old _ _ _ j x F3); [set_solver +|done..]. }
    assert (∀ m, m ∈ ns1 → old b2 m) as H1
      by (intros m Hm; by eapply fresh_old).
    assert (old b2 e1) as He1.
    { destruct (ext_end_in _ _ _ _ _ _ X1) as [->|?]; eauto. }
    set (es := es1 ++ _).
    assert (edge_in es cur ls) as Hc by (unfold edge_in, es; set_solver +).
    assert (edge_in es e1 ls) as Hb by (unfold edge_in, es; set_solver +).
    assert (edge_in es ls j) as Hx by (unfold edge_in, es; set_solver +).
    split.
    + intros e [He|He]%elem_of_app; apply Hj.
      * destruct (ext_sources _ _ _ _ _ _ X1 e He) as [->|?]; eauto.
      * assert (frm e = cur ∨ frm e = e1 ∨ frm e = ls) as [->|[->| ->]]
          by set_solver; eauto.
    + intros m [Hm|Hm]%elem_of_app.
      * right. destruct (O1 m Hm) as [->|[c Hc']]; [eauto|].
        exists c. by apply edge_in_app_l.
      * assert (m = ls ∨ m = j) as [->| ->] by set_solver; eauto.
    + eauto.
    + intros m [Hm|Hm]%elem_of_app.
      * eapply rtc_r; [|exact Hx]. eapply rtc_r; [|exact Hb].
        eapply (edge_in_mono es1); [unfold es; set_solver +|by apply R1].
      * assert (m = ls ∨ m = j) as [->| ->] by set_solver;
          [by apply rtc_once|done].
Qed.

(** X9.  The graph of a program has exactly one exit: the node the walk of
    the program ends at is a node of the graph, it is the only node without
    an outgoing edge, and it is reachable from every node. *)
Theorem cfg_single_exit (prgm : Program) (kc : gmap string nat) :
  let g := visit_program prgm kc in
  let exit := exit_node prgm kc in
  exit ∈ nodes g
  ∧ (∀ n, n ∈ nodes g → (¬ has_outgoing g n ↔ n = exit))
  ∧ (∀ n, n ∈ nodes g → reachable g n exit).
Proof.
  intros g exit. subst g exit. rewrite visit_program_eq.
  unfold exit_node, has_outgoing, reachable, edge. cbn [nodes edges].
  unfold start_node.
  destruct (fresh_names_build "start" false None
    {| self_nodes := []; self_edges := []; key_counter := kc |})
    as [F0 _]; [set_solver +|].
  destruct (build_node_spec "start" false None
    {| self_nodes := []; self_edges := []; key_counter := kc |}) as [k Hk].
  rewrite Hk in *. cbn [fst snd] in *.
  set (start := {| name := "start" +:+ pretty k;
                   is_widening_point := false; node := None |}) in *.
  match goal with
  | |- context [visit_stmts _ _ ?b] => set (b0 := b) in *
  end.
  assert (old b0 start) as Hold by (eapply fresh_old; [exact F0|set_solver +]).
  destruct (visit_stmts_ok (stmts prgm) start b0) as (ns & es & X).
  pose proof (ext_nodes _ _ _ _ _ _ X) as N.
  pose proof (ext_edges _ _ _ _ _ _ X) as E.
  pose proof (flows_stmts_of (stmts prgm)) as FL.
  specialize (FL ltac:(apply Forall_forall; intros s _; apply flows_ok_all)
                 start b0 ns es Hold N E).
  destruct FL as [S O C R]. rewrite N, E. simpl.
  split_and!.
  - destruct (ext_end_in _ _ _ _ _ _ X) as [->|?]; set_solver.
  - intros n Hn. split.
    + intros Hout. apply elem_of_app in Hn as [Hn| ->%list_elem_of_singleton].
      * by destruct (O n Hn).
      * by destruct C.
    + intros -> [c Hc]. by apply S in Hc.
  - intros n [Hn| ->%list_elem_of_singleton]%elem_of_app; [by apply R|].
    apply (ext_end _ _ _ _ _ _ X).
Qed.

End cfg_shape_facts.

(** ** What a model covers *)

Section model_shape_facts.
Context {V Ty : Type} `{Countable Ty}.
Context (typer_from_hint : nat → Hint → result Ty).
Context (interpreter_from_type : nat → Ty → result (Models.Interp V)).
Context (show_signature : list (Domain V) → string).

Local Abbreviation register :=
  (Models.register typer_from_hint interpreter_from_type).
Local Abbreviation register_all :=
  (Models.register_all typer_from_hint interpreter_from_type).
Local Abbreviation register_programs :=
  (Models.register_programs typer_from_hint interpreter_from_type).
Local Abbreviation visit := (Models.visit show_signature).
Local Abbreviation build_model := (Models.build_model show_signature).
Local Abbreviation of_ :=
  (Models.of_ typer_from_hint interpreter_from_type show_signature).

Lemma dict_set_keys {K A : Type} `{EqDecision K} (d : list (K * A))
    (k k' : K) (a : A) :
  is_Some (Models.dict_get (Models.dict_set d k a) k')
  ↔ k = k' ∨ is_Some (Models.dict_get d k').
Proof.
  rewrite dict_get_set. destruct (decide (k = k')) as [->|].
  - split; eauto.
  - split; [eauto|]. by intros [?|?].
Qed.

Lemma register_keys node t s t' s' :
  register node t s = (Ok t', s') →
  ∀ n, is_Some (Models.dict_get (Models.node_domains t') n)
       ↔ node = n ∨ is_Some (Models.dict_get (Models.node_domains t) n).
Proof.
  unfold Models.register.
  destruct (Models._typeable_to_interp _ _ node s) as [[i|e] s1]; [|done].
  intros [= <- <-] n. simpl. apply dict_set_keys.
Qed.

Lemma register_all_keys nodes t s t' s' :
  register_all nodes t s = (Ok t', s') →
  ∀ n, is_Some (Models.dict_get (Models.node_domains t') n)
       ↔ n ∈ nodes ∨ is_Some (Models.dict_get (Models.node_domains t) n).
Proof.
  revert t s. induction nodes as [|node nodes IH]; intros t s; simpl.
  - intros [= <- <-] n. split; [eauto|]. by intros [?%elem_of_nil|?].
  - destruct (register node t s) as [[t1|e] s1] eqn:H1; [|done].
    intros H2 n. rewrite (IH _ _ H2), (register_keys _ _ _ _ _ H1).
    rewrite elem_of_cons. naive_solver.
Qed.

Lemma register_programs_keys programs t s t' s' :
  register_programs programs t s = (Ok t', s') →
  ∀ n, is_Some (Models.dict_get (Models.node_domains t') n)
       ↔ n ∈ ModelShape.typed_nodes programs
         ∨ is_Some (Models.dict_get (Models.node_domains t) n).
Proof.
  revert t s. induction programs as [|p ps IH]; intros t s; simpl.
  - intros [= <- <-] n. split; [eauto|]. by intros [?%elem_of_nil|?].
  - destruct (register_all _ t s) as [[t1|e] s1] eqn:H1; [|done].
    intros H2 n. rewrite (IH _ _ H2), (register_all_keys _ _ _ _ _ H1).
    unfold ModelShape.typed_nodes. simpl. rewrite elem_of_app.
    naive_solver.
Qed.

Lemma build_model_keys nodes t m0 m :
  build_model nodes t m0 = Ok m →
  ∀ n, is_Some (Models.dict_get m n)
       ↔ n ∈ nodes ∨ is_Some (Models.dict_get m0 n).
Proof.
  revert m0. induction nodes as [|node nodes IH]; intros m0; simpl.
  - intros [= <-] n. split; [eauto|]. by intros [?%elem_of_nil|?].
  - destruct (visit node t) as [b|e]; [|done].
    intros Hb n. rewrite (IH _ Hb), dict_set_keys, elem_of_cons.
    naive_solver.
Qed.

Lemma build_model_visits nodes t m0 m :
  build_model nodes t m0 = Ok m →
  ∀ n, n ∈ nodes → ∃ b, visit n t = Ok b.
Proof.
  revert m0. induction nodes as [|node nodes IH]; intros m0; simpl.
  - by intros _ n ?%elem_of_nil.
  - destruct (visit node t) as [b|e] eqn:Hv; [|done].
    intros Hb n [->|Hn]%elem_of_cons; [eauto|by eapply IH].
Qed.

(** The outcome of [of], taken apart. *)
Lemma of_Ok programs s model s' :
  of_ programs s = (Ok model, s') →
  ∃ t, register_programs programs Models.empty_tables s = (Ok t, s')
       ∧ build_model (Models.node_domains t).*1 t [] = Ok model.
Proof.
  unfold Models.of_.
  destruct (register_programs programs Models.empty_tables s)
    as [[t|e] s1]; [|done].
  intros [= Hb <-]. eauto.
Qed.

Lemma of_keys programs s model s' node :
  of_ programs s = (Ok model, s') →
  is_Some (Models.dict_get model node)
  ↔ node ∈ ModelShape.typed_nodes programs.
Proof.
  intros (t & Hreg & Hb)%of_Ok.
  rewrite (build_model_keys _ _ _ _ Hb).
  rewrite <- dict_get_keys, (register_programs_keys _ _ _ _ _ Hreg).
  simpl. split; [by intros [[?|[? [=]]]|[? [=]]]|by left; left].
Qed.

(** X10.  A model that [of] returns has an entry for exactly the nodes of
    the given programs that carry a type hint. *)
Theorem model_covers_the_typed_nodes (programs : list Program)
    (s : Models.State) (model : list (Expr * Bunch V)) (s' : Models.State)
    (node : Expr) :
  of_ programs s = (Ok model, s') →
  (is_Some (Models.dict_get model node)
   ↔ ∃ prog, prog ∈ programs
             ∧ node ∈ flat_map Models.stmt_nodes (stmts prog)
             ∧ is_Some (type_hint node)).
Proof.
  intros Hof. rewrite (of_keys _ _ _ _ _ Hof).
  unfold ModelShape.typed_nodes. rewrite list_elem_of_bind. split.
  - intros (prog & Hn & Hp). exists prog. split; [done|].
    unfold Models.findall in Hn.
    apply list_elem_of_In, filter_In in Hn as [Hn Hh].
    split; [by apply list_elem_of_In|].
    by apply bool_decide_eq_true in Hh.
  - intros (prog & Hp & Hn & Hh). exists prog. split; [|done].
    apply list_elem_of_In, filter_In. split; [by apply list_elem_of_In|].
    by apply bool_decide_eq_true.
Qed.

Lemma visit_entry_shape node t b :
  visit node t = Ok b → ModelShape.entry_shape node b.
Proof.
  destruct node; simpl;
    unfold Models.visit_ident, Models.visit_lit, Models.visit_unexpr,
      Models.visit_binexpr, getitem;
    (destruct (Models.dict_get _ _) as [d|]; [|done]); simpl; intros Hb.
  - injection Hb as <-. by split; [eauto|].
  - destruct (Models.builders t !! _); [|done]. injection Hb as <-.
    split; [eauto|]. simpl. eauto.
  - destruct (Models.dict_get _ _); [|done]. simpl in Hb.
    destruct (Models._aggregate_provider _ _ _ _); [|done]. simpl in Hb.
    destruct (Models._aggregate_provider _ _ _ _); [|done].
    injection Hb as <-. split; [eauto|]. simpl. eauto.
  - destruct (Models.dict_get _ _); [|done]. simpl in Hb.
    destruct (Models.dict_get _ _); [|done]. simpl in Hb.
    destruct (Models._aggregate_provider _ _ _ _); [|done]. simpl in Hb.
    destruct (Models._aggregate_provider _ _ _ _); [|done].
    injection Hb as <-. split; [eauto|]. simpl. eauto.
Qed.

Lemma visit_needs_operands node t b o :
  visit node t = Ok b → o ∈ ModelShape.operands node →
  is_Some (Models.dict_get (Models.node_domains t) o).
Proof.
  destruct node as [| |sym e h|l sym r h]; simpl;
    [by intros _ ?%elem_of_nil..| |];
    unfold Models.visit_unexpr, Models.visit_binexpr, getitem;
    (destruct (Models.dict_get _ _) as [d|]; [|done]); simpl.
  - destruct (Models.dict_get _ e) as [d1|] eqn:He; [|done].
    intros _ ->%list_elem_of_singleton. rewrite He. eauto.
  - destruct (Models.dict_get _ l) as [d1|] eqn:Hl; [|done]. simpl.
    destruct (Models.dict_get _ r) as [d2|] eqn:Hr; [|done].
    intros _ Ho. assert (o = l ∨ o = r) as [->| ->] by set_solver.
    + rewrite Hl. eauto.
    + rewrite Hr. eauto.
Qed.

Lemma of_entry_shape programs s model s' node b :
  of_ programs s = (Ok model, s') →
  Models.dict_get model node = Some b →
  ModelShape.entry_shape node b.
Proof.
  intros (t & _ & Hb)%of_Ok Hg.
  destruct (build_model_entries _ _ _ _ _ _ _ Hb Hg) as [?|[_ Hv]]; [done|].
  by eapply visit_entry_shape.
Qed.

Lemma of_operands programs s model s' node o :
  of_ programs s = (Ok model, s') →
  is_Some (Models.dict_get model node) →
  o ∈ ModelShape.operands node → is_Some (Models.dict_get model o).
Proof.
  intros (t & _ & Hb)%of_Ok Hn Ho.
  apply (build_model_keys _ _ _ _ Hb) in Hn as [Hn|[? [=]]].
  destruct (build_model_visits _ _ _ _ Hb node Hn) as [bn Hv].
  apply (build_model_keys _ _ _ _ Hb). left.
  apply dict_get_keys. by eapply visit_needs_operands.
Qed.

(** X11.  In a model that [of] returns, every entry has a domain; the entry
    of an identifier has nothing else, the entry of a literal has a builder
    and neither a definition nor an inverse, and the entry of a unary or
    binary node has a definition and an inverse and no builder. *)
Theorem model_entries_by_node_kind (programs : list Program)
    (s : Models.State) (model : list (Expr * Bunch V)) (s' : Models.State)
    (node : Expr) (b : Bunch V) :
  of_ programs s = (Ok model, s') →
  Models.dict_get model node = Some b →
  ModelShape.entry_shape node b.
Proof. apply of_entry_shape. Qed.

(** X12.  [of] returns a model only if the operands of every node that
    carries a type hint carry one too: in a returned model, the operands of
    a node that has an entry have an entry, and so has every node below
    it. *)
Theorem model_covers_operands (programs : list Program)
    (s : Models.State) (model : list (Expr * Bunch V)) (s' : Models.State)
    (node : Expr) :
  of_ programs s = (Ok model, s') →
  is_Some (Models.dict_get model node) →
  (∀ o, o ∈ ModelShape.operands node → is_Some (Models.dict_get model o))
  ∧ (∀ o, o ∈ Models.expr_nodes node → is_Some (Models.dict_get model o)).
Proof.
  intros Hof.
  assert (Hops : ∀ n, is_Some (Models.dict_get model n) →
    ∀ o, o ∈ ModelShape.operands n → is_Some (Models.dict_get model o)).
  { intros n Hn o Ho. by eapply of_operands. }
  intros Hn. split; [by apply Hops|].
  induction node as [name decl h|val h|op e IH h|l IHl op r IHr h]; simpl;
    intros o Ho.
  - by apply list_elem_of_singleton in Ho as ->.
  - by apply list_elem_of_singleton in Ho as ->.
  - apply elem_of_cons in Ho as [->|Ho]; [done|].
    apply IH; [|done]. apply (Hops _ Hn). simpl. set_solver +.
  - apply elem_of_cons in Ho as [->|[Ho|Ho]%elem_of_app]; [done| |].
    + apply IHl; [|done]. apply (Hops _ Hn). simpl. set_solver +.
    + apply IHr; [|done]. apply (Hops _ Hn). simpl. set_solver +.
Qed.

Local Abbreviation value_or_TypeError := ModelShape.value_or_TypeError.

Lemma bind_value_or_TypeError {A B} (r : result A) (k : A → result B) :
  value_or_TypeError r → (∀ a, r = Ok a → value_or_TypeError (k a)) →
  value_or_TypeError (bind r k).
Proof. intros [[a ->]| ->] Hk; simpl; [by apply Hk|by right]. Qed.

(** X13.  A model that [of] returns suits the evaluator and the solver: on
    an expression that has an entry, in an environment that binds the
    identifiers of the expression, neither raises [KeyError] or
    [AttributeError]; each returns, or raises the [TypeError] of a provided
    definition or inverse that takes another number of arguments. *)
Theorem returned_model_suits_evaluator_and_solver
    (programs : list Program) (s : Models.State)
    (model : list (Expr * Bunch V)) (s' : Models.State) (e : Expr) :
  of_ programs s = (Ok model, s') →
  is_Some (Models.dict_get model e) →
  ∀ (env : gmap (string * nat) V) (expected : V),
    Shape.bound env e →
    value_or_TypeError (ExprEvaluator.eval (Models.dict_get model) e env)
    ∧ value_or_TypeError
        (ExprSolver.visit (Models.dict_get model) e env expected).1.
Proof.
  intros Hof.
  assert (Hshape : ∀ n, is_Some (Models.dict_get model n) →
    ∃ b, Models.dict_get model n = Some b ∧ ModelShape.entry_shape n b).
  { intros n [b Hb]. exists b. split; [done|].
    by eapply of_entry_shape. }
  assert (Hops : ∀ n, is_Some (Models.dict_get model n) →
    ∀ o, o ∈ ModelShape.operands n → is_Some (Models.dict_get model o)).
  { intros n Hn o Ho. by eapply of_operands. }
  assert (Heval : ∀ e, is_Some (Models.dict_get model e) →
    ∀ env : gmap (string * nat) V, Shape.bound env e →
    value_or_TypeError (ExprEvaluator.eval (Models.dict_get model) e env)).
  { clear e. intros e.
    induction e as [name decl h|val h|op e IH h|l IHl op r IHr h];
      intros He env Hb; simpl.
    - destruct (Hb (name, decl)) as [v Hv]; [set_solver +|].
      left. exists v. unfold getitem. by rewrite Hv.
    - destruct (Hshape _ He) as (b & Hg & _ & _ & _ & [f Hf]).
      left. unfold getitem. rewrite Hg. simpl. rewrite Hf. simpl. eauto.
    - destruct (Hshape _ He) as (b & Hg & _ & [d Hd] & _).
      apply bind_value_or_TypeError.
      { apply IH; [|done]. apply (Hops _ He). simpl. set_solver +. }
      intros x _. unfold getitem. rewrite Hg. simpl. rewrite Hd. simpl.
      destruct d; [left; eauto|by right].
    - destruct (Hshape _ He) as (b & Hg & _ & [d Hd] & _).
      apply bind_value_or_TypeError.
      { apply IHl; [apply (Hops _ He); simpl; set_solver +|].
        intros k Hk. apply Hb. simpl. set_solver. }
      intros x _. apply bind_value_or_TypeError.
      { apply IHr; [apply (Hops _ He); simpl; set_solver +|].
        intros k Hk. apply Hb. simpl. set_solver. }
      intros y _. unfold getitem. rewrite Hg. simpl. rewrite Hd. simpl.
      destruct d; [by right|left; eauto]. }
  intros He env expected Hb. split; [by apply Heval|].
  revert env expected Hb.
  induction e as [name decl h|val h|op e IH h|l IHl op r IHr h];
    intros env expected Hb; simpl.
  - destruct (Hshape _ He) as (b & Hg & [dom Hd] & _).
    destruct (Hb (name, decl)) as [v Hv]; [set_solver +|].
    unfold ExprSolver.visit_ident, getitem. rewrite Hg. simpl.
    rewrite Hd. simpl. rewrite Hv. left. eauto.
  - destruct (Hshape _ He) as (b & Hg & [dom Hd] & _ & _ & [f Hf]).
    unfold ExprSolver.visit_lit, getitem. simpl. unfold getitem.
    rewrite Hg. simpl. rewrite Hd, Hf. simpl. left. eauto.
  - destruct (Hshape _ He) as (b & Hg & _ & _ & [i Hi] & _).
    assert (is_Some (Models.dict_get model e)) as He'
      by (apply (Hops _ He); simpl; set_solver +).
    destruct (Heval e He' env Hb) as [[x ->]| ->]; simpl; [|by right].
    unfold getitem at 1. rewrite Hg. simpl. rewrite Hi. simpl.
    destruct i as [g|g]; simpl; [|by right].
    destruct (g expected x) as [y|]; [by apply IH|left; eauto].
  - destruct (Hshape _ He) as (b & Hg & _ & _ & [i Hi] & _).
    assert (is_Some (Models.dict_get model l)) as Hl
      by (apply (Hops _ He); simpl; set_solver +).
    assert (is_Some (Models.dict_get model r)) as Hr
      by (apply (Hops _ He); simpl; set_solver +).
    assert (Shape.bound env l) as Hbl
      by (intros k Hk; apply Hb; simpl; set_solver).
    assert (Shape.bound env r) as Hbr
      by (intros k Hk; apply Hb; simpl; set_solver).
    destruct (Heval l Hl env Hbl) as [[x ->]| ->]; simpl; [|by right].
    destruct (Heval r Hr env Hbr) as [[y ->]| ->]; simpl; [|by right].
    unfold getitem at 1. rewrite Hg. simpl. rewrite Hi. simpl.
    destruct i as [g|g]; simpl; [by right|].
    destruct (g expected x y) as [[el er]|]; [|left; eauto].
    specialize (IHl Hl env el Hbl).
    pose proof (visit_frame (Models.dict_get model) l env el)
      as (Hdom & _).
    destruct (ExprSolver.visit (Models.dict_get model) l env el)
      as [[[]|x'] env1]; simpl in *; [|left; eauto|done].
    apply IHr; [done|]. intros k Hk. apply elem_of_dom. rewrite Hdom.
    apply elem_of_dom. by apply Hbr.
Qed.

End model_shape_facts.

(** ** The programs of the frontend *)

Section lal_shape_facts.
Import Lal LalShape.
Context {int_of_text : Lal.IntOfText}.

Lemma expr_ok_root e : expr_ok e → is_Some (type_hint e).
Proof. intros He. apply He. destruct e; simpl; set_solver +. Qed.

Lemma expr_ok_un op e h : expr_ok e → expr_ok (UnExpr op e (Some h)).
Proof.
  intros He n. simpl. intros [->|Hn]%elem_of_cons; [simpl; eauto|by apply He].
Qed.

Lemma expr_ok_bin l op r h :
  expr_ok l → expr_ok r → expr_ok (BinExpr l op r (Some h)).
Proof.
  intros Hl Hr n. simpl.
  intros [->|[Hn|Hn]%elem_of_app]%elem_of_cons;
    [simpl; eauto|by apply Hl|by apply Hr].
Qed.

Lemma expr_ok_lit v h : expr_ok (Lit v (Some h)).
Proof. intros n ->%list_elem_of_singleton. simpl. eauto. Qed.

Lemma stmt_exprs_if c f g :
  stmt_exprs (IfStmt c f g)
  = subexprs c ++ flat_map stmt_exprs f ++ flat_map stmt_exprs g.
Proof. reflexivity. Qed.

Lemma stmt_exprs_loop body :
  stmt_exprs (LLoopStmt body) = flat_map stmt_exprs body.
Proof. reflexivity. Qed.

Lemma stmt_exprs_while c body :
  stmt_exprs (WhileLoopStmt c body)
  = subexprs c ++ flat_map stmt_exprs body.
Proof. reflexivity. Qed.

Lemma subexprs_self e : e ∈ subexprs e.
Proof. destruct e; left. Qed.

(** The expressions [es] that an exception may be traced to. *)
Section blame.
Context (es : list LExpr).

Local Abbreviation expected_exn := (LalShape.expected_exn es).
Local Abbreviation good := (LalShape.good es).
Local Abbreviation ctx_good := (LalShape.ctx_good es).

Lemma good_bind {A} (r : result A) (k : A → result (list Stmt)) :
  (∀ e, r = Raise e → expected_exn e) →
  (∀ a, r = Ok a → good (k a)) →
  good (bind r k).
Proof. destruct r as [a|e]; simpl; eauto. Qed.

Lemma transform_operator_exn op arity e :
  transform_operator op arity = Raise e → expected_exn e.
Proof.
  destruct op, arity as [|[|[|?]]]; simpl; intros [= <-]; by left.
Qed.

Section with_var_decls.
Context (var_decls : gmap (nat * string) Expr) (Hvd : vd_ok var_decls).

Lemma getitem_var_decls k e :
  getitem (var_decls !!.) k = Raise e → expected_exn e.
Proof.
  unfold getitem. destruct (var_decls !! k); intros [= <-]. by left.
Qed.

Lemma split_good cond then_rest else_rest :
  expr_ok cond →
  Forall frontend_stmt then_rest → Forall frontend_stmt else_rest →
  good (hint ←' getattr (type_hint cond);
        Ok [SplitStmt (AssumeStmt cond None :: then_rest)
              (AssumeStmt (UnExpr "!" cond (Some hint)) None :: else_rest)]).
Proof using Type.
  intros Hc Ht He. destruct (expr_ok_root _ Hc) as [h Hh]. rewrite Hh. simpl.
  repeat constructor; try done. by apply expr_ok_un.
Qed.

Lemma transform_expr_good e :
  ∀ ctx, (∀ x, x ∈ subexprs e → x ∈ es) → ctx_good ctx →
         good (transform_expr var_decls e ctx).
Proof using Hvd.
  induction e as [e IH|l IHl op r IHr tv|op e IH tv|c IHc t IHt e IHe
    |text ref|text tv|tv|p IH tv|p IH attr tv| |]; intros ctx Hsub Hctx;
    simpl in *.
  - apply IH; [|done]. intros x Hx. apply Hsub. by right.
  - apply IHl; [intros x Hx; apply Hsub; set_solver|].
    intros lhs Hl. apply IHr; [intros x Hx; apply Hsub; set_solver|].
    intros rhs Hr.
    apply good_bind; [apply transform_operator_exn|].
    intros o _. apply Hctx. by apply expr_ok_bin.
  - apply IH; [intros x Hx; apply Hsub; by right|]. intros operand Ho.
    apply good_bind; [apply transform_operator_exn|].
    intros o _. apply Hctx. by apply expr_ok_un.
  - apply IHc; [intros x Hx; apply Hsub; set_solver|]. intros cond Hc.
    apply IHt; [intros x Hx; apply Hsub; set_solver|]. intros thn Ht.
    apply IHe; [intros x Hx; apply Hsub; set_solver|]. intros els He.
    destruct (expr_ok_root _ Hc) as [h Hh]. rewrite Hh. simpl.
    pose proof (Hctx thn Ht) as G1. destruct (ctx thn) as [ts|x]; [|done].
    pose proof (Hctx els He) as G2. destruct (ctx els) as [ss|x]; [|done].
    simpl in *. repeat constructor; try done. by apply expr_ok_un.
  - destruct ref as [decl|h| |].
    + apply good_bind; [apply getitem_var_decls|].
      intros v Hv. apply Hctx. unfold getitem in Hv.
      destruct (var_decls !! (decl, text)) as [v'|] eqn:E; [|done].
      injection Hv as ->. by apply (Hvd _ _ E).
    + apply Hctx, expr_ok_lit.
    + right. by left.
    + right. right. right. split; [done|]. right. exists text.
      apply Hsub. left.
  - destruct (int_ text) as [value|] eqn:E; [apply Hctx, expr_ok_lit|].
    right. right. left. split; [done|]. exists text, tv.
    split; [|done]. apply Hsub. left.
  - apply Hctx, expr_ok_lit.
  - apply IH; [intros x Hx; apply Hsub; by right|].
    intros prefix Hp. apply Hctx. by apply expr_ok_un.
  - case_bool_decide; [|right; by left].
    apply IH; [intros x Hx; apply Hsub; by right|].
    intros prefix Hp. apply Hctx. by apply expr_ok_un.
  - right. by left.
  - right. right. right. split; [done|]. left. apply Hsub. left.
Qed.

Lemma dest_var_good text ref r :
  dest_var var_decls text ref = r →
  match r with
  | Ok v => is_identifier v ∧ expr_ok v
  | Raise e => expected_exn e
  end.
Proof using Hvd.
  intros <-. destruct ref as [decl| | |]; simpl; [|by left..].
  unfold getitem. destruct (var_decls !! (decl, text)) as [v|] eqn:E;
    [by apply (Hvd _ _ E)|by left].
Qed.

Lemma transform_stmts_good_of ss :
  Forall (stmt_good var_decls es) ss →
  (∀ x, x ∈ flat_map stmt_exprs ss → x ∈ es) →
  good (transform_stmts var_decls ss).
Proof using Type.
  induction 1 as [|s ss Hs _ IH]; simpl; intros Hsub; [constructor|].
  unfold stmt_good in Hs.
  assert (good (transform_stmt var_decls s)) as G1
    by (apply Hs; intros x Hx; apply Hsub, elem_of_app; by left).
  assert (good (transform_stmts var_decls ss)) as G2
    by (apply IH; intros x Hx; apply Hsub, elem_of_app; by right).
  destruct (transform_stmt var_decls s) as [r1|e]; [|done]. simpl.
  destruct (transform_stmts var_decls ss) as [r2|e]; [|done]. simpl.
  apply Forall_app. done.
Qed.

Lemma transform_stmt_if c f g :
  transform_stmt var_decls (IfStmt c f g)
  = transform_expr var_decls c (λ cond,
      hint ←' getattr (type_hint cond);
      then_rest ←' transform_stmts var_decls f;
      else_rest ←' transform_stmts var_decls g;
      Ok [SplitStmt (AssumeStmt cond None :: then_rest)
            (AssumeStmt (UnExpr "!" cond (Some hint)) None :: else_rest)]).
Proof using Type. reflexivity. Qed.

Lemma transform_stmt_loop body :
  transform_stmt var_decls (LLoopStmt body)
  = (b ←' transform_stmts var_decls body; Ok [LoopStmt b]).
Proof using Type. reflexivity. Qed.

Lemma transform_stmt_while c body :
  transform_stmt var_decls (WhileLoopStmt c body)
  = transform_expr var_decls c (λ cond,
      b ←' transform_stmts var_decls body;
      Ok [LoopStmt ([AssumeStmt cond None] ++ b)]).
Proof using Type. reflexivity. Qed.

Lemma good_bind_stmts (r : result (list Stmt))
    (k : list Stmt → result (list Stmt)) :
  good r → (∀ ss, Forall frontend_stmt ss → good (k ss)) → good (bind r k).
Proof using Type. destruct r as [ss|e]; simpl; eauto. Qed.

Lemma transform_stmt_good s : stmt_good var_decls es s.
Proof using Hvd.
  induction s as [d r e|c f g IHf IHg| |body IHb|c body IHb| | |]
    using LStmt_ind_nested; unfold stmt_good; intros Hsub.
  - apply transform_expr_good; [done|]. intros x Hx.
    pose proof (dest_var_good d r _ eq_refl) as Hd.
    destruct (dest_var var_decls d r) as [v|x']; simpl in *; [|done].
    destruct Hd. repeat constructor; done.
  - rewrite transform_stmt_if. rewrite stmt_exprs_if in Hsub.
    apply transform_expr_good; [intros x Hx; apply Hsub; set_solver|].
    intros cond Hc.
    destruct (expr_ok_root _ Hc) as [h Hh]. cbv beta. rewrite Hh.
    cbn [getattr bind].
    apply good_bind_stmts.
    { apply transform_stmts_good_of; [done|].
      intros x Hx. apply Hsub. set_solver. }
    intros ts Hts.
    apply good_bind_stmts.
    { apply transform_stmts_good_of; [done|].
      intros x Hx. apply Hsub. set_solver. }
    intros ss Hss. simpl.
    repeat constructor; try done. by apply expr_ok_un.
  - constructor.
  - rewrite transform_stmt_loop. rewrite stmt_exprs_loop in Hsub.
    apply good_bind_stmts; [by apply transform_stmts_good_of|].
    intros b Hb. simpl. repeat constructor; done.
  - rewrite transform_stmt_while. rewrite stmt_exprs_while in Hsub.
    apply transform_expr_good; [intros x Hx; apply Hsub; set_solver|].
    intros cond Hc. cbv beta.
    apply good_bind_stmts.
    { apply transform_stmts_good_of; [done|].
      intros x Hx. apply Hsub. set_solver. }
    intros b Hb. simpl. repeat constructor; done.
  - constructor.
  - constructor.
  - right. by left.
Qed.

Lemma transform_stmts_good ss :
  (∀ x, x ∈ flat_map stmt_exprs ss → x ∈ es) →
  good (transform_stmts var_decls ss).
Proof using Hvd.
  apply transform_stmts_good_of, Forall_forall. intros s _.
  apply transform_stmt_good.
Qed.

End with_var_decls.

End blame.

(** *** Declarations *)

Lemma declare_lookup decl tdecl ids vd k :
  declare decl tdecl ids vd !! k
  = if bool_decide (k.1 = decl ∧ k.2 ∈ ids)
    then Some (LalShape.declared decl tdecl k.2) else vd !! k.
Proof.
  revert vd. induction ids as [|x ids IH]; intros vd.
  - simpl. rewrite bool_decide_eq_false_2; [done|]. set_solver +.
  - unfold declare in *. simpl. rewrite IH.
    destruct (decide (k.1 = decl ∧ k.2 ∈ ids)) as [Hin|Hnin].
    + rewrite !bool_decide_eq_true_2; [done|set_solver|done].
    + rewrite (bool_decide_eq_false_2 _ Hnin).
      destruct (decide (k = (decl, x))) as [->|Hne].
      * rewrite lookup_insert_eq, bool_decide_eq_true_2; [done|].
        simpl. set_solver +.
      * rewrite lookup_insert_ne by done.
        rewrite bool_decide_eq_false_2; [done|].
        intros [E [Hx|?]%elem_of_cons]; [|by apply Hnin].
        apply Hne. destruct k. simpl in *. by subst.
Qed.

Lemma lookup_all_declared vd decl tdecl ids :
  (∀ text, text ∈ ids → vd !! (decl, text) = Some (LalShape.declared decl tdecl text)) →
  lookup_all vd decl ids = Ok (LalShape.declared decl tdecl <$> ids).
Proof.
  induction ids as [|x ids IH]; intros Hall; simpl; [done|].
  unfold getitem. rewrite (Hall x) by set_solver +. simpl.
  rewrite IH; [done|]. intros text Ht. apply Hall. set_solver.
Qed.

Lemma transform_expr_ext vd e ctx1 ctx2 :
  (∀ x, ctx1 x = ctx2 x) →
  transform_expr vd e ctx1 = transform_expr vd e ctx2.
Proof.
  revert ctx1 ctx2.
  induction e as [e IH|l IHl op r IHr tv|op e IH tv|c IHc t IHt e IHe
    |text ref|text tv|tv|p IH tv|p IH attr tv| |]; intros ctx1 ctx2 Hctx;
    simpl; [..|done|done].
  - by apply IH.
  - apply IHl. intros lhs. apply IHr. intros rhs.
    destruct (transform_operator op 2); simpl; [apply Hctx|done].
  - apply IH. intros o.
    destruct (transform_operator op 1); simpl; [apply Hctx|done].
  - apply IHc. intros cond. apply IHt. intros thn. apply IHe. intros els.
    destruct (getattr (type_hint cond)); simpl; [|done].
    rewrite (Hctx thn). destruct (ctx2 thn); simpl; [|done].
    by rewrite (Hctx els).
  - destruct ref; [|apply Hctx|done..].
    destruct (getitem _ _); simpl; [apply Hctx|done].
  - destruct (int_ text); [apply Hctx|done].
  - apply Hctx.
  - apply IH. intros p'. apply Hctx.
  - case_bool_decide; [|done]. apply IH. intros p'. apply Hctx.
Qed.

Lemma declare_in decl tdecl ids vd text :
  text ∈ ids →
  declare decl tdecl ids vd !! (decl, text)
  = Some (LalShape.declared decl tdecl text).
Proof. intros Ht. rewrite declare_lookup. by rewrite bool_decide_eq_true_2. Qed.


Lemma vd_ok_empty : vd_ok ∅.
Proof. intros k v. by rewrite lookup_empty. Qed.

Lemma declare_vd_ok decl tdecl ids vd :
  vd_ok vd → vd_ok (declare decl tdecl ids vd).
Proof.
  intros Hvd k v. rewrite declare_lookup. case_bool_decide.
  - intros [= <-]. split; [done|].
    intros n ->%list_elem_of_singleton. simpl. eauto.
  - apply Hvd.
Qed.

Lemma transform_decl_good es d vd :
  vd_ok vd → (∀ x, x ∈ decl_exprs d → x ∈ es) →
  vd_ok (transform_decl d vd).2 ∧ good es (transform_decl d vd).1.
Proof.
  intros Hvd Hsub. destruct d as [| |decl ids tdecl [default|]|]; simpl;
    try (split; [done|]); try by constructor.
  - split; [by apply declare_vd_ok|].
    apply transform_expr_good; [by apply declare_vd_ok|done|].
    intros x Hx.
    rewrite (lookup_all_declared _ _ tdecl _
               (declare_in decl tdecl ids vd)). simpl.
    apply Forall_fmap, Forall_fmap, Forall_forall. intros text _.
    constructor; [done| |done].
    intros n ->%list_elem_of_singleton. simpl. eauto.
  - split; [by apply declare_vd_ok|].
    rewrite (lookup_all_declared _ _ tdecl _
               (declare_in decl tdecl ids vd)). simpl.
    apply Forall_fmap, Forall_fmap, Forall_forall. intros text _.
    constructor; [done|].
    intros n ->%list_elem_of_singleton. simpl. eauto.
  - right. by left.
Qed.

Lemma transform_decls_good es ds vd :
  vd_ok vd → (∀ x, x ∈ flat_map decl_exprs ds → x ∈ es) →
  vd_ok (transform_decls ds vd).2 ∧ good es (transform_decls ds vd).1.
Proof.
  revert vd. induction ds as [|d ds IH]; intros vd Hvd Hsub; simpl.
  - split; [done|constructor].
  - destruct (transform_decl_good es d vd Hvd) as [V1 G1].
    { intros x Hx. apply Hsub. simpl. set_solver. }
    destruct (transform_decl d vd) as [[r1|e] vd1]; simpl in *; [|done].
    destruct (IH vd1 V1) as [V2 G2].
    { intros x Hx. apply Hsub. set_solver. }
    destruct (transform_decls ds vd1) as [[r2|e] vd2]; simpl in *; [|done].
    split; [done|]. by apply Forall_app.
Qed.

Lemma gen_ir_good subp :
  match _gen_ir subp with
  | Ok prgm => Forall frontend_stmt (stmts prgm)
  | Raise e => expected_exn (subp_exprs subp) e
  end.
Proof.
  unfold _gen_ir.
  destruct (transform_decls_good (subp_exprs subp) (f_decls subp) ∅)
    as [V G].
  { apply vd_ok_empty. }
  { intros x Hx. unfold subp_exprs. set_solver. }
  destruct (transform_decls (f_decls subp) ∅) as [[ds|e] vd]; simpl in *;
    [|done].
  assert (good (subp_exprs subp) (transform_stmts vd (f_stmts subp))) as G2.
  { apply transform_stmts_good; [done|].
    intros x Hx. unfold subp_exprs. set_solver. }
  destruct (transform_stmts vd (f_stmts subp)) as [ss|e]; simpl in *; [|done].
  by apply Forall_app.
Qed.

Lemma stmt_typed_all s : stmt_typed s.
Proof.
  induction s as [id e|id|id|e p|f g IHf IHg|body IHb]
    using Stmt_ind_nested; intros Hs n;
    inversion Hs as [? ? _ Hid He|? _ Hid|? He|? ? Hf Hg|? Hb]; subst; simpl.
  - intros [?|?]%elem_of_app; eauto.
  - eauto.
  - eauto.
  - rewrite Forall_forall in IHf, IHg, Hf, Hg.
    intros [Hn|Hn]%elem_of_app;
      apply list_elem_of_In, in_flat_map in Hn as (s & Hs' & Hn);
      apply list_elem_of_In in Hs', Hn.
    + apply (IHf s Hs'); [by apply Hf|done].
    + apply (IHg s Hs'); [by apply Hg|done].
  - rewrite Forall_forall in IHb, Hb.
    intros Hn. apply list_elem_of_In, in_flat_map in Hn as (s & Hs' & Hn).
    apply list_elem_of_In in Hs', Hn.
    apply (IHb s Hs'); [by apply Hb|done].
Qed.

Lemma gen_ir_typed subp prgm n :
  _gen_ir subp = Ok prgm →
  n ∈ flat_map Models.stmt_nodes (stmts prgm) → is_Some (type_hint n).
Proof.
  intros Hgen Hn. pose proof (gen_ir_good subp) as G. rewrite Hgen in G.
  apply list_elem_of_In, in_flat_map in Hn as (s & Hs & Hn).
  apply list_elem_of_In in Hs, Hn. apply (stmt_typed_all s); [|done].
  by eapply Forall_forall.
Qed.

(** X15.  In a program the frontend returns, every statement is an assign
    or read statement whose target is an identifier, an assume statement
    without purpose, a split or a loop (there is no use statement), and
    every expression node carries a type hint, so that [findall] with
    [_has_type_hint] selects every expression node of the program. *)
Theorem gen_ir_programs_are_typed (subp : SubpBody) (prgm : Program) :
  _gen_ir subp = Ok prgm →
  Forall frontend_stmt (stmts prgm)
  ∧ (∀ n, n ∈ flat_map Models.stmt_nodes (stmts prgm) →
          is_Some (type_hint n))
  ∧ Models.findall prgm Models._has_type_hint
    = flat_map Models.stmt_nodes (stmts prgm).
Proof.
  intros Hgen. pose proof (gen_ir_good subp) as G. rewrite Hgen in G.
  assert (Htyped : ∀ n, n ∈ flat_map Models.stmt_nodes (stmts prgm) →
                        is_Some (type_hint n)).
  { intros n. by apply (gen_ir_typed subp). }
  split_and!; [done..|].
  unfold Models.findall. apply forallb_filter_id, forallb_forall.
  intros n Hn%list_elem_of_In. apply bool_decide_eq_true. by apply Htyped.
Qed.


(** *** What the frontend accepts *)

Section acceptance.
Context (var_decls : gmap (nat * string) Expr) (Hvd : vd_ok var_decls).

Local Abbreviation supported := (LalShape.supported var_decls).
Local Abbreviation supported_stmt := (LalShape.supported_stmt var_decls).

Lemma transform_expr_returns e :
  ∀ ctx, supported e → ctx_total ctx →
         ∃ r, transform_expr var_decls e ctx = Ok r.
Proof using Hvd.
  induction e as [e IH|l IHl op r IHr tv|op e IH tv|c IHc t IHt e IHe
    |text ref|text tv|tv|p IH tv|p IH attr tv| |]; intros ctx Hs Hctx;
    simpl in *.
  - by apply IH.
  - destruct Hs as (Hl & Hr & [sym Hop]).
    apply IHl; [done|]. intros lhs Hlhs. apply IHr; [done|].
    intros rhs Hrhs. rewrite Hop. simpl. apply Hctx. by apply expr_ok_bin.
  - destruct Hs as (He & [sym Hop]).
    apply IH; [done|]. intros o Ho. rewrite Hop. simpl.
    apply Hctx. by apply expr_ok_un.
  - destruct Hs as (Hc & Ht & He).
    apply IHc; [done|]. intros cond Hcond. apply IHt; [done|].
    intros thn Hthn. apply IHe; [done|]. intros els Hels.
    destruct (expr_ok_root _ Hcond) as [h ->]. simpl.
    destruct (Hctx thn Hthn) as [ts ->]. simpl.
    destruct (Hctx els Hels) as [es ->]. simpl. eauto.
  - destruct ref as [decl|h| |]; [| |done..].
    + destruct Hs as [v Hv]. unfold getitem. rewrite Hv. simpl.
      apply Hctx. by apply (Hvd _ _ Hv).
    + apply Hctx, expr_ok_lit.
  - destruct Hs as [value ->]. apply Hctx, expr_ok_lit.
  - apply Hctx, expr_ok_lit.
  - apply IH; [done|]. intros p' Hp. apply Hctx. by apply expr_ok_un.
  - destruct Hs as [-> Hp]. rewrite bool_decide_eq_true_2 by done.
    apply IH; [done|]. intros p' Hp'. apply Hctx. by apply expr_ok_un.
  - done.
  - done.
Qed.

Lemma transform_expr_returned e :
  ∀ ctx r, transform_expr var_decls e ctx = Ok r →
           supported e ∧ ∃ x r', ctx x = Ok r'.
Proof using Type.
  induction e as [e IH|l IHl op r IHr tv|op e IH tv|c IHc t IHt e IHe
    |text ref|text tv|tv|p IH tv|p IH attr tv| |]; intros ctx res Hres;
    simpl in *.
  - by eapply IH.
  - apply IHl in Hres as (Hl & lhs & r1 & Hres).
    apply IHr in Hres as (Hr & rhs & r2 & Hres).
    apply bind_Ok in Hres as (sym & Hop & Hres).
    split; [|eauto]. split_and!; [done..|]. by exists sym.
  - apply IH in Hres as (He & o & r1 & Hres).
    apply bind_Ok in Hres as (sym & Hop & Hres).
    split; [|eauto]. split; [done|]. by exists sym.
  - apply IHc in Hres as (Hc & cond & r1 & Hres).
    apply IHt in Hres as (Ht & thn & r2 & Hres).
    apply IHe in Hres as (He & els & r3 & Hres).
    apply bind_Ok in Hres as (h & _ & Hres).
    apply bind_Ok in Hres as (ts & Hts & _).
    split; [done|eauto].
  - destruct ref as [decl|h| |]; [| |done..].
    + apply bind_Ok in Hres as (v & Hv & Hres). split; [|eauto].
      unfold getitem in Hv. destruct (var_decls !! (decl, text)); [eauto|done].
    + eauto.
  - destruct (int_ text) as [value|]; [eauto|done].
  - eauto.
  - apply IH in Hres as (Hp & p' & r1 & Hres). eauto.
  - case_bool_decide; [|done].
    apply IH in Hres as (Hp & p' & r1 & Hres). eauto.
  - done.
  - done.
Qed.

Lemma transform_stmts_accepts_of ss :
  Forall (accepts_iff_supported var_decls) ss →
  (∃ r, transform_stmts var_decls ss = Ok r) ↔ Forall supported_stmt ss.
Proof using Type.
  induction 1 as [|s ss Hs _ IH]; simpl.
  - split; [constructor|eauto].
  - unfold accepts_iff_supported in Hs. rewrite Forall_cons, <- Hs, <- IH.
    split.
    + intros [r (r1 & -> & (r2 & -> & _)%bind_Ok)%bind_Ok]. eauto.
    + intros [[r1 ->] [r2 ->]]. simpl. eauto.
Qed.

Lemma transform_stmt_accepts s : accepts_iff_supported var_decls s.
Proof using Hvd.
  induction s as [d r e|c f g IHf IHg| |body IHb|c body IHb| | |]
    using LStmt_ind_nested; unfold accepts_iff_supported.
  - simpl. split.
    + intros [res (He & x & r' & Hx)%transform_expr_returned].
      apply bind_Ok in Hx as (v & Hv & _).
      destruct r as [decl| | |]; simpl in Hv; [|done..].
      constructor; [done|]. unfold getitem in Hv.
      destruct (var_decls !! (decl, d)); [eauto|done].
    + intros Hs. inversion Hs as [? ? ? He [v Hv]| | | | | |]; subst.
      apply transform_expr_returns; [done|]. intros x Hx. simpl.
      unfold getitem. rewrite Hv. simpl. eauto.
  - rewrite transform_stmt_if. split.
    + intros [res (Hc & x & r' & Hx)%transform_expr_returned].
      apply bind_Ok in Hx as (h & _ & Hx).
      apply bind_Ok in Hx as (ts & Hts & Hx).
      apply bind_Ok in Hx as (es & Hes & _).
      constructor; [done| |].
      * apply (transform_stmts_accepts_of f IHf). eauto.
      * apply (transform_stmts_accepts_of g IHg). eauto.
    + intros Hs. inversion Hs as [|? ? ? Hc Hf Hg| | | | |]; subst.
      apply transform_expr_returns; [done|]. intros cond Hcond. cbv beta.
      destruct (expr_ok_root _ Hcond) as [h ->]. simpl.
      apply (transform_stmts_accepts_of f IHf) in Hf as [ts ->].
      apply (transform_stmts_accepts_of g IHg) in Hg as [es ->].
      simpl. eauto.
  - split; [constructor|simpl; eauto].
  - rewrite transform_stmt_loop. split.
    + intros [res (b & Hb & _)%bind_Ok]. constructor.
      apply (transform_stmts_accepts_of body IHb). eauto.
    + intros Hs. inversion Hs as [| | |? Hb| | |]; subst.
      apply (transform_stmts_accepts_of body IHb) in Hb as [b ->].
      simpl. eauto.
  - rewrite transform_stmt_while. split.
    + intros [res (Hc & x & r' & Hx)%transform_expr_returned].
      apply bind_Ok in Hx as (b & Hb & _). constructor; [done|].
      apply (transform_stmts_accepts_of body IHb). eauto.
    + intros Hs. inversion Hs as [| | | |? ? Hc Hb| |]; subst.
      apply transform_expr_returns; [done|]. intros cond Hcond. cbv beta.
      apply (transform_stmts_accepts_of body IHb) in Hb as [b ->].
      simpl. eauto.
  - split; [constructor|simpl; eauto].
  - split; [constructor|simpl; eauto].
  - split; [by intros [? ?]|intros Hs; inversion Hs].
Qed.


End acceptance.

End lal_shape_facts.

(** ** From the frontend to the model *)

Section pipeline_facts.
Context {int_of_text : Lal.IntOfText}.
Context {V Ty : Type} `{Countable Ty}.
Context (typer_from_hint : nat → Hint → result Ty).
Context (interpreter_from_type : nat → Ty → result (Models.Interp V)).
Context (show_signature : list (Domain V) → string).

Local Abbreviation of_ :=
  (Models.of_ typer_from_hint interpreter_from_type show_signature).

(** X18.  The programs of the frontend are modelled in full: when [of]
    returns a model for programs that [_gen_ir] has returned, every
    expression node of every statement of these programs has an entry in the
    model, the operands of operators included. *)
Theorem frontend_programs_are_fully_modelled (subps : list Lal.SubpBody)
    (programs : list Program) (s : Models.State)
    (model : list (Expr * Bunch V)) (s' : Models.State) :
  Forall2 (λ subp prgm, Lal._gen_ir subp = Ok prgm) subps programs →
  of_ programs s = (Ok model, s') →
  ∀ prog n, prog ∈ programs →
            n ∈ flat_map Models.stmt_nodes (stmts prog) →
            is_Some (Models.dict_get model n).
Proof.
  intros Hgen Hof prog n Hp Hn.
  apply (of_keys _ _ _ _ _ _ _ _ Hof).
  unfold ModelShape.typed_nodes. apply list_elem_of_bind.
  exists prog. split; [|done].
  apply list_elem_of_lookup in Hp as [i Hi].
  destruct (Forall2_lookup_r _ _ _ _ _ Hgen Hi) as (subp & _ & Hsubp).
  unfold Models.findall. apply list_elem_of_In, filter_In.
  split; [by apply list_elem_of_In|].
  apply bool_decide_eq_true. by eapply gen_ir_typed.
Qed.

End pipeline_facts.

(** ** The further properties at concrete inputs *)

Section more_examples.
Import CFGBuilder CFGShape Examples.

Lemma sample_modelled (e : Expr) : Shape.modelled Sample.model e.
Proof. induction e; simpl; eauto 10. Qed.

Lemma sample_bound (v : gset bool) (e : Expr) :
  Shape.idents e ⊆ [("x", 0)] → Shape.bound (Sample.env_x v) e.
Proof.
  intros Hsub k Hk. apply Hsub, list_elem_of_singleton in Hk as ->.
  unfold Sample.env_x. rewrite lookup_singleton_eq. eauto.
Qed.

Lemma sample_idents_x_eq_true :
  Shape.idents Sample.x_eq_true ⊆ [("x", 0)].
Proof. intros k Hk. exact Hk. Qed.

Lemma sample_meets_decrease : Shape.meets_decrease Sample.model (⊆).
Proof.
  intros e b dom Hb Hd a c.
  assert (dom = Sample.bools) as ->.
  { destruct e; simpl in Hb; injection Hb as <-; simpl in Hd; congruence. }
  simpl. set_solver +.
Qed.

(** The model of [assume x == True], as [of] returns it. *)
Lemma of_prog_eq :
  ∃ model s',
    of_ [prog_eq] init = (Ok model, s')
    ∧ is_Some (Models.dict_get model Sample.x_eq_true).
Proof.
  destruct (of_ [prog_eq] init) as [r s'] eqn:Hof.
  assert (∃ model, r = Ok model
                   ∧ is_Some (Models.dict_get model Sample.x_eq_true))
    as (model & -> & Hm).
  { apply (f_equal fst) in Hof. vm_compute in Hof. subst r.
    eexists. split; [reflexivity|]. vm_compute. eauto. }
  by exists model, s'.
Qed.

Lemma eval_reads_only_its_identifiers_witness :
  ExprEvaluator.eval Sample.model Sample.x_eq_true (Sample.env_x {[true]})
  = ExprEvaluator.eval Sample.model Sample.x_eq_true
      (<[("y", 1) := {[false]}]> (Sample.env_x {[true]})).
Proof.
  apply (eval_reads_only_its_identifiers Sample.model Sample.x_eq_true).
  intros k Hk. apply sample_idents_x_eq_true, list_elem_of_singleton in Hk
    as ->.
  by rewrite lookup_insert_ne.
Defined.

Lemma eval_returns_iff_bound_witness :
  ∃ v, ExprEvaluator.eval Sample.model Sample.x_eq_true
         (Sample.env_x {[true]}) = Ok v.
Proof.
  apply (proj2 (eval_returns_iff_bound Sample.model Sample.x_eq_true
                  (Sample.env_x {[true]}))).
  - apply sample_modelled.
  - apply sample_bound, sample_idents_x_eq_true.
Defined.

Lemma visit_touches_only_its_identifiers_witness :
  (ExprSolver.visit Sample.model Sample.lit_true
     (Sample.env_x {[false]}) {[true]}).2
  = Sample.env_x {[false]}.
Proof.
  apply (proj2 (proj2 (visit_touches_only_its_identifiers Sample.model
                         Sample.lit_true (Sample.env_x {[false]}) {[true]}))).
  reflexivity.
Defined.

Lemma visit_returns_on_modelled_witness :
  ∃ feasible env',
    ExprSolver.visit Sample.model Sample.x_eq_true
      (Sample.env_x {[false; true]}) {[true]} = (Ok feasible, env')
    ∧ Shape.bound env' Sample.x_eq_true.
Proof.
  apply (visit_returns_on_modelled Sample.model Sample.x_eq_true
           (Sample.env_x {[false; true]}) {[true]}).
  - apply sample_modelled.
  - apply sample_bound, sample_idents_x_eq_true.
Defined.

Lemma solve_only_narrows_witness :
  Shape.narrows (⊆) (Sample.env_x {[false; true]})
    (ExprSolver.visit Sample.model Sample.x_eq_true
       (Sample.env_x {[false; true]}) {[true]}).2.
Proof.
  apply (proj1 (solve_only_narrows Sample.model (⊆) {[true]}
                  Sample.x_eq_true (Sample.env_x {[false; true]})
                  sample_meets_decrease) {[true]}).
Defined.

Lemma names_fresh_across_programs_witness :
  ∃ n1 n2,
    n1 ∈ nodes (visit_program prog_if ∅)
    ∧ n2 ∈ nodes (visit_program prog_loop (key_counter_after prog_if ∅))
    ∧ name n1 ≠ name n2.
Proof.
  destruct (nodes (visit_program prog_if ∅)) as [|n1 l1] eqn:H1.
  { apply (f_equal length) in H1. vm_compute in H1. done. }
  destruct (nodes (visit_program prog_loop (key_counter_after prog_if ∅)))
    as [|n2 l2] eqn:H2.
  { apply (f_equal length) in H2. vm_compute in H2. done. }
  exists n1, n2.
  assert (n1 ∈ nodes (visit_program prog_if ∅)) as I1
    by (rewrite H1; left).
  assert (n2 ∈ nodes (visit_program prog_loop (key_counter_after prog_if ∅)))
    as I2 by (rewrite H2; left).
  split_and!; [by rewrite <- H1|by rewrite <- H2|].
  exact (names_fresh_across_programs prog_if prog_loop ∅ n1 n2 I1 I2).
Defined.

Lemma cfg_single_exit_witness :
  exit_node prog_if ∅ ∈ nodes (visit_program prog_if ∅).
Proof.
  apply (proj1 (cfg_single_exit prog_if ∅)).
Defined.

Lemma model_covers_the_typed_nodes_witness :
  ∃ model s',
    of_ [prog_eq] init = (Ok model, s')
    ∧ is_Some (Models.dict_get model Sample.lit_true).
Proof.
  destruct of_prog_eq as (model & s' & Hof & _).
  exists model, s'. split; [done|].
  apply (model_covers_the_typed_nodes typer_from_hint interpreter_from_type
           show_signature [prog_eq] init model s' Sample.lit_true Hof).
  exists prog_eq. split_and!.
  - apply list_elem_of_singleton. reflexivity.
  - simpl. set_solver +.
  - simpl. eauto.
Defined.

Lemma model_entries_by_node_kind_witness :
  ∃ model s' b,
    of_ [prog_eq] init = (Ok model, s')
    ∧ Models.dict_get model Sample.x_eq_true = Some b
    ∧ ModelShape.entry_shape Sample.x_eq_true b.
Proof.
  destruct of_prog_eq as (model & s' & Hof & [b Hb]).
  exists model, s', b. split_and!; [done..|].
  exact (model_entries_by_node_kind typer_from_hint interpreter_from_type
           show_signature [prog_eq] init model s' Sample.x_eq_true b Hof Hb).
Defined.

Lemma model_covers_operands_witness :
  ∃ model s',
    of_ [prog_eq] init = (Ok model, s')
    ∧ ∀ o, o ∈ Models.expr_nodes Sample.x_eq_true →
           is_Some (Models.dict_get model o).
Proof.
  destruct of_prog_eq as (model & s' & Hof & Hm).
  exists model, s'. split; [done|].
  exact (proj2 (model_covers_operands typer_from_hint interpreter_from_type
                  show_signature [prog_eq] init model s' Sample.x_eq_true
                  Hof Hm)).
Defined.

Lemma returned_model_suits_evaluator_and_solver_witness :
  ∃ model s',
    of_ [prog_eq] init = (Ok model, s')
    ∧ ModelShape.value_or_TypeError
        (ExprEvaluator.eval (Models.dict_get model) Sample.x_eq_true
           (Sample.env_x {[true]}))
    ∧ ModelShape.value_or_TypeError
        (ExprSolver.visit (Models.dict_get model) Sample.x_eq_true
           (Sample.env_x {[true]}) {[true]}).1.
Proof.
  destruct of_prog_eq as (model & s' & Hof & Hm).
  exists model, s'. split; [done|].
  apply (returned_model_suits_evaluator_and_solver typer_from_hint
           interpreter_from_type show_signature [prog_eq] init model s'
           Sample.x_eq_true Hof Hm).
  apply sample_bound, sample_idents_x_eq_true.
Defined.


Lemma gen_ir_programs_are_typed_witness :
  Forall LalShape.frontend_stmt (stmts prog_if)
  ∧ (∀ n, n ∈ flat_map Models.stmt_nodes (stmts prog_if) →
          is_Some (type_hint n))
  ∧ Models.findall prog_if Models._has_type_hint
    = flat_map Models.stmt_nodes (stmts prog_if).
Proof.
  apply (gen_ir_programs_are_typed subp_if prog_if).
  vm_compute. reflexivity.
Defined.



Lemma frontend_programs_are_fully_modelled_witness :
  let subp :=
    {| Lal.f_decls := [Lal.ObjectDecl 0 ["x"] 1 None];
       Lal.f_stmts :=
         [Lal.LAssignStmt "x" (Lal.RefObjectDecl 0)
            (Lal.BinOp (Lal.LIdentifier "x" (Lal.RefObjectDecl 0)) Lal.OpEq
               (Lal.IntLiteral "1" 1) 1)] |} in
  ∃ prgm model s',
    Lal._gen_ir subp = Ok prgm
    ∧ of_ [prgm] init = (Ok model, s')
    ∧ is_Some (Models.dict_get model Sample.x).
Proof.
  intros subp.
  destruct (Lal._gen_ir subp) as [prgm|e] eqn:Hgen; [|by vm_compute in Hgen].
  pose proof Hgen as Hprgm. vm_compute in Hprgm.
  destruct (of_ [prgm] init) as [r s'] eqn:Hof.
  assert (∃ model, r = Ok model) as (model & ->).
  { apply (f_equal fst) in Hof. injection Hprgm as <-.
    vm_compute in Hof. subst r. eauto. }
  exists prgm, model, s'. split_and!; [done..|].
  assert (Forall2 (λ subp prgm, Lal._gen_ir subp = Ok prgm) [subp] [prgm])
    as Hall by (constructor; [done|constructor]).
  apply (frontend_programs_are_fully_modelled typer_from_hint
           interpreter_from_type show_signature [subp] [prgm] init
           model s' Hall Hof prgm).
  - apply list_elem_of_singleton. reflexivity.
  - injection Hprgm as <-. simpl. set_solver +.
Defined.

End more_examples.
